(** * Just-Dance (MMPose project): video processing pipeline

    A shallow embedding of [just_dance/process_video.py],
    [just_dance/utils.py] and the entry point [process_video] of [app.py],
    and the properties of the pipeline around the motion-similarity engine:
    keypoint extraction and its cache, the lazily built pose estimator and
    visualizer, output-video generation (frame ranges, score overlay, output
    file, ownership of the keypoint arrays), the phases of a run, image
    resizing and blending.

    Conventions.
    - NumPy/Torch floating-point values are modelled as exact rationals
      ([Q]); rounding, NaN and infinities are outside the model.
    - Python exceptions are the [Raise] values of [result].
    - The file system, the object heap and a trace of the calls made to the
      external collaborators form the explicit [World] that the stateful
      functions thread through.
    - The third-party collaborators (detector, pose model, OpenCV/mmcv image
      operations, the visualizer) are the fields of the [Collaborators]
      interface. *)

From Stdlib Require Import ZArith QArith Qround Qminmax Lqa Lia List.
From Stdlib Require Import Ascii String DecimalString.
From stdpp Require Import gmap strings list.

Local Open Scope Q_scope.

(* ===================================================================== *)
(** * Part I. The embedding                                               *)
(* ===================================================================== *)

(** ** Exceptions and results *)

Inductive exn : Type :=
  | AssertionError | ValueError | IndexError | StopIteration
  | FileNotFoundError | UnpicklingError | ZeroDivisionError | RuntimeError.

Inductive result (A : Type) : Type :=
  | Ok (a : A)
  | Raise (e : exn).
Arguments Ok {A} a.
Arguments Raise {A} e.

(** ** Numbers *)

(** [a < b] on floats, as a boolean. *)
Definition Qltb (a b : Q) : bool := negb (Qle_bool b a).

(** Python's [int(x)] and NumPy's float-to-integer cast: truncation toward
    zero. *)
Definition Qtrunc (q : Q) : Z := Z.quot (Qnum q) (Zpos (Qden q)).

(** [x.astype(np.uint8)]: truncate, then keep the low 8 bits. *)
Definition to_uint8 (q : Q) : Z := (Qtrunc q mod 256)%Z.

(** ** utils.py: images and [blend_images] *)

(** The element type and the flat (row-major) contents of an image. *)
Inductive pixels : Type :=
  | U8 (px : list Z)      (* dtype uint8 *)
  | F32 (px : list Q)     (* dtype float32 *)
  | F64 (px : list Q).    (* dtype float64 *)

(** An image [H, W, C]. *)
Record image : Type := mkImage {
  im_shape : nat * nat * nat;
  im_data : pixels
}.

Definition px_length (p : pixels) : nat :=
  match p with
  | U8 l => length l
  | F32 l | F64 l => length l
  end.

Definition numel (s : nat * nat * nat) : nat :=
  let '(h, w, c) := s in (h * w * c)%nat.

(** The data of an image fills its shape. *)
Definition wf_image (img : image) : Prop :=
  px_length (im_data img) = numel (im_shape img).

(** [normalize_image], the local function of [blend_images]. *)
Definition normalize_image (p : pixels) : pixels :=
  match p with
  | U8 l => F32 (map (fun z => inject_Z z / 255) l)
  | _ => p
  end.

(** [img * ratio] with a Python float [ratio]. *)
Definition px_scale (p : pixels) (r : Q) : pixels :=
  match p with
  | U8 l => F64 (map (fun z => inject_Z z * r) l)
  | F32 l => F32 (map (fun v => v * r) l)
  | F64 l => F64 (map (fun v => v * r) l)
  end.

Definition px_values (p : pixels) : list Q :=
  match p with
  | U8 l => map inject_Z l
  | F32 l | F64 l => l
  end.

(** [a + b], elementwise on operands of the same shape; the result takes the
    wider of the two element types. *)
Definition px_add (a b : pixels) : pixels :=
  let s := map (fun ab => fst ab + snd ab) (combine (px_values a) (px_values b)) in
  match a, b with
  | F32 _, F32 _ => F32 s
  | _, _ => F64 s
  end.

(** [x.clip(min=0, max=1)]. *)
Definition clip01 (v : Q) : Q := Qmin (Qmax v 0) 1.

Definition px_clip (p : pixels) : pixels :=
  match p with
  | U8 l => U8 (map (fun z => Z.min (Z.max z 0) 1) l)
  | F32 l => F32 (map clip01 l)
  | F64 l => F64 (map clip01 l)
  end.

(** [(x * 255).astype(np.uint8)]. *)
Definition px_to_uint8 (p : pixels) : pixels :=
  U8 (map (fun v => to_uint8 (v * 255)) (px_values p)).

(** [blend_images(img1, img2, blend_ratios)].  Operands of different shapes
    (NumPy broadcasting) are outside the model: the data is combined
    position by position and the shape of [img1] is kept. *)
Definition blend_images (img1 img2 : image) (blend_ratios : Q * Q) : image :=
  let i1 := normalize_image (im_data img1) in
  let i2 := normalize_image (im_data img2) in
  let blended :=
    px_add (px_scale i1 (fst blend_ratios)) (px_scale i2 (snd blend_ratios)) in
  let blended := px_clip blended in
  mkImage (im_shape img1) (px_to_uint8 blended).

(** The value every entry of the blend holds before the final cast. *)
Definition blend_value (a b : Q) (r : Q * Q) : Q :=
  clip01 (a * fst r + b * snd r) * 255.

(** ** Keypoint arrays *)

(** One row [x, y, score] of a keypoint array. *)
Record joint : Type := mkJoint { jx : Q; jy : Q; jscore : Q }.

Definition zero_joint : joint := mkJoint 0 0 0.

Inductive fdtype : Type := float32 | float64.

(** NumPy's result type for two floating-point operands. *)
Definition promote (a b : fdtype) : fdtype :=
  match a, b with
  | float32, float32 => float32
  | _, _ => float64
  end.

(** An array of shape (N, J, 3): N frames (or person instances) of J joints. *)
Record kpt_array : Type := mkKpts {
  ka_dtype : fdtype;
  ka_rows : list (list joint)
}.

(** The array has shape (n, j, 3). *)
Definition has_shape (a : kpt_array) (n j : nat) : Prop :=
  length (ka_rows a) = n /\ Forall (fun r => length r = j) (ka_rows a).

(** [np.zeros((1, 17, 3), dtype=np.float32)]. *)
Definition zeros_1_17_3 : kpt_array := mkKpts float32 [repeat zero_joint 17].

(** The arrays that live on the heap: keypoint sequences (N, J, 3) and
    single frames (J, 3). *)
Inductive ndarray : Type :=
  | Arr3 (a : kpt_array)
  | Arr2 (d : fdtype) (row : list joint).

(** ** Videos, files and the world *)

Record video : Type := mkVideo { v_fps : Q; v_frames : list image }.

Inductive file : Type :=
  | VideoFile (v : video)
  | TorchFile (k : kpt_array).

(** The output of [select_piece_from_similarity]: the dict [piece_info]. *)
Record piece_info : Type := mkPiece {
  tch_start : nat;
  stu_start : nat;
  length_ : nat;
  similarity : list Q
}.

Definition matrix : Type := list (list Q).

Inductive role : Type := Source | Teacher | Student.

(** The calls the pipeline makes, in the order it makes them. *)
Inductive event : Type :=
  | EvBuildInferencer (id : nat)
  | EvTorchLoad (path : string)
  | EvTorchSave (path : string)
  | EvVideoReader (who : role) (path : string)
  | EvConvertFps (path : string)
  | EvPose (index : nat)
  | EvSimilarity (m : result matrix)
  | EvSelectPiece (p : result piece_info)
  | EvNext (who : role) (pos : nat)
  | EvSmooth (kpts : nat) (index : nat)
  | EvDrawScore (shown : Z)
  | EvWrite (path : string).

Record World : Type := mkWorld {
  fs : gmap string file;              (* the file system *)
  heap : gmap nat ndarray;            (* array objects, by reference *)
  self_pose_estimator : option nat;   (* the attribute [self._pose_estimator] *)
  inferencers_built : nat;            (* Pose2DInferencer objects constructed *)
  log : list event
}.

Definition set_fs (f : gmap string file) (w : World) : World :=
  mkWorld f (heap w) (self_pose_estimator w) (inferencers_built w) (log w).

Definition set_heap (h : gmap nat ndarray) (w : World) : World :=
  mkWorld (fs w) h (self_pose_estimator w) (inferencers_built w) (log w).

Definition add_log (e : event) (w : World) : World :=
  mkWorld (fs w) (heap w) (self_pose_estimator w) (inferencers_built w)
          (log w ++ [e]).

Definition extend_log (evs : list event) (w : World) : World :=
  mkWorld (fs w) (heap w) (self_pose_estimator w) (inferencers_built w)
          (log w ++ evs).

(** ** The monad of the stateful functions: a world in, a result or an
    exception and a world out. *)

Definition M (A : Type) : Type := World -> result A * World.

Definition ret {A : Type} (a : A) : M A := fun w => (Ok a, w).

Definition raise {A : Type} (e : exn) : M A := fun w => (Raise e, w).

Definition bind {A B : Type} (m : M A) (k : A -> M B) : M B :=
  fun w =>
    match m w with
    | (Ok a, w') => k a w'
    | (Raise e, w') => (Raise e, w')
    end.

Notation "x <- m ;; k" := (bind m (fun x => k))
  (at level 100, m at next level, right associativity).
Notation "m ;;; k" := (bind m (fun _ => k))
  (at level 100, right associativity).

Definition lift {A : Type} (r : result A) : M A := fun w => (r, w).

Definition emit (e : event) : M unit := fun w => (Ok tt, add_log e w).

(** A new array object. *)
Definition alloc (a : ndarray) : M nat :=
  fun w => let l := fresh (dom (heap w)) in
           (Ok l, set_heap (<[l := a]> (heap w)) w).

(** The contents of an array object. *)
Definition deref (l : nat) : M ndarray :=
  fun w => match heap w !! l with
           | Some a => (Ok a, w)
           | None => (Raise RuntimeError, w)
           end.

(** ** The collaborators *)

Definition bbox : Type := (Q * Q * Q * Q)%type.

(** The [pred_instances] of the pose head: [keypoints] of shape (N, K, 2)
    and [keypoint_scores] of shape (N, K). *)
Record pred_instances : Type := mkPred {
  kp_dtype : fdtype;
  keypoints : list (list (Q * Q));
  ks_dtype : fdtype;
  keypoint_scores : list (list Q)
}.

(** The configured pose model answers one bounding box with one instance of
    the 17 COCO joints, in float32. *)
Definition coco_prediction (p : pred_instances) : Prop :=
  kp_dtype p = float32 /\ ks_dtype p = float32 /\
  exists kp sc, keypoints p = [kp] /\ keypoint_scores p = [sc] /\
                length kp = 17%nat /\ length sc = 17%nat.

(** The third-party code the pipeline calls: the detector and the pose model
    of the [Pose2DInferencer], the image operations of mmcv, OpenCV and
    NumPy, the drawing operations of the [PoseLocalVisualizer] and
    [tempfile.mkdtemp]. *)
Class Collaborators : Type := {
  detector : image -> list (bbox * Q);
  pose_predict : image -> list bbox -> list Q -> pred_instances;
  pose_predict_coco : forall img b s, coco_prediction (pose_predict img b s);
  bgr2rgb : image -> image;
  bgr2rgb_shape : forall img, im_shape (bgr2rgb img) = im_shape img;
  rgb2bgr : image -> image;
  cv2_resize : image -> Z * Z -> image;
  np_hstack : list image -> image;
  draw_instances_kpts : image -> ndarray -> image;
  draw_texts : image -> string -> nat * nat -> Q -> image;
  mkdtemp : gmap string file -> string
}.

(** The functions of the repository that [process_video.py] imports and
    whose definitions are not among the embedded sources; they are
    parameters of the embedding.  The smoother works on the heap (it receives
    a reference to the keypoint sequence and returns a reference), the
    frame-rate converter on the file system. *)
Class Engine : Type := {
  calculate_similarity : ndarray -> ndarray -> result matrix;
  select_piece_from_similarity : matrix -> result piece_info
}.

Class Smoother : Type :=
  get_smoothed_kpt :
    gmap nat ndarray -> nat -> nat -> nat -> result (nat * gmap nat ndarray).

Class FpsConverter : Type :=
  convert_video_fps : string -> gmap string file -> string * gmap string file.

(** ** Strings and paths *)

(** The reversed text up to (and without) its first occurrence of [c]. *)
Fixpoint cut_at (c : Ascii.ascii) (l : list Ascii.ascii) : option (list Ascii.ascii * list Ascii.ascii) :=
  match l with
  | [] => None
  | x :: r =>
      if Ascii.eqb x c then Some ([], r)
      else match cut_at c r with
           | Some (a, b) => Some (x :: a, b)
           | None => None
           end
  end.

(** [s.rsplit('.', 1)[0]]. *)
Definition rsplit_dot_head (s : string) : string :=
  match cut_at "."%char (rev (String.list_ascii_of_string s)) with
  | Some (_, before) => String.string_of_list_ascii (rev before)
  | None => s
  end.

(** [os.path.basename(s)]. *)
Definition basename (s : string) : string :=
  match cut_at "/"%char (rev (String.list_ascii_of_string s)) with
  | Some (after, _) => String.string_of_list_ascii (rev after)
  | None => s
  end.

(** The cache file of a video: [f'{video_fname}_kpts.pth']. *)
Definition kpts_path (video : string) : string :=
  rsplit_dot_head video +:+ "_kpts.pth".

(** [f'{int(x)}']. *)
Definition format_int (x : Q) : string :=
  DecimalString.NilZero.string_of_int (Z.to_int (Qtrunc x)).

(** ** utils.py: [resize_image_to_fixed_height] *)

Definition resize_image_to_fixed_height `{Collaborators}
    (img : image) (fixed_height : nat) : result image :=
  let '(original_height, original_width, _) := im_shape img in
  if Nat.eqb original_height 0 then Raise ZeroDivisionError
  else
    let scale_ratio := inject_Z (Z.of_nat fixed_height)
                       / inject_Z (Z.of_nat original_height) in
    let new_width := Qtrunc (inject_Z (Z.of_nat original_width) * scale_ratio) in
    Ok (cv2_resize img (new_width, Z.of_nat fixed_height)).

(** ** process_video.py: the pose estimator and [get_keypoints_from_frame] *)

(** The property [pose_estimator]. *)
Definition pose_estimator : M nat :=
  fun w =>
    match self_pose_estimator w with
    | Some p => (Ok p, w)
    | None =>
        let p := inferencers_built w in
        (Ok p, mkWorld (fs w) (heap w) (Some p) (S p)
                       (log w ++ [EvBuildInferencer p]))
    end.

(** [np.concatenate((keypoints, keypoint_scores[..., None]), axis=-1)]. *)
Definition concatenate_scores (p : pred_instances) : kpt_array :=
  mkKpts (promote (kp_dtype p) (ks_dtype p))
    (map (fun ks => map (fun xs => mkJoint (fst (fst xs)) (snd (fst xs)) (snd xs))
                        (combine (fst ks) (snd ks)))
         (combine (keypoints p) (keypoint_scores p))).

(** The truth value of [bbox_score < 0.2] for the array of at most one
    score. *)
Definition below_threshold (bbox_score : list Q) : bool :=
  match bbox_score with
  | [s] => Qltb s 0.2
  | _ => false
  end.

(** [get_keypoints_from_frame].  Every access to [self.pose_estimator] after
    the first returns the cached object, so a single access stands for all
    of them. *)
Definition get_keypoints_from_frame `{Collaborators} (img : image) : M kpt_array :=
  _e <- pose_estimator ;;
  let pred_instance := detector img in
  if Nat.eqb (length pred_instance) 0 then ret zeros_1_17_3
  else
    let bboxes := firstn 1 (map fst pred_instance) in
    let bbox_score := firstn 1 (map snd pred_instance) in
    if below_threshold bbox_score then ret zeros_1_17_3
    else ret (concatenate_scores (pose_predict img bboxes bbox_score)).

(** The array that [get_keypoints_from_frame] returns for a frame, as a
    function of what the detector and the pose model answer. *)
Definition frame_keypoints `{Collaborators} (img : image) : kpt_array :=
  match detector img with
  | [] => zeros_1_17_3
  | (b, s) :: _ =>
      if Qltb s 0.2 then zeros_1_17_3
      else concatenate_scores (pose_predict img [b] [s])
  end.

(** [n] successive reads of the property [pose_estimator]. *)
Fixpoint access_pose_estimator (n : nat) : M (list nat) :=
  match n with
  | O => ret []
  | S n' =>
      p <- pose_estimator ;;
      ps <- access_pose_estimator n' ;;
      ret (p :: ps)
  end.

(** ** process_video.py: [get_keypoints_from_video] *)

(** An [mmcv.VideoReader]: a sequential reader over the frames of a video. *)
Record reader : Type := mkReader {
  rd_who : role;
  rd_fps : Q;
  rd_frames : list image;
  rd_pos : nat
}.

(** The reader over a file: a file that is not a video opens as a reader
    without frames, at 0 fps. *)
Definition file_reader (who : role) (f : file) : reader :=
  match f with
  | VideoFile v => mkReader who (v_fps v) (v_frames v) 0
  | TorchFile _ => mkReader who 0 [] 0
  end.

(** [mmcv.VideoReader(path)]. *)
Definition VideoReader (who : role) (path : string) : M reader :=
  fun w =>
    match fs w !! path with
    | Some f => (Ok (file_reader who f), add_log (EvVideoReader who path) w)
    | None => (Raise FileNotFoundError, w)
    end.

(** [next(video_reader)]. *)
Definition reader_next (r : reader) : M (image * reader) :=
  fun w =>
    match rd_frames r !! rd_pos r with
    | Some f =>
        (Ok (f, mkReader (rd_who r) (rd_fps r) (rd_frames r) (S (rd_pos r))),
         add_log (EvNext (rd_who r) (rd_pos r)) w)
    | None => (Raise StopIteration, w)
    end.

(** [os.path.exists(path)]. *)
Definition path_exists (path : string) : M bool :=
  fun w => (Ok (bool_decide (is_Some (fs w !! path))), w).

(** [torch.load(path)]: a new array object with the saved contents. *)
Definition torch_load (path : string) : M nat :=
  fun w =>
    match fs w !! path with
    | Some (TorchFile k) => alloc (Arr3 k) (add_log (EvTorchLoad path) w)
    | Some (VideoFile _) => (Raise UnpicklingError, w)
    | None => (Raise FileNotFoundError, w)
    end.

(** [torch.save(k, path)]. *)
Definition torch_save (k : kpt_array) (path : string) : M unit :=
  fun w => (Ok tt, add_log (EvTorchSave path)
                     (set_fs (<[path := TorchFile k]> (fs w)) w)).

(** [np.concatenate(keypoints_list)] along the first axis: it needs at least
    one array, and arrays that agree on the number of joints. *)
Definition np_concatenate (l : list kpt_array) : result kpt_array :=
  match l with
  | [] => Raise ValueError
  | a :: rest =>
      let dt := fold_left promote (map ka_dtype rest) (ka_dtype a) in
      let rows := concat (map ka_rows l) in
      match rows with
      | [] => Ok (mkKpts dt rows)
      | r :: _ =>
          if forallb (fun r' => Nat.eqb (length r') (length r)) rows
          then Ok (mkKpts dt rows)
          else Raise ValueError
      end
  end.

(** The loop [for i, frame in enumerate(video_reader)]. *)
Fixpoint extract_frames `{Collaborators} (i : nat) (frames : list image)
    : M (list kpt_array) :=
  match frames with
  | [] => ret []
  | frame :: rest =>
      emit (EvPose i) ;;;
      k <- get_keypoints_from_frame frame ;;
      ks <- extract_frames (S i) rest ;;
      ret (k :: ks)
  end.

Definition fps_is_30 (r : reader) : bool := Qeq_bool (rd_fps r) 30.

Definition get_keypoints_from_video `{Collaborators} `{FpsConverter}
    (video : string) : M nat :=
  let cache := kpts_path video in
  cached <- path_exists cache ;;
  if (cached : bool) then torch_load cache
  else
    video_reader <- VideoReader Source video ;;
    video_reader <-
      (if fps_is_30 video_reader then ret video_reader
       else
         converted <- (fun w => let (p, f) := convert_video_fps video (fs w) in
                                (Ok p, add_log (EvConvertFps video) (set_fs f w))) ;;
         VideoReader Source converted) ;;
    if negb (fps_is_30 video_reader) then raise AssertionError
    else
      keypoints_list <- extract_frames 0 (rd_frames video_reader) ;;
      keypoints <- lift (np_concatenate keypoints_list) ;;
      l <- alloc (Arr3 keypoints) ;;
      torch_save keypoints cache ;;;
      ret l.

(** The reader that [get_keypoints_from_video] extracts from: the one over
    the video itself when it reports 30 fps, the one over the output of
    [convert_video_fps] otherwise; [None] when the file to open is missing. *)
Definition extraction_reader `{FpsConverter}
    (video : string) (fsys : gmap string file) : option reader :=
  match fsys !! video with
  | None => None
  | Some f =>
      if fps_is_30 (file_reader Source f) then Some (file_reader Source f)
      else
        let (converted, fsys') := convert_video_fps video fsys in
        file_reader Source <$> fsys' !! converted
  end.

(** The world after the conversion of a video. *)
Definition converted_world (video : string) (f' : gmap string file) (w : World) : World :=
  add_log (EvConvertFps video) (set_fs f' (add_log (EvVideoReader Source video) w)).

(** The frames on which a trace runs the pose extraction. *)
Definition pose_indices (evs : list event) : list nat :=
  flat_map (fun e => match e with EvPose i => [i] | _ => [] end) evs.

(** The events of a trace that read or write files or decode a video. *)
Definition is_io_event (e : event) : bool :=
  match e with
  | EvTorchLoad _ | EvTorchSave _ | EvVideoReader _ _ | EvConvertFps _
  | EvNext _ _ | EvWrite _ => true
  | _ => false
  end.

(** The array extracted from the frames of a video. *)
Definition video_keypoints `{Collaborators} (frames : list image) : kpt_array :=
  mkKpts float32 (concat (map (fun f => ka_rows (frame_keypoints f)) frames)).

(** ** process_video.py: [generate_output_video] *)

(** The columns of a keypoint array: [a[..., 0]] and [a[..., 1]]. *)
Inductive column : Type := ColX | ColY.

Definition joint_add (c : column) (v : Q) (j : joint) : joint :=
  match c with
  | ColX => mkJoint (jx j + v) (jy j) (jscore j)
  | ColY => mkJoint (jx j) (jy j + v) (jscore j)
  end.

Definition array_add (c : column) (v : Q) (a : ndarray) : ndarray :=
  match a with
  | Arr3 k => Arr3 (mkKpts (ka_dtype k) (map (map (joint_add c v)) (ka_rows k)))
  | Arr2 d row => Arr2 d (map (joint_add c v) row)
  end.

(** [a[..., c] += v], in place on the array object [l]. *)
Definition iadd (l : nat) (c : column) (v : Q) : M unit :=
  fun w =>
    match heap w !! l with
    | Some a => (Ok tt, set_heap (<[l := array_add c v a]> (heap w)) w)
    | None => (Raise RuntimeError, w)
    end.

(** The call [get_smoothed_kpt(kpts, index, sigma)]. *)
Definition smoothed_kpt `{Smoother} (kpts index sigma : nat) : M nat :=
  emit (EvSmooth kpts index) ;;;
  (fun w =>
     match get_smoothed_kpt (heap w) kpts index sigma with
     | Ok (l, h) => (Ok l, set_heap h w)
     | Raise e => (Raise e, w)
     end).

(** [np.zeros(shape)]. *)
Definition np_zeros (shape : nat * nat * nat) : image :=
  mkImage shape (F64 (repeat 0 (numel shape))).

(** The running score and the score on display, after one more frame. *)
Definition update_score (score last_vis_score score_frame : Q) : Q * Q :=
  let score := score + score_frame * 1000 in
  (score, if Qltb 1500 (score - last_vis_score) then score else last_vis_score).

(** The two text overlays of a frame: the label, and the score on display
    as the integer [int(last_vis_score)]. *)
Definition draw_score `{Collaborators}
    (out_img : image) (last_vis_score score_frame : Q) : M image :=
  emit (EvDrawScore (Qtrunc last_vis_score)) ;;;
  ret (draw_texts
         (draw_texts out_img "score: " (60%nat, 30%nat) 15)
         (format_int last_vis_score) (115%nat, 30%nat)
         (30 * Qmax 0.4 score_frame)).

(** [video_writer.write(img)], creating the writer (and the file) at the
    first frame. *)
Definition writer_write (opened : bool) (path : string) (img : image) : M unit :=
  fun w =>
    let written :=
      if opened then
        match fs w !! path with
        | Some (VideoFile v) => v_frames v
        | _ => []
        end
      else [] in
    (Ok tt, add_log (EvWrite path)
              (set_fs (<[path := VideoFile (mkVideo 30 (written ++ [img]))]> (fs w)) w)).

(** The local variables that the rendering loop updates. *)
Record loop_state : Type := mkLoop {
  ls_tch : reader;
  ls_stu : reader;
  ls_score : Q;
  ls_last_vis_score : Q;
  ls_writer : bool      (* [video_writer is not None] *)
}.

(** [for _ in range(n): _ = next(video_reader)]. *)
Fixpoint skip_frames (n : nat) (r : reader) : M reader :=
  match n with
  | O => ret r
  | S n' => fr <- reader_next r ;; skip_frames n' (snd fr)
  end.

(** [for i in range(n)] from [i] on, over the local state. *)
Fixpoint for_range {St : Type} (body : nat -> St -> M St) (i n : nat) (st : St)
    : M St :=
  match n with
  | O => ret st
  | S n' => st' <- body i st ;; for_range body (S i) n' st'
  end.

(** One iteration of the rendering loop. *)
Definition render_step `{Collaborators} `{Smoother}
    (output_file : string) (tch_kpts stu_kpts : nat) (piece : piece_info)
    (i : nat) (st : loop_state) : M loop_state :=
  tf <- reader_next (ls_tch st) ;;
  sf <- reader_next (ls_stu st) ;;
  tch_frame <- lift (resize_image_to_fixed_height (bgr2rgb (fst tf)) 300) ;;
  stu_frame <- lift (resize_image_to_fixed_height (bgr2rgb (fst sf)) 300) ;;
  stu_kpt <- smoothed_kpt stu_kpts (stu_start piece + i) 5 ;;
  tch_kpt <- smoothed_kpt tch_kpts (tch_start piece + i) 5 ;;
  (* draw pose *)
  iadd stu_kpt ColY (300 - 256) ;;;
  iadd tch_kpt ColX (256 - 192) ;;;
  iadd tch_kpt ColY (300 - 256) ;;;
  stu_inst <- deref stu_kpt ;;
  tch_inst <- deref tch_kpt ;;
  let stu_out_img := draw_instances_kpts (np_zeros (300, 256, 3)%nat) stu_inst in
  let tch_out_img := draw_instances_kpts (np_zeros (300, 256, 3)%nat) tch_inst in
  let out_img := blend_images stu_out_img tch_out_img (1, 0.3) in
  (* draw score *)
  score_frame <- lift (match similarity piece !! i with
                       | Some s => Ok s
                       | None => Raise IndexError
                       end) ;;
  let '(score, last_vis_score) :=
    update_score (ls_score st) (ls_last_vis_score st) score_frame in
  out_img <- draw_score out_img last_vis_score score_frame ;;
  (* concatenate *)
  let concatenated_image := np_hstack [stu_frame; out_img; tch_frame] in
  writer_write (ls_writer st) output_file (rgb2bgr concatenated_image) ;;;
  ret (mkLoop (snd tf) (snd sf) score last_vis_score true).

Definition generate_output_video `{Collaborators} `{Smoother}
    (tch_video stu_video output_file : string) (tch_kpts stu_kpts : nat)
    (piece : piece_info) : M string :=
  tch_video_reader <- VideoReader Teacher tch_video ;;
  stu_video_reader <- VideoReader Student stu_video ;;
  tch_video_reader <- skip_frames (tch_start piece) tch_video_reader ;;
  stu_video_reader <- skip_frames (stu_start piece) stu_video_reader ;;
  _st <- for_range (render_step output_file tch_kpts stu_kpts piece)
           0 (length_ piece)
           (mkLoop tch_video_reader stu_video_reader 0 0 false) ;;
  ret output_file.

(** ** process_video.py: [run] *)

Definition run `{Collaborators} `{Engine} `{Smoother} `{FpsConverter}
    (tch_video stu_video : string) : M string :=
  (* extract human poses *)
  tch_kpts <- get_keypoints_from_video tch_video ;;
  stu_kpts <- get_keypoints_from_video stu_video ;;
  (* compute similarity *)
  tch_arr <- deref tch_kpts ;;
  stu_arr <- deref stu_kpts ;;
  let r := calculate_similarity tch_arr stu_arr in
  emit (EvSimilarity r) ;;;
  similirity <- lift r ;;
  (* select piece *)
  let r := select_piece_from_similarity similirity in
  emit (EvSelectPiece r) ;;;
  piece <- lift r ;;
  (* output *)
  let tch_name := rsplit_dot_head (basename tch_video) in
  let stu_name := rsplit_dot_head (basename stu_video) in
  let fname := tch_name +:+ "-" +:+ stu_name +:+ ".mp4" in
  tmp <- (fun w => (Ok (mkdtemp (fs w)), w)) ;;
  let output_file := tmp +:+ "/" +:+ fname in
  generate_output_video tch_video stu_video output_file tch_kpts stu_kpts piece.

(** ** Reading a trace *)

Definition role_eqb (a b : role) : bool :=
  match a, b with
  | Source, Source | Teacher, Teacher | Student, Student => true
  | _, _ => false
  end.

(** The positions at which the reader [who] was asked for its next frame. *)
Definition reads (who : role) (evs : list event) : list nat :=
  flat_map (fun e => match e with
                     | EvNext r pos => if role_eqb who r then [pos] else []
                     | _ => []
                     end) evs.

(** The integers drawn as the score, frame after frame. *)
Definition drawn_scores (evs : list event) : list Z :=
  flat_map (fun e => match e with EvDrawScore z => [z] | _ => [] end) evs.

(** The calls of the similarity engine. *)
Definition is_engine_event (e : event) : bool :=
  match e with
  | EvSimilarity _ | EvSelectPiece _ => true
  | _ => false
  end.

Definition is_smooth_event (e : event) : bool :=
  match e with
  | EvSmooth _ _ => true
  | _ => false
  end.

(** The running score and the score on display after each of the frames
    whose similarities are [sims], starting from [(score, last_vis_score)]. *)
Fixpoint score_track (sims : list Q) (st : Q * Q) : list (Q * Q) :=
  match sims with
  | [] => []
  | s :: rest =>
      let st' := update_score (fst st) (snd st) s in
      st' :: score_track rest st'
  end.

(** The sum of a list of floats. *)
Definition Qsum (l : list Q) : Q := fold_right Qplus 0 l.

(** The running score and the score on display once [j] frames are
    rendered. *)
Definition score_after (sims : list Q) (j : nat) : Q * Q :=
  nth j ((0, 0) :: score_track sims (0, 0)) (0, 0).

(** The height of an image. *)
Definition im_height (img : image) : nat := fst (fst (im_shape img)).

(** The events of the [i]-th iteration of the rendering loop. *)
Definition iteration_events (output_file : string) (tch_kpts stu_kpts : nat)
    (piece : piece_info) (i : nat) : list event :=
  [EvNext Teacher (tch_start piece + i);
   EvNext Student (stu_start piece + i);
   EvSmooth stu_kpts (stu_start piece + i);
   EvSmooth tch_kpts (tch_start piece + i);
   EvDrawScore (Qtrunc (snd (score_after (similarity piece) (S i))));
   EvWrite output_file].

(** ** The smoother, from its specification *)

(** Modelled from the spec: [get_smoothed_kpt] is imported from [utils] but
    its definition is not among the embedded sources.  The specification of
    the Temporal Keypoint Smoother makes it a pure function of
    [(sequence, index, window)] that rejects an index outside
    [0, len(sequence)) and yields a derived frame-shaped value, computed on
    demand and never stored in the sequence: a new (J, 3) array.  The
    numeric smoothing itself is the parameter [smooth]. *)
Definition get_smoothed_kpt_spec
    (smooth : list (list joint) -> nat -> nat -> list joint)
    (h : gmap nat ndarray) (kpts index sigma : nat)
    : result (nat * gmap nat ndarray) :=
  match h !! kpts with
  | Some (Arr3 k) =>
      if Nat.ltb index (length (ka_rows k)) then
        let l := fresh (dom h) in
        Ok (l, <[l := Arr2 (ka_dtype k) (smooth (ka_rows k) index sigma)]> h)
      else Raise IndexError
  | Some (Arr2 _ _) => Raise AssertionError
  | None => Raise RuntimeError
  end.

Definition spec_smoother
    (smooth : list (list joint) -> nat -> nat -> list joint) : Smoother :=
  get_smoothed_kpt_spec smooth.

(** ** The alignment selector, from its specification *)

(** The two ways the selector fails. *)
Inductive alignment_error : Type := EmptySequence | NoFeasibleAlignment.

(** A run along a diagonal of the similarity matrix: its first teacher frame,
    its first student frame and its length. *)
Record segment : Type := mkSeg { sg_tch : nat; sg_stu : nat; sg_len : nat }.

(** Modelled from the spec: [calculate_similarity] (imported from
    [calculate_similarity.py], which is not among the embedded sources) as
    the Frame Similarity Matrix Builder.  The matrix has one row per student
    frame and one column per teacher frame; the metric [sim] on normalised
    poses is the pluggable strategy of the specification. *)
Definition build_matrix {pose : Type} (sim : pose -> pose -> Q)
    (teacher student : list pose) : matrix :=
  map (fun s => map (fun t => sim s t) teacher) student.

(** The similarity values along a segment, in playback order. *)
Definition seg_values (m : matrix) (s : segment) : list Q :=
  map (fun k => nth (sg_tch s + k) (nth (sg_stu s + k) m []) 0) (seq 0 (sg_len s)).

(** The length-normalised cumulative score of a segment. *)
Definition seg_score (m : matrix) (s : segment) : Q :=
  Qsum (seg_values m s) / inject_Z (Z.of_nat (sg_len s)).

(** The absolute value of the offset [student_start - teacher_start]. *)
Definition abs_offset (s : segment) : nat :=
  Nat.max (sg_stu s - sg_tch s) (sg_tch s - sg_stu s).

(** [better m a b]: the selector prefers [a] to [b].  The higher score wins;
    on equal scores the longer segment, then the smaller absolute offset,
    then the earlier start. *)
Definition better (m : matrix) (a b : segment) : bool :=
  match Qcompare (seg_score m a) (seg_score m b) with
  | Gt => true
  | Lt => false
  | Eq =>
      if Nat.ltb (sg_len b) (sg_len a) then true
      else if Nat.ltb (sg_len a) (sg_len b) then false
      else if Nat.ltb (abs_offset a) (abs_offset b) then true
      else if Nat.ltb (abs_offset b) (abs_offset a) then false
      else Nat.ltb (sg_tch a) (sg_tch b)
  end.

(** Every segment of at least [min_len] frames (and at least one) that lies
    within a matrix of [n_stu] rows and [n_tch] columns. *)
Definition candidates (min_len n_stu n_tch : nat) : list segment :=
  flat_map (fun ts =>
    flat_map (fun ss =>
      map (fun len => mkSeg ts ss len)
          (List.filter (fun len => Nat.leb min_len len)
                       (seq 1 (Nat.min (n_tch - ts) (n_stu - ss)))))
      (seq 0 n_stu))
    (seq 0 n_tch).

(** The preferred one of a segment and those that follow it. *)
Definition best_segment (m : matrix) (c : segment) (cs : list segment) : segment :=
  fold_left (fun b c' => if better m c' b then c' else b) cs c.

(** Modelled from the spec: [select_piece_from_similarity] (imported from
    [calculate_similarity.py], which is not among the embedded sources) as
    the Alignment Selector.  Over every feasible constant offset and every
    contiguous run of its diagonal that meets the minimum-length policy
    [min_len], it keeps the run with the best length-normalised cumulative
    similarity, ties broken as [better] says, and returns the start indices,
    the length and the similarity values along the run.  It fails with
    [EmptySequence] when either sequence is empty and with
    [NoFeasibleAlignment] when no run meets the policy. *)
Definition select_piece (min_len : nat) (m : matrix) : alignment_error + piece_info :=
  let n_stu := length m in
  let n_tch := length (hd [] m) in
  if Nat.eqb n_stu 0 || Nat.eqb n_tch 0 then inl EmptySequence
  else
    match candidates min_len n_stu n_tch with
    | [] => inl NoFeasibleAlignment
    | c :: cs =>
        let b := best_segment m c cs in
        inr (mkPiece (sg_tch b) (sg_stu b) (sg_len b) (seg_values m b))
    end.

(** A metric on three poses: 1 for a pose and itself, 0 otherwise. *)
Definition sample_sim (a b : nat) : Q := if Nat.eqb a b then 1 else 0.

(** ** Weakest preconditions

    [wp m Q w]: running [m] in the world [w] ends in a result and a world
    that satisfy [Q]. *)
Definition wp {A : Type} (m : M A) (Q : result A -> World -> Prop) (w : World) : Prop :=
  Q (fst (m w)) (snd (m w)).

(** The postcondition of a call that is followed by [k]. *)
Definition wp_then {A B : Type} (k : A -> M B) (Q : result B -> World -> Prop)
    (r : result A) (w : World) : Prop :=
  match r with
  | Ok a => wp (k a) Q w
  | Raise e => Q (Raise e) w
  end.

(** The trace of [w] is [l0] followed by events that all satisfy [P]. *)
Definition extends_with (P : event -> Prop) (l0 : list event) (w : World) : Prop :=
  exists evs, log w = l0 ++ evs /\ Forall P evs.

(** The calls of the similarity engine in a run, as a function of the arrays
    that the two extractions return. *)
Definition engine_calls `{Collaborators} `{Engine} `{FpsConverter}
    (tch_video stu_video : string) (w : World) : list event :=
  match get_keypoints_from_video tch_video w with
  | (Ok tch_kpts, w1) =>
      match get_keypoints_from_video stu_video w1 with
      | (Ok stu_kpts, w2) =>
          match heap w2 !! tch_kpts, heap w2 !! stu_kpts with
          | Some tch_arr, Some stu_arr =>
              EvSimilarity (calculate_similarity tch_arr stu_arr)
              :: match calculate_similarity tch_arr stu_arr with
                 | Ok m => [EvSelectPiece (select_piece_from_similarity m)]
                 | Raise _ => []
                 end
          | _, _ => []
          end
      | (Raise _, _) => []
      end
  | (Raise _, _) => []
  end.

(** ** The invariant of the rendering loop

    Before iteration [j] of a call made with the heap [h0] and the trace
    [l0]: both readers stand [j] frames behind their start index, the scores
    are those of the first [j] frames, no array of [h0] has changed and the
    trace holds the events of the first [j] iterations. *)
Definition render_inv (output_file : string) (tch_kpts stu_kpts : nat)
    (piece : piece_info) (tch stu : video) (h0 : gmap nat ndarray)
    (l0 : list event) (j : nat) (st : loop_state) (w : World) : Prop :=
  ls_tch st = mkReader Teacher (v_fps tch) (v_frames tch) (tch_start piece + j) /\
  ls_stu st = mkReader Student (v_fps stu) (v_frames stu) (stu_start piece + j) /\
  (ls_score st, ls_last_vis_score st) = score_after (similarity piece) j /\
  h0 ⊆ heap w /\
  log w = l0 ++ flat_map (iteration_events output_file tch_kpts stu_kpts piece) (seq 0 j).

(** The scores drawn so far: before iteration [j], with [d0] the scores that
    were in the trace before the call. *)
Definition score_inv (sims : list Q) (d0 : list Z) (j : nat)
    (st : loop_state) (w : World) : Prop :=
  (ls_score st, ls_last_vis_score st) = score_after sims j /\
  (j <= length sims)%nat /\
  drawn_scores (log w) =
    d0 ++ map (fun i => Qtrunc (snd (score_after sims (S i)))) (seq 0 j).

(** A piece that lies within both videos, both keypoint sequences and the
    similarity curve. *)
Definition piece_fits (piece : piece_info) (tch stu : video)
    (tch_arr stu_arr : kpt_array) : Prop :=
  (tch_start piece + length_ piece <= length (v_frames tch))%nat /\
  (stu_start piece + length_ piece <= length (v_frames stu))%nat /\
  (tch_start piece + length_ piece <= length (ka_rows tch_arr))%nat /\
  (stu_start piece + length_ piece <= length (ka_rows stu_arr))%nat /\
  (length_ piece <= length (similarity piece))%nat.

(** No frame of the video is empty. *)
Definition frames_have_height (v : video) : Prop :=
  Forall (fun f => im_height f <> 0%nat) (v_frames v).

(** ** A small world to run the pipeline in *)

(** Three 1x1 colour frames: a dancer in full view, a blurred shape, an
    empty stage. *)
Definition frame_dancer : image := mkImage (1, 1, 3)%nat (U8 [200; 10; 10]%Z).
Definition frame_blur : image := mkImage (1, 1, 3)%nat (U8 [30; 10; 10]%Z).
Definition frame_empty : image := mkImage (1, 1, 3)%nat (U8 [0; 0; 0]%Z).

(** A detector that reports one box, scored by the first pixel, on every
    frame that is not black. *)
Definition sample_detector (img : image) : list (bbox * Q) :=
  match im_data img with
  | U8 (z :: _) =>
      if (z <? 10)%Z then [] else [((0, 0, 1, 1), inject_Z z / 255)]
  | _ => []
  end.

(** A pose model that puts every joint at (3, 4) with the score of the box. *)
Definition sample_pose (img : image) (b : list bbox) (s : list Q) : pred_instances :=
  mkPred float32 [repeat (3, 4) 17] float32 [repeat (hd 0 s) 17].

Lemma sample_pose_coco (img : image) (b : list bbox) (s : list Q) :
  coco_prediction (sample_pose img b s).
Proof.
  split; [reflexivity |]. split; [reflexivity |].
  exists (repeat (3, 4) 17), (repeat (hd 0 s) 17). now repeat split.
Qed.

Definition sample_collaborators : Collaborators := {|
  detector := sample_detector;
  pose_predict := sample_pose;
  pose_predict_coco := sample_pose_coco;
  bgr2rgb := fun img => img;
  bgr2rgb_shape := fun img => eq_refl;
  rgb2bgr := fun img => img;
  cv2_resize := fun img size => mkImage (Z.to_nat (snd size), Z.to_nat (fst size), 3%nat) (im_data img);
  np_hstack := fun imgs => hd frame_empty imgs;
  draw_instances_kpts := fun img a => frame_empty;
  draw_texts := fun img text pos size => img;
  mkdtemp := fun fsys => "/tmp/tmp0"
|}.

(** A converter that writes the frames to [<name>_30fps.mp4] at 30 fps,
    unless a file of that name is there already. *)
Definition sample_converter : FpsConverter :=
  fun video fsys =>
    let out := rsplit_dot_head video +:+ "_30fps.mp4" in
    (out, match fsys !! out, fsys !! video with
          | None, Some (VideoFile v) =>
              <[out := VideoFile (mkVideo 30 (v_frames v))]> fsys
          | _, _ => fsys
          end).

(** A smoothing that returns the frame itself. *)
Definition sample_smooth (rows : list (list joint)) (index sigma : nat) : list joint :=
  nth index rows [].

(** A teacher video at 30 fps, a student video at 25 fps, a clip without
    frames, and a 25 fps video beside a left-over [_30fps] file that is at
    24 fps; nothing cached, no inferencer built. *)
Definition sample_fs : gmap string file :=
  <["teacher.mp4" := VideoFile (mkVideo 30 [frame_dancer; frame_blur; frame_empty])]>
  (<["student.mp4" := VideoFile (mkVideo 25 [frame_blur; frame_dancer])]>
  (<["void.mp4" := VideoFile (mkVideo 30 [])]>
  (<["stale.mp4" := VideoFile (mkVideo 25 [frame_dancer])]>
  (<["stale_30fps.mp4" := VideoFile (mkVideo 24 [frame_dancer])]> ∅)))).

Definition sample_world : World := mkWorld sample_fs ∅ None 0 [].

(** The keypoints of the teacher (three frames) and of the student (two
    frames) as array objects 0 and 1, and a piece that pairs the frames 1..2
    of the teacher with the frames 0..1 of the student. *)
Definition sample_row (x : Q) : list joint := repeat (mkJoint x x 1) 17.

Definition sample_heap : gmap nat ndarray :=
  <[0%nat := Arr3 (mkKpts float32 [sample_row 1; sample_row 2; sample_row 3])]>
  (<[1%nat := Arr3 (mkKpts float32 [sample_row 2; sample_row 3])]> ∅).

Definition sample_render_world : World := set_heap sample_heap sample_world.

Definition sample_piece : piece_info := mkPiece 1 0 2 [0.8; 0.9].

(** An engine that answers every pair of sequences with the same matrix
    and every matrix with the sample piece. *)
Definition sample_engine : Engine := {|
  calculate_similarity := fun _ _ => Ok [[0.8; 0.1]; [0.2; 0.9]];
  select_piece_from_similarity := fun _ => Ok sample_piece
|}.

(** A float image of the shape of the frames, with entries outside [0, 1]. *)
Definition sample_overlay : image := mkImage (1, 1, 3)%nat (F64 [0.5; 2; -3]).

Definition sample_teacher : video :=
  mkVideo 30 [frame_dancer; frame_blur; frame_empty].

Definition sample_student : video := mkVideo 25 [frame_blur; frame_dancer].

(** ** Strings, once more: the characters of a path *)

Definition chars (s : string) : list Ascii.ascii := String.list_ascii_of_string s.

Definition is_sep (c : Ascii.ascii) : bool := Ascii.eqb c "/"%char.

(** [s.rstrip('/')], on the reversed text. *)
Fixpoint drop_seps (l : list Ascii.ascii) : list Ascii.ascii :=
  match l with
  | [] => []
  | c :: r => if is_sep c then drop_seps r else l
  end.

(** [os.path.dirname(p)] of [posixpath]: the text up to and with the last
    slash, without its trailing slashes unless it is made of slashes only. *)
Definition dirname (p : string) : string :=
  match cut_at "/"%char (rev (chars p)) with
  | None => ""
  | Some (_, before) =>
      let head := "/"%char :: before in
      String.string_of_list_ascii
        (rev (if forallb is_sep head then head else drop_seps head))
  end.

(** [s.rsplit(os.sep, 1)[0]]. *)
Definition rsplit_sep_head (s : string) : string :=
  match cut_at "/"%char (rev (chars s)) with
  | Some (_, before) => String.string_of_list_ascii (rev before)
  | None => s
  end.

Definition startswith_sep (s : string) : bool :=
  match s with
  | String c _ => is_sep c
  | EmptyString => false
  end.

Definition endswith_sep (s : string) : bool :=
  match rev (chars s) with
  | c :: _ => is_sep c
  | [] => false
  end.

(** [os.path.join(a, b)] of [posixpath]. *)
Definition os_path_join (a b : string) : string :=
  if startswith_sep b then b
  else if String.eqb a "" || endswith_sep a then a +:+ b
  else a +:+ "/" +:+ b.

(** ** process_video.py: the paths of the configuration files *)

(** [os.path.dirname(os.path.abspath(__file__)).rsplit(os.sep, 1)[0]], with
    [module_file] for [os.path.abspath(__file__)]. *)
Definition project_dir (module_file : string) : string :=
  rsplit_sep_head (dirname module_file).

Definition pose_config (module_file : string) : string :=
  os_path_join (project_dir module_file)
    "configs/rtmpose-t_8xb256-420e_coco-256x192.py".

Definition det_config (module_file : string) : string :=
  os_path_join (project_dir module_file)
    "configs/rtmdet_nano_320-8xb32_coco-person.py".

(** The [metainfo_file] of the property [visualizer]. *)
Definition metainfo_file (module_file : string) : string :=
  os_path_join (project_dir module_file) "configs/_base_/datasets/coco.py".

(** ** process_video.py: the property [visualizer] *)

(** The path of the module and [parse_pose_metainfo] of mmpose, which reads
    the description of a dataset from a configuration file. *)
Class PoseMeta : Type := {
  module_file : string;
  metainfo : Type;
  parse_pose_metainfo : string -> result metainfo
}.

(** The visualizer that the property answers with: a [PoseLocalVisualizer]
    that the instance built itself, or the one of its inferencer. *)
Inductive visualizer_ref : Type :=
  | OwnVisualizer (v : nat)
  | InferencerVisualizer (p : nat).

(** A [VideoProcessor] with the attribute [self._visualizer], the number of
    visualizers constructed so far and the dataset description that
    [set_dataset_meta] gave to each; the attribute [self._pose_estimator] is
    the one of the world. *)
Record Processor `{PoseMeta} : Type := mkProcessor {
  pr_world : World;
  self_visualizer : option nat;
  visualizers_built : nat;
  dataset_meta : gmap nat metainfo
}.
Arguments mkProcessor {_} _ _ _ _.

Definition visualizer `{PoseMeta} (pr : Processor) : result visualizer_ref * Processor :=
  match self_visualizer pr with
  | Some v => (Ok (OwnVisualizer v), pr)
  | None =>
      match self_pose_estimator (pr_world pr) with
      | Some p => (Ok (InferencerVisualizer p), pr)
      | None =>
          (* init visualizer *)
          let v := visualizers_built pr in
          let pr := mkProcessor (pr_world pr) (Some v) (S v) (dataset_meta pr) in
          match parse_pose_metainfo (metainfo_file module_file) with
          | Ok m =>
              (Ok (OwnVisualizer v),
               mkProcessor (pr_world pr) (self_visualizer pr) (visualizers_built pr)
                           (<[v := m]> (dataset_meta pr)))
          | Raise e => (Raise e, pr)
          end
      end
  end.

(** A call of the pipeline on the processor. *)
Definition in_world `{PoseMeta} {A : Type} (m : M A) (pr : Processor)
    : result A * Processor :=
  (fst (m (pr_world pr)),
   mkProcessor (snd (m (pr_world pr))) (self_visualizer pr) (visualizers_built pr)
               (dataset_meta pr)).

(** [n] successive reads of the property [visualizer]. *)
Fixpoint access_visualizer `{PoseMeta} (n : nat) (pr : Processor)
    : result (list visualizer_ref) * Processor :=
  match n with
  | O => (Ok [], pr)
  | S n' =>
      match visualizer pr with
      | (Ok v, pr1) =>
          match access_visualizer n' pr1 with
          | (Ok vs, pr2) => (Ok (v :: vs), pr2)
          | (Raise e, pr2) => (Raise e, pr2)
          end
      | (Raise e, pr1) => (Raise e, pr1)
      end
  end.

(** A processor as [VideoProcessor()] returns it: no attribute is set. *)
Definition fresh_processor `{PoseMeta} (pr : Processor) : Prop :=
  self_visualizer pr = None /\ self_pose_estimator (pr_world pr) = None.

(** ** app.py: [process_video] *)

(** [VideoProcessor()]: a new instance, without a pose estimator. *)
Definition VideoProcessor : M unit :=
  fun w => (Ok tt, mkWorld (fs w) (heap w) None (inferencers_built w) (log w)).

(** What [print] shows of an optional path. *)
Definition py_str (v : option string) : string :=
  match v with
  | Some s => s
  | None => "None"
  end.

(** The two lines that [process_video] prints before anything else. *)
Definition process_video_prints (teacher_video student_video : option string)
    : list string :=
  [py_str teacher_video; py_str student_video].

(** [process_video(teacher_video, student_video)].  Standard output is not
    part of the world: the lines printed are [process_video_prints]. *)
Definition process_video `{Collaborators} `{Engine} `{Smoother} `{FpsConverter}
    (teacher_video student_video : option string) : M (option string) :=
  VideoProcessor ;;;
  match student_video, teacher_video with
  | None, Some teacher_video =>
      _ <- get_keypoints_from_video teacher_video ;;
      ret (Some teacher_video)
  | Some student_video, None =>
      _ <- get_keypoints_from_video student_video ;;
      ret (Some student_video)
  | None, None => ret None
  | Some student_video, Some teacher_video =>
      f <- run teacher_video student_video ;;
      ret (Some f)
  end.

(** ** Reading a trace, once more *)

(** The inferencer that the instance holds once the property
    [pose_estimator] has been read in the world [w]. *)
Definition estimator_after (w : World) : nat :=
  match self_pose_estimator w with
  | Some p => p
  | None => inferencers_built w
  end.

(** The inferencers that a first read of [pose_estimator] constructs. *)
Definition estimators_to_build (w : World) : nat :=
  match self_pose_estimator w with
  | Some _ => 0
  | None => 1
  end.

(** The inferencer from [w] to [w']: the trace grew by [evs]; an inferencer
    was built if the instance had none and a frame went through the pose
    extraction, and the instance holds it from then on. *)
Definition estimator_step (w w' : World) : Prop :=
  exists evs : list event,
    log w' = log w ++ evs /\
    inferencers_built w' =
      (inferencers_built w +
       match self_pose_estimator w, pose_indices evs with
       | None, _ :: _ => 1
       | _, _ => 0
       end)%nat /\
    self_pose_estimator w' =
      match pose_indices evs with
      | [] => self_pose_estimator w
      | _ :: _ => Some (estimator_after w)
      end.

(** The files to which a trace writes a frame, write after write. *)
Definition writes (evs : list event) : list string :=
  flat_map (fun e => match e with EvWrite p => [p] | _ => [] end) evs.

(** The file system after [frames] went through the writer of
    [output_file], opened on the file system [fs0]: no file before the first
    frame, a 30 fps video of the frames from then on. *)
Definition written_fs (output_file : string) (fs0 : gmap string file)
    (frames : list image) : gmap string file :=
  match frames with
  | [] => fs0
  | _ :: _ => <[output_file := VideoFile (mkVideo 30 frames)]> fs0
  end.

(** The output after [j] frames of a call made on the file system [fs0] with
    the trace [l0], as the file system [f] and the trace [l] show it. *)
Definition output_state (output_file : string) (fs0 : gmap string file)
    (l0 : list event) (j : nat) (f : gmap string file) (l : list event) : Prop :=
  writes l = writes l0 ++ repeat output_file j /\
  exists frames, length frames = j /\ f = written_fs output_file fs0 frames.

(** The output before iteration [j] of the rendering loop. *)
Definition output_inv (output_file : string) (fs0 : gmap string file)
    (l0 : list event) (j : nat) (st : loop_state) (w : World) : Prop :=
  ls_writer st = negb (Nat.eqb j 0) /\
  output_state output_file fs0 l0 j (fs w) (log w).

(** The events of the rendering of [tch_video] and [stu_video]: opening
    these two files, reading frames, smoothing, drawing the score, writing a
    frame. *)
Definition is_render_event (tch_video stu_video : string) (e : event) : bool :=
  match e with
  | EvVideoReader Teacher p => String.eqb p tch_video
  | EvVideoReader Student p => String.eqb p stu_video
  | EvNext _ _ | EvSmooth _ _ | EvDrawScore _ | EvWrite _ => true
  | _ => false
  end.

(** The events of the keypoint extraction: opening and converting the
    source video, the pose extraction, building the inferencer, loading and
    saving the cache. *)
Definition is_extraction_event (e : event) : bool :=
  match e with
  | EvVideoReader Source _ | EvConvertFps _ | EvPose _ | EvBuildInferencer _
  | EvTorchLoad _ | EvTorchSave _ => true
  | _ => false
  end.

(** The trace of [w'] is the trace [l0] followed by events of the rendering,
    and the instance holds the inferencer it held in [w]. *)
Definition rendering_only (tch_video stu_video : string)
    (l0 : list event) (w w' : World) : Prop :=
  extends_with (fun e => is_render_event tch_video stu_video e = true) l0 w' /\
  self_pose_estimator w' = self_pose_estimator w /\
  inferencers_built w' = inferencers_built w.

(** ** The small world, once more *)

(** A metainfo parser that answers with the path it was given, and one that
    does not find the file. *)
Definition sample_meta : PoseMeta := {|
  module_file := "/opt/just_dance/just_dance/process_video.py";
  metainfo := string;
  parse_pose_metainfo := fun path => Ok path
|}.

Definition broken_meta : PoseMeta := {|
  module_file := "/opt/just_dance/just_dance/process_video.py";
  metainfo := unit;
  parse_pose_metainfo := fun _ => Raise FileNotFoundError
|}.

(** A processor fresh from its constructor, in the sample world. *)
Definition sample_processor (P : PoseMeta) : @Processor P :=
  mkProcessor sample_world None 0 ∅.

(** The sample world once both videos went through a run. *)
Definition sample_cached_world : World :=
  snd (@run sample_collaborators sample_engine (spec_smoother sample_smooth)
         sample_converter "teacher.mp4" "student.mp4" sample_world).

(* ===================================================================== *)
(** * Part II. Properties                                                 *)
(* ===================================================================== *)

(** ** Numbers *)

Lemma Qltb_lt (a b : Q) : Qltb a b = true <-> a < b.
Proof.
  unfold Qltb. rewrite negb_true_iff.
  destruct (Qle_bool b a) eqn:E.
  - apply Qle_bool_iff in E. split; [discriminate | lra].
  - split; [intros _ | reflexivity].
    destruct (Qlt_le_dec a b) as [H | H]; [exact H |].
    apply Qle_bool_iff in H. congruence.
Qed.

Lemma Qtrunc_range (q : Q) (n : Z) :
  0 <= q -> q <= inject_Z n -> (0 <= Qtrunc q <= n)%Z.
Proof.
  destruct q as [a d]. unfold Qle, Qtrunc, inject_Z. simpl.
  intros H0 Hn. split.
  - apply Z.quot_pos; lia.
  - apply Z.quot_le_upper_bound; lia.
Qed.

Lemma clip01_range (v : Q) : 0 <= clip01 v /\ clip01 v <= 1.
Proof.
  unfold clip01. split.
  - apply Q.min_glb; [apply Q.le_max_r | lra].
  - apply Q.le_min_r.
Qed.

Lemma to_uint8_clip (v : Q) :
  to_uint8 (clip01 v * 255) = Qtrunc (clip01 v * 255) /\
  (0 <= to_uint8 (clip01 v * 255) <= 255)%Z.
Proof.
  destruct (clip01_range v) as [H0 H1].
  assert (R : (0 <= Qtrunc (clip01 v * 255) <= 255)%Z).
  { apply Qtrunc_range; [nra |]. change (inject_Z 255) with 255. nra. }
  unfold to_uint8. rewrite Z.mod_small by lia. split; [reflexivity | exact R].
Qed.

(** ** utils.py: [blend_images] *)

(** The values of an image once [normalize_image] has rescaled uint8 data. *)
Lemma normalize_image_values (p : pixels) :
  px_values (normalize_image p) =
  match p with
  | U8 l => map (fun z => inject_Z z / 255) l
  | F32 l | F64 l => l
  end.
Proof. destruct p; reflexivity. Qed.

Lemma normalize_image_length (p : pixels) :
  length (px_values (normalize_image p)) = px_length p.
Proof. destruct p; simpl; now rewrite ?length_map. Qed.

Lemma px_scale_values (p : pixels) (r : Q) :
  px_values (px_scale p r) = map (fun v => v * r) (px_values p).
Proof. destruct p; simpl; [now rewrite map_map | reflexivity | reflexivity]. Qed.

Lemma px_add_values (a b : pixels) :
  px_values (px_add a b) =
  map (fun ab => fst ab + snd ab) (combine (px_values a) (px_values b)).
Proof. destruct a, b; reflexivity. Qed.

Lemma px_add_not_U8 (a b : pixels) : forall l, px_add a b <> U8 l.
Proof. destruct a, b; discriminate. Qed.

Lemma px_clip_values (p : pixels) :
  (forall l, p <> U8 l) -> px_values (px_clip p) = map clip01 (px_values p).
Proof. destruct p; simpl; [intros H; now destruct (H px) | reflexivity | reflexivity]. Qed.

Lemma combine_map_scaled (r0 r1 : Q) (l1 l2 : list Q) :
  map (fun ab => fst ab + snd ab)
      (combine (map (fun v => v * r0) l1) (map (fun v => v * r1) l2)) =
  map (fun ab => fst ab * r0 + snd ab * r1) (combine l1 l2).
Proof.
  revert l2. induction l1 as [| a l1 IH]; intros [| b l2]; simpl; try reflexivity.
  now rewrite IH.
Qed.

(** What [blend_images] computes, entry by entry. *)
Lemma blend_images_data (img1 img2 : image) (r : Q * Q) :
  im_data (blend_images img1 img2 r) =
  U8 (map (fun ab => to_uint8 (blend_value (fst ab) (snd ab) r))
          (combine (px_values (normalize_image (im_data img1)))
                   (px_values (normalize_image (im_data img2))))).
Proof.
  unfold blend_images, px_to_uint8, blend_value. simpl. f_equal.
  rewrite px_clip_values by apply px_add_not_U8.
  rewrite px_add_values, !px_scale_values, combine_map_scaled.
  now rewrite !map_map.
Qed.


(** ** The monad *)

Lemma bind_ok {A B : Type} (m : M A) (k : A -> M B) (w w' : World) (a : A) :
  m w = (Ok a, w') -> bind m k w = k a w'.
Proof. intros E. unfold bind. now rewrite E. Qed.

Lemma bind_raise {A B : Type} (m : M A) (k : A -> M B) (w w' : World) (e : exn) :
  m w = (Raise e, w') -> bind m k w = (Raise e, w').
Proof. intros E. unfold bind. now rewrite E. Qed.

(** ** The property [pose_estimator] *)

Lemma pose_estimator_set (w : World) (p : nat) :
  self_pose_estimator w = Some p -> pose_estimator w = (Ok p, w).
Proof. intros E. unfold pose_estimator. now rewrite E. Qed.

Lemma pose_estimator_value (w : World) :
  exists p, pose_estimator w = (Ok p, snd (pose_estimator w)) /\
            self_pose_estimator (snd (pose_estimator w)) = Some p.
Proof.
  unfold pose_estimator. destruct (self_pose_estimator w) as [p |] eqn:E.
  - exists p. now split.
  - exists (inferencers_built w). now split.
Qed.

Lemma access_pose_estimator_set (n : nat) (w : World) (p : nat) :
  self_pose_estimator w = Some p ->
  access_pose_estimator n w = (Ok (repeat p n), w).
Proof.
  intros Hp. induction n as [| n IH]; [reflexivity |].
  cbn [access_pose_estimator]. unfold bind.
  now rewrite (pose_estimator_set w p Hp), IH.
Qed.

(** C8.  The property [pose_estimator] builds the [Pose2DInferencer] at most
    once: whatever the state of the instance, any number of successive reads
    return one and the same object, leave the instance in the state the
    first read left it in (reading twice is reading once), and construct one
    inferencer when none was cached and none otherwise. *)
Theorem pose_estimator_built_once (w : World) (n : nat) :
  exists p : nat,
    access_pose_estimator (S n) w = (Ok (repeat p (S n)), snd (pose_estimator w)) /\
    self_pose_estimator (snd (pose_estimator w)) = Some p /\
    inferencers_built (snd (pose_estimator w)) =
      (inferencers_built w +
       match self_pose_estimator w with Some _ => 0 | None => 1 end)%nat.
Proof.
  destruct (pose_estimator_value w) as [p [E Hp]]. exists p.
  split; [| split; [exact Hp |]].
  - cbn [access_pose_estimator]. unfold bind at 1. rewrite E.
    unfold bind. now rewrite (access_pose_estimator_set n _ p Hp).
  - unfold pose_estimator. destruct (self_pose_estimator w); simpl; lia.
Qed.

(** ** [get_keypoints_from_frame] *)

(** The value of [get_keypoints_from_frame] is [frame_keypoints]; its only
    effect is the first read of the property [pose_estimator]. *)
Lemma get_keypoints_from_frame_value `{Collaborators} (img : image) (w : World) :
  get_keypoints_from_frame img w = (Ok (frame_keypoints img), snd (pose_estimator w)).
Proof.
  destruct (pose_estimator_value w) as [p [E _]].
  unfold get_keypoints_from_frame, frame_keypoints, bind. rewrite E.
  destruct (detector img) as [| [b s] rest] eqn:D; [reflexivity |].
  cbn [length Nat.eqb map firstn fst snd below_threshold].
  now destruct (Qltb s 0.2).
Qed.

Lemma zeros_shape : ka_dtype zeros_1_17_3 = float32 /\ has_shape zeros_1_17_3 1 17.
Proof. split; [reflexivity |]. split; [reflexivity |]. now repeat constructor. Qed.

Lemma concatenate_scores_coco (p : pred_instances) :
  coco_prediction p ->
  ka_dtype (concatenate_scores p) = float32 /\
  has_shape (concatenate_scores p) 1 17 /\
  exists kp sc,
    keypoints p = [kp] /\ keypoint_scores p = [sc] /\
    ka_rows (concatenate_scores p) =
      [map (fun xs => mkJoint (fst (fst xs)) (snd (fst xs)) (snd xs)) (combine kp sc)].
Proof.
  intros [Hk [Hs [kp [sc [Ek [Es [Lk Ls]]]]]]].
  unfold concatenate_scores, has_shape. rewrite Hk, Hs, Ek, Es. simpl.
  repeat split.
  - constructor; [| constructor].
    rewrite length_map, length_combine. lia.
  - now exists kp, sc.
Qed.

Lemma frame_keypoints_shape `{Collaborators} (img : image) :
  ka_dtype (frame_keypoints img) = float32 /\ has_shape (frame_keypoints img) 1 17.
Proof.
  unfold frame_keypoints. destruct (detector img) as [| [b s] rest].
  - apply zeros_shape.
  - destruct (Qltb s 0.2); [apply zeros_shape |].
    destruct (concatenate_scores_coco _ (pose_predict_coco img [b] [s])) as [? [? _]].
    now split.
Qed.

(** C2.  For every frame, [get_keypoints_from_frame] returns a float32 array
    of shape (1, 17, 3).  When the detector reports no person, or when the
    score of its first (most prominent) box is below 0.2, every entry of the
    array is zero; otherwise the array holds, joint by joint, the keypoints
    and the keypoint scores that the pose model predicts for that first box
    alone. *)
Theorem get_keypoints_from_frame_fixed_size `{Collaborators} (img : image) (w : World) :
  exists a : kpt_array,
    get_keypoints_from_frame img w = (Ok a, snd (pose_estimator w)) /\
    ka_dtype a = float32 /\ has_shape a 1 17 /\
    match detector img with
    | [] => a = mkKpts float32 [repeat (mkJoint 0 0 0) 17]
    | (b, s) :: _ =>
        (s < 0.2 -> a = mkKpts float32 [repeat (mkJoint 0 0 0) 17]) /\
        (~ s < 0.2 ->
         exists kp sc,
           keypoints (pose_predict img [b] [s]) = [kp] /\
           keypoint_scores (pose_predict img [b] [s]) = [sc] /\
           length kp = 17%nat /\ length sc = 17%nat /\
           a = mkKpts float32
                 [map (fun xs => mkJoint (fst (fst xs)) (snd (fst xs)) (snd xs))
                      (combine kp sc)])
    end.
Proof.
  exists (frame_keypoints img).
  split; [apply get_keypoints_from_frame_value |].
  destruct (frame_keypoints_shape img) as [Hd Hs].
  split; [exact Hd |]. split; [exact Hs |].
  unfold frame_keypoints in *.
  destruct (detector img) as [| [b s] rest]; [reflexivity |].
  destruct (Qltb s 0.2) eqn:E.
  - apply Qltb_lt in E. split; [reflexivity | tauto].
  - split.
    + intros Hlt. apply Qltb_lt in Hlt. congruence.
    + intros _.
      destruct (pose_predict_coco img [b] [s]) as [Hk [Hsc [kp [sc [Ek [Es [Lk Ls]]]]]]].
      exists kp, sc. repeat split; try assumption.
      unfold concatenate_scores. now rewrite Hk, Hsc, Ek, Es.
Qed.

(** ** [get_keypoints_from_video] *)

Lemma pose_estimator_world (w : World) :
  fs (snd (pose_estimator w)) = fs w /\
  heap (snd (pose_estimator w)) = heap w /\
  exists evs, log (snd (pose_estimator w)) = log w ++ evs /\
              pose_indices evs = [] /\
              Forall (fun e => is_io_event e = false) evs.
Proof.
  unfold pose_estimator. destruct (self_pose_estimator w); simpl.
  - repeat split. exists []. rewrite app_nil_r. now repeat split.
  - repeat split. eexists. split; [reflexivity |]. now repeat constructor.
Qed.

Lemma pose_indices_app (a b : list event) :
  pose_indices (a ++ b) = pose_indices a ++ pose_indices b.
Proof. unfold pose_indices. apply flat_map_app. Qed.

(** The extraction loop never raises; it touches neither the file system nor
    the heap and runs the pose extraction once per frame, in order. *)
Lemma extract_frames_value `{Collaborators} (frames : list image) :
  forall (i : nat) (w : World),
  exists w' evs,
    extract_frames i frames w = (Ok (map frame_keypoints frames), w') /\
    fs w' = fs w /\ heap w' = heap w /\
    log w' = log w ++ evs /\
    pose_indices evs = seq i (length frames) /\
    Forall (fun e => is_io_event e = false) evs.
Proof.
  induction frames as [| f rest IH]; intros i w.
  - exists w, []. simpl. rewrite app_nil_r. now repeat split.
  - cbn [extract_frames]. unfold bind at 1. unfold emit.
    unfold bind at 1. rewrite get_keypoints_from_frame_value.
    destruct (pose_estimator_world (add_log (EvPose i) w))
      as [Hf [Hh [e1 [Hl [Hp1 Hio1]]]]].
    destruct (IH (S i) (snd (pose_estimator (add_log (EvPose i) w))))
      as [w' [e2 [E [Hf' [Hh' [Hl' [Hp2 Hio2]]]]]]].
    exists w', (EvPose i :: e1 ++ e2).
    unfold bind. rewrite E. split; [reflexivity |].
    split; [now rewrite Hf', Hf |]. split; [now rewrite Hh', Hh |].
    split; [| split].
    + rewrite Hl', Hl. simpl. now rewrite <- !app_assoc.
    + change (EvPose i :: e1 ++ e2) with ([EvPose i] ++ e1 ++ e2).
      rewrite !pose_indices_app, Hp1, Hp2. reflexivity.
    + constructor; [reflexivity |]. now apply Forall_app.
Qed.

Lemma fold_promote_float32 (l : list fdtype) :
  Forall (fun d => d = float32) l -> fold_left promote l float32 = float32.
Proof. induction 1 as [| d l -> _ IH]; [reflexivity | exact IH]. Qed.

Lemma frame_rows_17 `{Collaborators} (frames : list image) :
  Forall (fun r => length r = 17%nat)
         (concat (map (fun f => ka_rows (frame_keypoints f)) frames)).
Proof.
  induction frames as [| f rest IH]; [constructor |].
  simpl. apply Forall_app. split; [| exact IH].
  apply (frame_keypoints_shape f).
Qed.

(** Concatenating the arrays of the frames of a video that has at least one
    frame. *)
Lemma np_concatenate_frames `{Collaborators} (frames : list image) :
  frames <> [] ->
  np_concatenate (map frame_keypoints frames) = Ok (video_keypoints frames).
Proof.
  destruct frames as [| f rest]; [congruence | intros _].
  unfold np_concatenate, video_keypoints. cbn [map].
  rewrite (proj1 (frame_keypoints_shape f)).
  rewrite fold_promote_float32.
  2:{ apply List.Forall_forall. intros d Hd. apply in_map_iff in Hd.
      destruct Hd as [a [<- Ha]]. apply in_map_iff in Ha.
      destruct Ha as [g [<- _]]. apply (frame_keypoints_shape g). }
  change (ka_rows (frame_keypoints f) :: map ka_rows (map frame_keypoints rest))
    with (map ka_rows (map frame_keypoints (f :: rest))).
  rewrite map_map.
  pose proof (frame_rows_17 (f :: rest)) as H17.
  destruct (concat _) as [| r rows] eqn:E; [reflexivity |].
  assert (Hall : forallb (fun r' => Nat.eqb (length r') (length r)) (r :: rows) = true).
  { apply forallb_forall. intros r' Hr'. apply Nat.eqb_eq.
    rewrite List.Forall_forall in H17.
    rewrite (H17 r') by exact Hr'. rewrite (H17 r) by now left. reflexivity. }
  now rewrite Hall.
Qed.

Lemma path_exists_value (path : string) (w : World) :
  path_exists path w = (Ok (bool_decide (is_Some (fs w !! path))), w).
Proof. reflexivity. Qed.

(** A world with a keypoint cache: the call only loads it. *)
Lemma get_keypoints_from_video_hit `{Collaborators} `{FpsConverter}
    (video : string) (w : World) (k : kpt_array) :
  fs w !! kpts_path video = Some (TorchFile k) ->
  get_keypoints_from_video video w =
    (Ok (fresh (dom (heap w))),
     set_heap (<[fresh (dom (heap w)) := Arr3 k]> (heap w))
              (add_log (EvTorchLoad (kpts_path video)) w)).
Proof.
  intros E. unfold get_keypoints_from_video, bind.
  rewrite path_exists_value, E.
  rewrite bool_decide_eq_true_2 by (now eexists).
  unfold torch_load. rewrite E. reflexivity.
Qed.

(** The second half of [get_keypoints_from_video]: extraction, caching. *)
Local Abbreviation extract_then_save frames cache :=
  (keypoints_list <- extract_frames 0 frames ;;
   keypoints <- lift (np_concatenate keypoints_list) ;;
   l <- alloc (Arr3 keypoints) ;;
   torch_save keypoints cache ;;;
   ret l).

(** What the call does once it holds the reader to extract from. *)
Lemma extract_and_save `{Collaborators}
    (frames : list image) (cache : string) (w : World) :
  frames <> [] ->
  exists w' evs,
    extract_then_save frames cache w = (Ok (fresh (dom (heap w))), w') /\
    heap w' = <[fresh (dom (heap w)) := Arr3 (video_keypoints frames)]> (heap w) /\
    fs w' = <[cache := TorchFile (video_keypoints frames)]> (fs w) /\
    log w' = log w ++ evs ++ [EvTorchSave cache] /\
    pose_indices evs = seq 0 (length frames) /\
    Forall (fun e => is_io_event e = false) evs.
Proof.
  intros Hne.
  destruct (extract_frames_value frames 0 w) as [w1 [evs [E [Hf [Hh [Hl [Hp Hio]]]]]]].
  eexists. exists evs. unfold bind at 1. rewrite E.
  unfold bind at 1. unfold lift at 1. rewrite (np_concatenate_frames frames Hne).
  unfold bind, alloc, torch_save, ret. cbn [fst snd].
  rewrite Hh. split; [reflexivity |].
  cbn [heap fs log set_heap set_fs add_log]. rewrite Hf, Hl, <- app_assoc.
  now repeat split.
Qed.

(** A video without frames: the extraction has nothing to concatenate. *)
Lemma extract_nothing `{Collaborators} (cache : string) (w : World) :
  extract_then_save [] cache w = (Raise ValueError, w).
Proof. reflexivity. Qed.

(** The trace of the extraction, for any number of frames. *)
Lemma extract_and_save_trace `{Collaborators}
    (frames : list image) (cache : string) (w : World) :
  exists r w' evs,
    extract_then_save frames cache w = (r, w') /\
    log w' = log w ++ evs /\
    pose_indices evs = seq 0 (length frames) /\
    Forall (fun e => forall p, e <> EvConvertFps p) evs.
Proof.
  destruct frames as [| f rest].
  - exists (Raise ValueError), w, []. rewrite extract_nothing, app_nil_r.
    now repeat split.
  - destruct (extract_and_save (f :: rest) cache w) as [w' [evs [E [_ [_ [Hl [Hp Hio]]]]]]];
      [congruence |].
    exists (Ok (fresh (dom (heap w)))), w', (evs ++ [EvTorchSave cache]).
    split; [exact E |]. split; [exact Hl |]. split.
    + now rewrite pose_indices_app, Hp, app_nil_r.
    + apply Forall_app. split; [| now repeat constructor].
      eapply Forall_impl; [exact Hio |]. intros e He p ->. discriminate.
Qed.

(** One step of a sequence of calls whose first call returns. *)
Ltac bind_step E := rewrite (bind_ok _ _ _ _ _ E); cbv beta.

Lemma VideoReader_value (who : role) (path : string) (w : World) (f : file) :
  fs w !! path = Some f ->
  VideoReader who path w = (Ok (file_reader who f), add_log (EvVideoReader who path) w).
Proof. intros E. unfold VideoReader. now rewrite E. Qed.

Lemma VideoReader_missing (who : role) (path : string) (w : World) :
  fs w !! path = None -> VideoReader who path w = (Raise FileNotFoundError, w).
Proof. intros E. unfold VideoReader. now rewrite E. Qed.

(** The five ways a call without a cache can go. *)
Lemma get_keypoints_from_video_no_video `{Collaborators} `{FpsConverter}
    (video : string) (w : World) :
  fs w !! kpts_path video = None -> fs w !! video = None ->
  get_keypoints_from_video video w = (Raise FileNotFoundError, w).
Proof.
  intros Hc Ef. unfold get_keypoints_from_video.
  bind_step (path_exists_value (kpts_path video) w). rewrite Hc.
  rewrite bool_decide_eq_false_2 by (intros [x Hx]; discriminate).
  now rewrite (bind_raise _ _ _ _ _ (VideoReader_missing Source video w Ef)).
Qed.

Lemma get_keypoints_from_video_at_30 `{Collaborators} `{FpsConverter}
    (video : string) (w : World) (f : file) :
  fs w !! kpts_path video = None -> fs w !! video = Some f ->
  fps_is_30 (file_reader Source f) = true ->
  get_keypoints_from_video video w =
    extract_then_save (rd_frames (file_reader Source f)) (kpts_path video)
      (add_log (EvVideoReader Source video) w).
Proof.
  intros Hc Ef E30. unfold get_keypoints_from_video.
  bind_step (path_exists_value (kpts_path video) w). rewrite Hc.
  rewrite bool_decide_eq_false_2 by (intros [x Hx]; discriminate).
  bind_step (VideoReader_value Source video w f Ef). rewrite E30.
  unfold bind at 1, ret at 1. now rewrite E30.
Qed.

Lemma get_keypoints_from_video_converted `{Collaborators} `{FpsConverter}
    (video : string) (w : World) (f : file) (p : string) (f' : gmap string file) :
  fs w !! kpts_path video = None -> fs w !! video = Some f ->
  fps_is_30 (file_reader Source f) = false ->
  convert_video_fps video (fs w) = (p, f') ->
  get_keypoints_from_video video w =
    match f' !! p with
    | None => (Raise FileNotFoundError, converted_world video f' w)
    | Some g =>
        if fps_is_30 (file_reader Source g)
        then extract_then_save (rd_frames (file_reader Source g)) (kpts_path video)
               (add_log (EvVideoReader Source p) (converted_world video f' w))
        else (Raise AssertionError,
              add_log (EvVideoReader Source p) (converted_world video f' w))
    end.
Proof.
  intros Hc Ef E30 Ec. unfold get_keypoints_from_video.
  bind_step (path_exists_value (kpts_path video) w). rewrite Hc.
  rewrite bool_decide_eq_false_2 by (intros [x Hx]; discriminate).
  bind_step (VideoReader_value Source video w f Ef). rewrite E30.
  unfold bind at 1. unfold bind at 1. cbn [fs add_log]. rewrite Ec.
  fold (converted_world video f' w).
  destruct (f' !! p) as [g |] eqn:Eg.
  - rewrite (VideoReader_value Source p (converted_world video f' w) g Eg).
    now destruct (fps_is_30 (file_reader Source g)).
  - now rewrite (VideoReader_missing Source p (converted_world video f' w) Eg).
Qed.

(** The trace of a call that finds the cache. *)
Lemma get_keypoints_from_video_hit_trace `{Collaborators} `{FpsConverter}
    (video : string) (w : World) (f : file) :
  fs w !! kpts_path video = Some f ->
  exists evs,
    log (snd (get_keypoints_from_video video w)) = log w ++ evs /\
    pose_indices evs = [].
Proof.
  intros Hc. destruct f as [v | k].
  - unfold get_keypoints_from_video.
    rewrite (bind_ok _ _ _ _ _ (path_exists_value (kpts_path video) w)).
    cbv beta. rewrite bool_decide_eq_true_2 by (rewrite Hc; now eexists).
    unfold torch_load. rewrite Hc. exists []. now rewrite app_nil_r.
  - rewrite (get_keypoints_from_video_hit video w k Hc).
    now exists [EvTorchLoad (kpts_path video)].
Qed.

(** The trace of a call that finds no cache. *)
Lemma get_keypoints_from_video_miss_trace `{Collaborators} `{FpsConverter}
    (video : string) (w : World) :
  fs w !! kpts_path video = None ->
  exists evs : list event,
    log (snd (get_keypoints_from_video video w)) = log w ++ evs /\
    (forall f, fs w !! video = Some f ->
       if fps_is_30 (file_reader Source f)
       then ~ In (EvConvertFps video) evs
       else exists rest,
              evs = EvVideoReader Source video :: EvConvertFps video :: rest) /\
    match extraction_reader video (fs w) with
    | Some rd =>
        if fps_is_30 rd
        then pose_indices evs = seq 0 (length (rd_frames rd))
        else fst (get_keypoints_from_video video w) = Raise AssertionError /\
             pose_indices evs = [] /\
             ~ In (EvTorchSave (kpts_path video)) evs
    | None =>
        fst (get_keypoints_from_video video w) = Raise FileNotFoundError /\
        pose_indices evs = [] /\
        ~ In (EvTorchSave (kpts_path video)) evs
    end.
Proof.
  intros Hc. unfold extraction_reader.
  destruct (fs w !! video) as [f |] eqn:Ef.
  - destruct (fps_is_30 (file_reader Source f)) eqn:E30.
    + rewrite (get_keypoints_from_video_at_30 video w f Hc Ef E30).
      destruct (extract_and_save_trace (rd_frames (file_reader Source f))
                  (kpts_path video) (add_log (EvVideoReader Source video) w))
        as [r [w' [evs [E [Hl [Hp Hno]]]]]].
      rewrite E, E30. cbn [snd]. exists (EvVideoReader Source video :: evs).
      split; [rewrite Hl; simpl; now rewrite <- app_assoc |].
      split; [| exact Hp].
      intros f' Hf'. inversion Hf'; subst f'. rewrite E30.
      intros [Hin | Hin]; [discriminate |].
      rewrite List.Forall_forall in Hno. now apply (Hno _ Hin video).
    + destruct (convert_video_fps video (fs w)) as [p f'] eqn:Ec.
      rewrite (get_keypoints_from_video_converted video w f p f' Hc Ef E30 Ec).
      assert (Hconv : forall f0, Some f = Some f0 ->
                forall rest, if fps_is_30 (file_reader Source f0)
                then ~ In (EvConvertFps video)
                       (EvVideoReader Source video :: EvConvertFps video :: rest)
                else exists rest',
                  EvVideoReader Source video :: EvConvertFps video :: rest =
                  EvVideoReader Source video :: EvConvertFps video :: rest').
      { intros f0 Hf0 rest. inversion Hf0; subst f0. rewrite E30. now eexists. }
      destruct (f' !! p) as [g |] eqn:Eg; cbn [fmap option_fmap option_map].
      * destruct (fps_is_30 (file_reader Source g)) eqn:E30'.
        -- destruct (extract_and_save_trace (rd_frames (file_reader Source g))
                       (kpts_path video)
                       (add_log (EvVideoReader Source p) (converted_world video f' w)))
             as [r [w' [evs [E [Hl [Hp Hno]]]]]].
           rewrite E. cbn [snd].
           exists (EvVideoReader Source video :: EvConvertFps video
                   :: EvVideoReader Source p :: evs).
           split; [rewrite Hl; simpl; now rewrite <- !app_assoc |].
           split; [| exact Hp]. intros f0 Hf0. now apply Hconv.
        -- exists [EvVideoReader Source video; EvConvertFps video;
                   EvVideoReader Source p].
           split; [simpl; now rewrite <- !app_assoc |].
           split; [intros f0 Hf0; now apply Hconv |].
           split; [reflexivity |]. split; [reflexivity |].
           intros [Hin | [Hin | [Hin | []]]]; discriminate.
      * exists [EvVideoReader Source video; EvConvertFps video].
        split; [simpl; now rewrite <- !app_assoc |].
        split; [intros f0 Hf0; now apply Hconv |].
        split; [reflexivity |]. split; [reflexivity |].
        intros [Hin | [Hin | []]]; discriminate.
  - rewrite (get_keypoints_from_video_no_video video w Hc Ef).
    exists []. cbn [snd fst]. rewrite app_nil_r.
    split; [reflexivity |]. split; [intros f Hf; discriminate |].
    now repeat split.
Qed.

(** C7.  [get_keypoints_from_video] runs the pose extraction on a 30 fps
    stream only: if the trace of a call holds an extraction at all, the
    reader [rd] that the call ended up with (the converted one after a
    conversion) reports exactly 30 fps and the extraction ran over the frames
    of [rd], in order.  On the way there (no cache file), a video that does
    not report 30 fps is handed to [convert_video_fps] right after it was
    opened and a video that does is never converted; and when [rd] does not
    report 30 fps the call fails with an [AssertionError], having extracted
    and saved nothing. *)
Theorem get_keypoints_from_video_fps_guard `{Collaborators} `{FpsConverter}
    (video : string) (w : World) :
  exists evs : list event,
    log (snd (get_keypoints_from_video video w)) = log w ++ evs /\
    (pose_indices evs <> [] ->
     exists rd, extraction_reader video (fs w) = Some rd /\
                fps_is_30 rd = true /\
                pose_indices evs = seq 0 (length (rd_frames rd))) /\
    (fs w !! kpts_path video = None ->
     (forall f, fs w !! video = Some f ->
        if fps_is_30 (file_reader Source f)
        then ~ In (EvConvertFps video) evs
        else exists rest,
               evs = EvVideoReader Source video :: EvConvertFps video :: rest) /\
     (forall rd, extraction_reader video (fs w) = Some rd ->
        fps_is_30 rd = false ->
        fst (get_keypoints_from_video video w) = Raise AssertionError /\
        pose_indices evs = [] /\
        ~ In (EvTorchSave (kpts_path video)) evs)).
Proof.
  destruct (fs w !! kpts_path video) as [c |] eqn:Hc.
  - destruct (get_keypoints_from_video_hit_trace video w c Hc) as [evs [Hl Hp]].
    exists evs. split; [exact Hl |]. split; [congruence | discriminate].
  - destruct (get_keypoints_from_video_miss_trace video w Hc) as [evs [Hl [Hconv Hrd]]].
    exists evs. split; [exact Hl |]. split; [| split; [exact Hconv |]].
    + intros Hne. destruct (extraction_reader video (fs w)) as [rd |].
      * destruct (fps_is_30 rd) eqn:E30.
        -- now exists rd.
        -- destruct Hrd as [_ [Hp _]]. congruence.
      * destruct Hrd as [_ [Hp _]]. congruence.
    + intros rd Hsome E30. rewrite Hsome, E30 in Hrd. exact Hrd.
Qed.

Lemma extract_then_save_ok `{Collaborators}
    (frames : list image) (cache : string) (w w' : World) (l : nat) :
  extract_then_save frames cache w = (Ok l, w') ->
  heap w' !! l = Some (Arr3 (video_keypoints frames)) /\
  fs w' !! cache = Some (TorchFile (video_keypoints frames)).
Proof.
  intros E. destruct frames as [| f rest].
  - rewrite extract_nothing in E. discriminate.
  - destruct (extract_and_save (f :: rest) cache w) as [w1 [evs [E1 [Hh [Hf _]]]]];
      [congruence |].
    rewrite E1 in E. inversion E; subst. rewrite Hh, Hf.
    split; apply lookup_insert_eq.
Qed.

(** A call that returns leaves the array it returns in the cache file. *)
Lemma get_keypoints_from_video_ok `{Collaborators} `{FpsConverter}
    (video : string) (w w' : World) (l : nat) :
  get_keypoints_from_video video w = (Ok l, w') ->
  exists k, heap w' !! l = Some (Arr3 k) /\
            fs w' !! kpts_path video = Some (TorchFile k).
Proof.
  intros E. destruct (fs w !! kpts_path video) as [[v | k] |] eqn:Hc.
  - unfold get_keypoints_from_video in E.
    rewrite (bind_ok _ _ _ _ _ (path_exists_value (kpts_path video) w)) in E.
    cbv beta in E. rewrite bool_decide_eq_true_2 in E by (rewrite Hc; now eexists).
    unfold torch_load in E. rewrite Hc in E. discriminate.
  - rewrite (get_keypoints_from_video_hit video w k Hc) in E.
    inversion E; subst. exists k. cbn [heap fs set_heap add_log].
    split; [apply lookup_insert_eq | exact Hc].
  - destruct (fs w !! video) as [f |] eqn:Ef.
    + destruct (fps_is_30 (file_reader Source f)) eqn:E30.
      * rewrite (get_keypoints_from_video_at_30 video w f Hc Ef E30) in E.
        eexists. apply (extract_then_save_ok _ _ _ _ _ E).
      * destruct (convert_video_fps video (fs w)) as [p f'] eqn:Ec.
        rewrite (get_keypoints_from_video_converted video w f p f' Hc Ef E30 Ec) in E.
        destruct (f' !! p) as [g |]; [| discriminate].
        destruct (fps_is_30 (file_reader Source g)); [| discriminate].
        eexists. apply (extract_then_save_ok _ _ _ _ _ E).
    + rewrite (get_keypoints_from_video_no_video video w Hc Ef) in E. discriminate.
Qed.

(** A call without a cache, on a reader at 30 fps that has frames. *)
Lemma get_keypoints_from_video_miss `{Collaborators} `{FpsConverter}
    (video : string) (w : World) (rd : reader) :
  fs w !! kpts_path video = None ->
  extraction_reader video (fs w) = Some rd ->
  fps_is_30 rd = true -> rd_frames rd <> [] ->
  exists l w',
    get_keypoints_from_video video w = (Ok l, w') /\
    heap w' !! l = Some (Arr3 (video_keypoints (rd_frames rd))) /\
    fs w' !! kpts_path video = Some (TorchFile (video_keypoints (rd_frames rd))).
Proof.
  intros Hc Hrd H30 Hne. unfold extraction_reader in Hrd.
  destruct (fs w !! video) as [f |] eqn:Ef; [| discriminate].
  destruct (fps_is_30 (file_reader Source f)) eqn:E30.
  - inversion Hrd; subst rd.
    rewrite (get_keypoints_from_video_at_30 video w f Hc Ef E30).
    destruct (extract_and_save _ (kpts_path video)
                (add_log (EvVideoReader Source video) w) Hne) as [w' [evs [E _]]].
    eexists. exists w'. split; [exact E |]. apply (extract_then_save_ok _ _ _ _ _ E).
  - destruct (convert_video_fps video (fs w)) as [p f'] eqn:Ec.
    rewrite (get_keypoints_from_video_converted video w f p f' Hc Ef E30 Ec).
    destruct (f' !! p) as [g |]; [| discriminate].
    cbn [fmap option_fmap option_map] in Hrd. inversion Hrd; subst rd. rewrite H30.
    destruct (extract_and_save _ (kpts_path video)
                (add_log (EvVideoReader Source p) (converted_world video f' w)) Hne)
      as [w' [evs [E _]]].
    eexists. exists w'. split; [exact E |]. apply (extract_then_save_ok _ _ _ _ _ E).
Qed.

(** C3, as the code has it.  When the cache file of a video holds a saved
    array, [get_keypoints_from_video] returns that array and does nothing
    but load it: no video is opened, no frame goes through the extraction.
    When there is no cache file and the reader the call ends up with (the
    converted one after a conversion) reports 30 fps and has at least one
    frame, the call extracts the keypoints, writes them to the cache file and
    returns them.  Whenever a call returns an array, a second call for the
    same video returns an array with the same contents and only loads the
    cache. *)
Theorem get_keypoints_from_video_cached `{Collaborators} `{FpsConverter}
    (video : string) (w : World) :
  (forall k, fs w !! kpts_path video = Some (TorchFile k) ->
     exists l w',
       get_keypoints_from_video video w = (Ok l, w') /\
       heap w' !! l = Some (Arr3 k) /\ fs w' = fs w /\
       log w' = log w ++ [EvTorchLoad (kpts_path video)]) /\
  (forall rd, fs w !! kpts_path video = None ->
     extraction_reader video (fs w) = Some rd ->
     fps_is_30 rd = true -> rd_frames rd <> [] ->
     exists l w',
       get_keypoints_from_video video w = (Ok l, w') /\
       heap w' !! l = Some (Arr3 (video_keypoints (rd_frames rd))) /\
       fs w' !! kpts_path video = Some (TorchFile (video_keypoints (rd_frames rd)))) /\
  (forall l w', get_keypoints_from_video video w = (Ok l, w') ->
     exists k l2 w'',
       heap w' !! l = Some (Arr3 k) /\
       get_keypoints_from_video video w' = (Ok l2, w'') /\
       heap w'' !! l2 = Some (Arr3 k) /\ fs w'' = fs w' /\
       log w'' = log w' ++ [EvTorchLoad (kpts_path video)]).
Proof.
  assert (Hit : forall w0 k, fs w0 !! kpts_path video = Some (TorchFile k) ->
            exists l w',
              get_keypoints_from_video video w0 = (Ok l, w') /\
              heap w' !! l = Some (Arr3 k) /\ fs w' = fs w0 /\
              log w' = log w0 ++ [EvTorchLoad (kpts_path video)]).
  { intros w0 k Hk. eexists. eexists.
    split; [apply (get_keypoints_from_video_hit video w0 k Hk) |].
    cbn [heap fs log set_heap add_log].
    split; [apply lookup_insert_eq | now split]. }
  split; [apply Hit |]. split; [apply get_keypoints_from_video_miss |].
  intros l w' E.
  destruct (get_keypoints_from_video_ok video w w' l E) as [k [Hl Hk]].
  destruct (Hit w' k Hk) as [l2 [w'' [E2 [Hl2 [Hf2 Hlog2]]]]].
  exists k, l2, w''. now repeat split.
Qed.

(** The guard at work: the converted file of a 25 fps video is at 24 fps, so
    there is no cache file and yet nothing is extracted, written or
    returned. *)
Lemma get_keypoints_from_video_guard_fails :
  fs sample_world !! kpts_path "stale.mp4" = None /\
  fst (@get_keypoints_from_video sample_collaborators sample_converter
         "stale.mp4" sample_world) = Raise AssertionError /\
  fs (snd (@get_keypoints_from_video sample_collaborators sample_converter
             "stale.mp4" sample_world)) !! kpts_path "stale.mp4" = None /\
  pose_indices (log (snd (@get_keypoints_from_video sample_collaborators
                            sample_converter "stale.mp4" sample_world))) = [].
Proof. vm_compute. repeat split. Qed.

(** A clip at 30 fps without a single frame: [np.concatenate] has nothing to
    concatenate. *)
Example get_keypoints_from_video_no_frames :
  fst (@get_keypoints_from_video sample_collaborators sample_converter
         "void.mp4" sample_world) = Raise ValueError.
Proof. vm_compute. reflexivity. Qed.

(** The student video is converted, extracted and cached; the second call
    loads the cache. *)
Lemma get_keypoints_from_video_cached_witness :
  exists l w' l2 w'',
    @get_keypoints_from_video sample_collaborators sample_converter
      "student.mp4" sample_world = (Ok l, w') /\
    heap w' !! l =
      Some (Arr3 (@video_keypoints sample_collaborators [frame_blur; frame_dancer])) /\
    @get_keypoints_from_video sample_collaborators sample_converter
      "student.mp4" w' = (Ok l2, w'') /\
    heap w'' !! l2 =
      Some (Arr3 (@video_keypoints sample_collaborators [frame_blur; frame_dancer])) /\
    log w'' = log w' ++ [EvTorchLoad "student_kpts.pth"].
Proof.
  destruct (@get_keypoints_from_video_cached sample_collaborators sample_converter
              "student.mp4" sample_world) as [_ [Hmiss Hagain]].
  destruct (Hmiss (mkReader Source 30 [frame_blur; frame_dancer] 0))
    as [l [w' [E [Hl Hf]]]];
    [vm_compute; reflexivity | vm_compute; reflexivity | reflexivity | discriminate |].
  destruct (Hagain l w' E) as [k [l2 [w'' [Hk [E2 [Hl2 [_ Hlog]]]]]]].
  exists l, w', l2, w''. cbn [rd_frames] in Hl.
  rewrite Hl in Hk. inversion Hk; subst k.
  now repeat split.
Defined.

(** The guard on the sample world: the 25 fps student video is converted
    right after it was opened, and its two frames are extracted from the
    30 fps copy. *)
Lemma get_keypoints_from_video_fps_guard_witness :
  exists evs rest,
    log (snd (@get_keypoints_from_video sample_collaborators sample_converter
                "student.mp4" sample_world)) = log sample_world ++ evs /\
    evs = EvVideoReader Source "student.mp4" :: EvConvertFps "student.mp4" :: rest /\
    pose_indices evs = [0; 1]%nat.
Proof.
  destruct (@get_keypoints_from_video_fps_guard sample_collaborators sample_converter
              "student.mp4" sample_world) as [evs [Hl [Hpose Hmiss]]].
  destruct Hmiss as [Hconv _]; [vm_compute; reflexivity |].
  destruct (Hconv (VideoFile sample_student)) as [rest Hrest];
    [vm_compute; reflexivity |].
  destruct Hpose as [rd [Hrd [_ Hp]]].
  { rewrite Hrest in Hl. intros Hnil.
    assert (Hlog : pose_indices
              (log (snd (@get_keypoints_from_video sample_collaborators
                           sample_converter "student.mp4" sample_world))) = [])
      by (rewrite Hl, pose_indices_app, <- Hrest, Hnil; reflexivity).
    vm_compute in Hlog. discriminate. }
  exists evs, rest. split; [exact Hl |]. split; [exact Hrest |].
  rewrite Hp. vm_compute in Hrd. inversion Hrd. reflexivity.
Defined.

(** ** Weakest preconditions of the calls *)

Lemma wp_bind {A B : Type} (m : M A) (k : A -> M B)
    (Q : result B -> World -> Prop) (w : World) :
  wp m (wp_then k Q) w -> wp (bind m k) Q w.
Proof.
  unfold wp, wp_then, bind. destruct (m w) as [[a | e] w']; simpl; auto.
Qed.

Lemma wp_ret {A : Type} (a : A) (Q : result A -> World -> Prop) (w : World) :
  Q (Ok a) w -> wp (ret a) Q w.
Proof. auto. Qed.

Lemma wp_lift {A : Type} (r : result A) (Q : result A -> World -> Prop) (w : World) :
  Q r w -> wp (lift r) Q w.
Proof. auto. Qed.

Lemma wp_emit (e : event) (Q : result unit -> World -> Prop) (w : World) :
  Q (Ok tt) (add_log e w) -> wp (emit e) Q w.
Proof. auto. Qed.

Lemma wp_reader_next (r : reader) (Q : result (image * reader) -> World -> Prop)
    (w : World) :
  match rd_frames r !! rd_pos r with
  | Some f => Q (Ok (f, mkReader (rd_who r) (rd_fps r) (rd_frames r) (S (rd_pos r))))
                (add_log (EvNext (rd_who r) (rd_pos r)) w)
  | None => Q (Raise StopIteration) w
  end ->
  wp (reader_next r) Q w.
Proof. unfold wp, reader_next. now destruct (rd_frames r !! rd_pos r). Qed.

Lemma wp_VideoReader (who : role) (path : string)
    (Q : result reader -> World -> Prop) (w : World) :
  match fs w !! path with
  | Some f => Q (Ok (file_reader who f)) (add_log (EvVideoReader who path) w)
  | None => Q (Raise FileNotFoundError) w
  end ->
  wp (VideoReader who path) Q w.
Proof. unfold wp, VideoReader. now destruct (fs w !! path). Qed.

Lemma wp_iadd (l : nat) (c : column) (v : Q)
    (Q : result unit -> World -> Prop) (w : World) :
  match heap w !! l with
  | Some a => Q (Ok tt) (set_heap (<[l := array_add c v a]> (heap w)) w)
  | None => Q (Raise RuntimeError) w
  end ->
  wp (iadd l c v) Q w.
Proof. unfold wp, iadd. now destruct (heap w !! l). Qed.

Lemma wp_deref (l : nat) (Q : result ndarray -> World -> Prop) (w : World) :
  match heap w !! l with
  | Some a => Q (Ok a) w
  | None => Q (Raise RuntimeError) w
  end ->
  wp (deref l) Q w.
Proof. unfold wp, deref. now destruct (heap w !! l). Qed.

Lemma wp_smoothed_kpt `{Smoother} (kpts index sigma : nat)
    (Q : result nat -> World -> Prop) (w : World) :
  match get_smoothed_kpt (heap w) kpts index sigma with
  | Ok (l, h) => Q (Ok l) (set_heap h (add_log (EvSmooth kpts index) w))
  | Raise e => Q (Raise e) (add_log (EvSmooth kpts index) w)
  end ->
  wp (smoothed_kpt kpts index sigma) Q w.
Proof.
  unfold wp, smoothed_kpt, bind, emit. cbn [heap add_log].
  now destruct (get_smoothed_kpt (heap w) kpts index sigma) as [[l h] | e].
Qed.

Lemma wp_draw_score `{Collaborators} (img : image) (last_vis_score score_frame : Q)
    (Q : result image -> World -> Prop) (w : World) :
  (forall out, Q (Ok out) (add_log (EvDrawScore (Qtrunc last_vis_score)) w)) ->
  wp (draw_score img last_vis_score score_frame) Q w.
Proof. intros HQ. apply HQ. Qed.

Lemma wp_writer_write (opened : bool) (path : string) (img : image)
    (Q : result unit -> World -> Prop) (w : World) :
  (forall f, Q (Ok tt) (add_log (EvWrite path) (set_fs f w))) ->
  wp (writer_write opened path img) Q w.
Proof. intros HQ. apply HQ. Qed.

Lemma wp_mono {A : Type} (m : M A) (Q1 Q2 : result A -> World -> Prop) (w : World) :
  (forall r w', Q1 r w' -> Q2 r w') -> wp m Q1 w -> wp m Q2 w.
Proof. unfold wp. auto. Qed.

(** A loop that keeps the invariant [I] as long as it does not raise. *)
Lemma wp_for_range {St : Type} (body : nat -> St -> M St)
    (I : nat -> St -> World -> Prop) (Qr : exn -> World -> Prop) (n : nat) :
  forall (i : nat) (st : St) (w : World),
  (forall j st w, (i <= j < i + n)%nat -> I j st w ->
     wp (body j st)
        (fun r w' => match r with Ok st' => I (S j) st' w' | Raise e => Qr e w' end) w) ->
  I i st w ->
  wp (for_range body i n st)
     (fun r w' => match r with Ok st' => I (i + n)%nat st' w' | Raise e => Qr e w' end) w.
Proof.
  induction n as [| n IH]; intros i st w Hbody HI.
  - cbn [for_range]. apply wp_ret. now rewrite Nat.add_0_r.
  - cbn [for_range]. apply wp_bind.
    pose proof (Hbody i st w ltac:(lia) HI) as Hstep.
    unfold wp, wp_then in *. destruct (body i st w) as [[st' | e] w']; cbn [fst snd] in *.
    + replace (i + S n)%nat with (S i + n)%nat by lia.
      apply IH; [| exact Hstep].
      intros j st0 w0 Hj. apply Hbody. lia.
    + exact Hstep.
Qed.

Lemma wp_skip_frames (I : reader -> World -> Prop) (Qr : exn -> World -> Prop) (n : nat) :
  forall (r : reader) (w : World),
  (forall r w, I r w ->
     wp (reader_next r)
        (fun x w' => match x with Ok fr => I (snd fr) w' | Raise e => Qr e w' end) w) ->
  I r w ->
  wp (skip_frames n r)
     (fun x w' => match x with Ok r' => I r' w' | Raise e => Qr e w' end) w.
Proof.
  induction n as [| n IH]; intros r w Hnext HI.
  - cbn [skip_frames]. now apply wp_ret.
  - cbn [skip_frames]. apply wp_bind.
    pose proof (Hnext r w HI) as Hstep.
    unfold wp, wp_then in *. destruct (reader_next r w) as [[fr | e] w']; cbn [fst snd] in *.
    + now apply IH.
    + exact Hstep.
Qed.

(** Symbolic execution of one call. *)
Ltac wp_step :=
  first
    [ apply wp_reader_next
    | apply wp_VideoReader
    | apply wp_iadd
    | apply wp_deref
    | apply wp_smoothed_kpt
    | apply wp_draw_score; intros ?
    | apply wp_writer_write; intros ?
    | apply wp_emit
    | apply wp_ret
    | apply wp_lift
    | apply wp_bind; unfold wp_then ].

Ltac wp_case :=
  match goal with
  | |- match ?x with _ => _ end => destruct x eqn:?
  end.

(** ** [generate_output_video]: the keypoint arrays of the caller *)

(** The smoother of the specification reads the sequence and returns a new
    array object. *)
Lemma get_smoothed_kpt_spec_fresh
    (smooth : list (list joint) -> nat -> nat -> list joint)
    (h : gmap nat ndarray) (kpts index sigma : nat) :
  match get_smoothed_kpt_spec smooth h kpts index sigma with
  | Ok (l, h') =>
      h !! l = None /\
      exists k, h !! kpts = Some (Arr3 k) /\ (index < length (ka_rows k))%nat /\
                h' = <[l := Arr2 (ka_dtype k) (smooth (ka_rows k) index sigma)]> h
  | Raise _ => True
  end.
Proof.
  unfold get_smoothed_kpt_spec.
  destruct (h !! kpts) as [[k | d row] |] eqn:E; try exact I.
  destruct (Nat.ltb index (length (ka_rows k))) eqn:L; [| exact I].
  split.
  - apply (not_elem_of_dom (D := gset nat)). apply is_fresh.
  - exists k. apply Nat.ltb_lt in L. now repeat split.
Qed.

(** One iteration changes no array that was there before the call: the
    shifts go to the arrays that the smoother has just created. *)
Lemma render_step_heap `{Collaborators}
    (smooth : list (list joint) -> nat -> nat -> list joint)
    (out : string) (tk sk : nat) (piece : piece_info) (h0 : gmap nat ndarray)
    (i : nat) (st : loop_state) (w : World) :
  h0 ⊆ heap w ->
  wp (@render_step _ (spec_smoother smooth) out tk sk piece i st)
     (fun _ w' => h0 ⊆ heap w') w.
Proof.
  intros Hsub. unfold render_step.
  do 8 (wp_step; try wp_case; try exact Hsub).
  wp_step. wp_step. cbn [heap add_log set_heap].
  pose proof (get_smoothed_kpt_spec_fresh smooth (heap w) sk (stu_start piece + i) 5) as F1.
  unfold get_smoothed_kpt, spec_smoother.
  destruct (get_smoothed_kpt_spec smooth (heap w) sk (stu_start piece + i) 5)
    as [[l1 h1] | e1]; [| exact Hsub].
  destruct F1 as [N1 [k1 [_ [_ ->]]]].
  assert (N01 : h0 !! l1 = None) by (eapply lookup_weaken_None; eauto).
  assert (Hsub1 : h0 ⊆ <[l1 := Arr2 (ka_dtype k1)
                            (smooth (ka_rows k1) (stu_start piece + i)%nat 5%nat)]> (heap w))
    by (apply insert_subseteq_r; assumption).
  set (hh1 := <[l1 := _]> (heap w)) in *.
  wp_step. wp_step. cbn [heap add_log set_heap].
  pose proof (get_smoothed_kpt_spec_fresh smooth hh1 tk (tch_start piece + i) 5) as F2.
  unfold get_smoothed_kpt, spec_smoother.
  destruct (get_smoothed_kpt_spec smooth hh1 tk (tch_start piece + i) 5)
    as [[l2 h2] | e2]; [| exact Hsub1].
  destruct F2 as [N2 [k2 [_ [_ ->]]]].
  assert (N02 : h0 !! l2 = None) by (eapply lookup_weaken_None; eauto).
  repeat (first [wp_step | wp_case]; cbn [heap add_log set_heap set_fs];
          try (repeat apply insert_subseteq_r; assumption)).
Qed.

Lemma generate_output_video_heap `{Collaborators}
    (smooth : list (list joint) -> nat -> nat -> list joint)
    (tch_video stu_video out : string) (tk sk : nat) (piece : piece_info) (w : World) :
  wp (@generate_output_video _ (spec_smoother smooth) tch_video stu_video out tk sk piece)
     (fun _ w' => heap w ⊆ heap w') w.
Proof.
  assert (Hskip : forall n r w0, heap w ⊆ heap w0 ->
            wp (skip_frames n r)
               (fun x w' => match x with
                            | Ok _ => heap w ⊆ heap w'
                            | Raise _ => heap w ⊆ heap w'
                            end) w0).
  { intros n r w0 H0.
    apply (wp_skip_frames (fun _ w' => heap w ⊆ heap w') (fun _ w' => heap w ⊆ heap w'));
      [| exact H0].
    intros r0 w1 H1. wp_step. now wp_case. }
  unfold generate_output_video.
  wp_step. wp_step. wp_case; [| reflexivity].
  wp_step. wp_step. wp_case; [| reflexivity].
  wp_step. eapply wp_mono; [| apply (Hskip (tch_start piece)); reflexivity].
  intros [r1 | e1] w1 H1; [| exact H1].
  wp_step. eapply wp_mono; [| apply (Hskip (stu_start piece)); exact H1].
  intros [r2 | e2] w2 H2; [| exact H2].
  wp_step.
  eapply wp_mono;
    [| apply (wp_for_range _ (fun _ _ w' => heap w ⊆ heap w')
                (fun _ w' => heap w ⊆ heap w')); [| exact H2]].
  - intros [st | e] w3 H3; [| exact H3]. now wp_step.
  - intros j st w3 _ H3. eapply wp_mono; [| apply render_step_heap; exact H3].
    now intros [st' | e] w4 H4.
Qed.

(** C6.  A call of [generate_output_video] changes none of the arrays that
    exist when it is made, whether it returns or raises: after the call every
    array [l] of the heap, and so the keypoint arrays [tch_kpts] and
    [stu_kpts] of the caller, holds entry for entry what it held before.
    The smoother is the one of the specification, which answers with a new
    array; the in-place shifts of the drawing go to those. *)
Theorem generate_output_video_keeps_kpts `{Collaborators}
    (smooth : list (list joint) -> nat -> nat -> list joint)
    (tch_video stu_video output_file : string) (tch_kpts stu_kpts : nat)
    (piece : piece_info) (w : World) (l : nat) (a : ndarray) :
  heap w !! l = Some a ->
  heap (snd (@generate_output_video _ (spec_smoother smooth)
               tch_video stu_video output_file tch_kpts stu_kpts piece w)) !! l
  = Some a.
Proof.
  intros Hl.
  pose proof (generate_output_video_heap smooth tch_video stu_video output_file
                tch_kpts stu_kpts piece w) as Hsub.
  unfold wp in Hsub. eapply lookup_weaken; eauto.
Qed.

(** ** [generate_output_video]: the frames it reads *)

Lemma score_track_nth (sims : list Q) :
  forall (j : nat) (st : Q * Q) (s : Q),
  sims !! j = Some s ->
  nth (S j) (st :: score_track sims st) (0, 0) =
  update_score (fst (nth j (st :: score_track sims st) (0, 0)))
               (snd (nth j (st :: score_track sims st) (0, 0))) s.
Proof.
  induction sims as [| x rest IH]; intros j st s Hs; [discriminate |].
  destruct j as [| j].
  - inversion Hs; subst. reflexivity.
  - cbn [score_track].
    change (nth (S (S j)) (st :: ?a :: ?l) (0, 0)) with (nth (S j) (a :: l) (0, 0)).
    change (nth (S j) (st :: ?a :: ?l) (0, 0)) with (nth j (a :: l) (0, 0)).
    now apply IH.
Qed.

(** The scores after one more frame. *)
Lemma score_after_step (sims : list Q) (j : nat) (s : Q) :
  sims !! j = Some s ->
  score_after sims (S j) =
  update_score (fst (score_after sims j)) (snd (score_after sims j)) s.
Proof. apply score_track_nth. Qed.

(** Skipping frames that are there. *)
Lemma skip_frames_ok (n : nat) :
  forall (r : reader) (w : World),
  (rd_pos r + n <= length (rd_frames r))%nat ->
  skip_frames n r w =
    (Ok (mkReader (rd_who r) (rd_fps r) (rd_frames r) (rd_pos r + n)),
     extend_log (map (EvNext (rd_who r)) (seq (rd_pos r) n)) w).
Proof.
  induction n as [| n IH]; intros r w Hn.
  - cbn [skip_frames seq map]. unfold ret, extend_log. rewrite Nat.add_0_r, app_nil_r.
    now destruct r, w.
  - cbn [skip_frames]. unfold bind, reader_next.
    destruct (lookup_lt_is_Some_2 (rd_frames r) (rd_pos r) ltac:(lia)) as [f Hf].
    rewrite Hf. cbn [snd]. rewrite IH by (cbn [rd_pos rd_frames]; lia).
    cbn [rd_who rd_fps rd_frames rd_pos]. f_equal; [f_equal; f_equal; lia |].
    unfold extend_log, add_log.
    cbn [fs heap self_pose_estimator inferencers_built log seq map].
    now rewrite <- app_assoc.
Qed.

Lemma resize_ok `{Collaborators} (img : image) (n : nat) :
  im_height img <> 0%nat ->
  exists out, resize_image_to_fixed_height (bgr2rgb img) n = Ok out.
Proof.
  intros Hh. unfold resize_image_to_fixed_height. rewrite bgr2rgb_shape.
  unfold im_height in Hh. destruct (im_shape img) as [[h wd] c]. cbn [fst] in Hh.
  destruct (Nat.eqb_spec h 0); [contradiction |]. now eexists.
Qed.

Lemma get_smoothed_kpt_spec_ok
    (smooth : list (list joint) -> nat -> nat -> list joint)
    (h : gmap nat ndarray) (kpts index sigma : nat) (k : kpt_array) :
  h !! kpts = Some (Arr3 k) -> (index < length (ka_rows k))%nat ->
  get_smoothed_kpt_spec smooth h kpts index sigma =
    Ok (fresh (dom h),
        <[fresh (dom h) := Arr2 (ka_dtype k) (smooth (ka_rows k) index sigma)]> h).
Proof.
  intros Hk Hi. unfold get_smoothed_kpt_spec. rewrite Hk.
  apply Nat.ltb_lt in Hi. now rewrite Hi.
Qed.

(** An iteration within a fitting piece returns and keeps the invariant. *)
Lemma render_step_ok `{Collaborators}
    (smooth : list (list joint) -> nat -> nat -> list joint)
    (out : string) (tk sk : nat) (piece : piece_info) (tch stu : video)
    (tarr sarr : kpt_array) (h0 : gmap nat ndarray) (l0 : list event)
    (j : nat) (st : loop_state) (w : World) :
  piece_fits piece tch stu tarr sarr ->
  frames_have_height tch -> frames_have_height stu ->
  h0 !! tk = Some (Arr3 tarr) -> h0 !! sk = Some (Arr3 sarr) ->
  (j < length_ piece)%nat ->
  render_inv out tk sk piece tch stu h0 l0 j st w ->
  wp (@render_step _ (spec_smoother smooth) out tk sk piece j st)
     (fun r w' => match r with
                  | Ok st' => render_inv out tk sk piece tch stu h0 l0 (S j) st' w'
                  | Raise _ => False
                  end) w.
Proof.
  intros [Hts [Hss [Htl [Hsl Hsim]]]] Hth Hsh Htk Hsk Hj [Ht [Hs [Hsc [Hsub Hlog]]]].
  unfold render_step. rewrite Ht, Hs.
  destruct (lookup_lt_is_Some_2 (v_frames tch) (tch_start piece + j) ltac:(lia))
    as [tf Htf].
  destruct (lookup_lt_is_Some_2 (v_frames stu) (stu_start piece + j) ltac:(lia))
    as [sf Hsf].
  destruct (lookup_lt_is_Some_2 (similarity piece) j ltac:(lia)) as [s Hsm].
  destruct (resize_ok tf 300) as [tout Htout].
  { unfold frames_have_height in Hth. rewrite List.Forall_forall in Hth.
    apply Hth. apply list_elem_of_In. eapply list_elem_of_lookup_2; eauto. }
  destruct (resize_ok sf 300) as [sout Hsout].
  { unfold frames_have_height in Hsh. rewrite List.Forall_forall in Hsh.
    apply Hsh. apply list_elem_of_In. eapply list_elem_of_lookup_2; eauto. }
  wp_step. wp_step. cbn [rd_frames rd_pos rd_who rd_fps]. rewrite Htf.
  wp_step. wp_step. cbn [rd_frames rd_pos rd_who rd_fps]. rewrite Hsf.
  cbn [fst snd].
  wp_step. wp_step. rewrite Htout.
  wp_step. wp_step. rewrite Hsout.
  wp_step. wp_step. cbn [heap add_log set_heap].
  unfold get_smoothed_kpt, spec_smoother.
  rewrite (get_smoothed_kpt_spec_ok smooth (heap w) sk _ 5 sarr)
    by (first [eapply lookup_weaken; eauto | lia]).
  set (l1 := fresh (dom (heap w))).
  assert (N1 : heap w !! l1 = None)
    by (apply (not_elem_of_dom (D := gset nat)); apply is_fresh).
  set (hh1 := <[l1 := _]> (heap w)).
  assert (Hsub1 : h0 ⊆ hh1).
  { apply insert_subseteq_r; [eapply lookup_weaken_None; eauto | exact Hsub]. }
  wp_step. wp_step. cbn [heap add_log set_heap].
  unfold get_smoothed_kpt, spec_smoother.
  rewrite (get_smoothed_kpt_spec_ok smooth hh1 tk _ 5 tarr)
    by (first [eapply lookup_weaken; eauto | lia]).
  set (l2 := fresh (dom hh1)).
  assert (N2 : hh1 !! l2 = None)
    by (apply (not_elem_of_dom (D := gset nat)); apply is_fresh).
  assert (Hne : l1 <> l2).
  { intros E. rewrite <- E in N2. unfold hh1 in N2. now rewrite lookup_insert_eq in N2. }
  assert (N01 : h0 !! l1 = None) by (eapply lookup_weaken_None; eauto).
  assert (N02 : h0 !! l2 = None) by (eapply lookup_weaken_None; eauto).
  assert (Hne' : l2 <> l1) by (intros E; now apply Hne).
  clearbody l2. clearbody l1.
  wp_step. wp_step. cbn [heap add_log set_heap].
  rewrite lookup_insert_ne by assumption. unfold hh1 at 1. rewrite lookup_insert_eq.
  wp_step. wp_step. cbn [heap add_log set_heap].
  rewrite lookup_insert_ne by assumption. rewrite lookup_insert_eq.
  wp_step. wp_step. cbn [heap add_log set_heap].
  rewrite lookup_insert_eq.
  wp_step. wp_step. cbn [heap add_log set_heap].
  rewrite lookup_insert_ne by assumption. rewrite lookup_insert_ne by assumption.
  rewrite lookup_insert_eq.
  wp_step. wp_step. cbn [heap add_log set_heap].
  rewrite lookup_insert_eq.
  wp_step. wp_step. rewrite Hsm.
  pose proof (score_after_step (similarity piece) j s Hsm) as Hup.
  rewrite <- Hsc in Hup. cbn [fst snd] in Hup.
  destruct (update_score (ls_score st) (ls_last_vis_score st) s) as [score lastv].
  wp_step. wp_step. wp_step. wp_step. wp_step.
  unfold render_inv.
  cbn [ls_tch ls_stu ls_score ls_last_vis_score heap log add_log set_heap set_fs].
  split; [f_equal; lia |]. split; [f_equal; lia |]. split; [now symmetry |].
  split; [repeat apply insert_subseteq_r; assumption |].
  rewrite Hlog, seq_S, flat_map_app. cbn [flat_map Nat.add]. unfold iteration_events.
  rewrite Hup. cbn [snd]. rewrite app_nil_r, <- !app_assoc. reflexivity.
Qed.

(** The trace of a call whose piece fits the videos and the keypoints. *)
Lemma generate_output_video_trace `{Collaborators}
    (smooth : list (list joint) -> nat -> nat -> list joint)
    (tch_video stu_video out : string) (tk sk : nat) (piece : piece_info)
    (w : World) (tch stu : video) (tarr sarr : kpt_array) :
  fs w !! tch_video = Some (VideoFile tch) ->
  fs w !! stu_video = Some (VideoFile stu) ->
  heap w !! tk = Some (Arr3 tarr) -> heap w !! sk = Some (Arr3 sarr) ->
  piece_fits piece tch stu tarr sarr ->
  frames_have_height tch -> frames_have_height stu ->
  exists w',
    @generate_output_video _ (spec_smoother smooth)
      tch_video stu_video out tk sk piece w = (Ok out, w') /\
    log w' =
      log w ++ [EvVideoReader Teacher tch_video; EvVideoReader Student stu_video]
            ++ map (EvNext Teacher) (seq 0 (tch_start piece))
            ++ map (EvNext Student) (seq 0 (stu_start piece))
            ++ flat_map (iteration_events out tk sk piece) (seq 0 (length_ piece)).
Proof.
  intros Ht Hs Htk Hsk Hfit Hth Hsh.
  pose proof Hfit as [Hts [Hss _]].
  assert (Hts' : (0 + tch_start piece <= length (v_frames tch))%nat) by lia.
  assert (Hss' : (0 + stu_start piece <= length (v_frames stu))%nat) by lia.
  unfold generate_output_video.
  bind_step (VideoReader_value Teacher tch_video w _ Ht).
  bind_step (VideoReader_value Student stu_video
               (add_log (EvVideoReader Teacher tch_video) w) _ Hs).
  cbn [file_reader].
  rewrite (bind_ok _ _ _ _ _
             (skip_frames_ok (tch_start piece)
                (mkReader Teacher (v_fps tch) (v_frames tch) 0) _ Hts')).
  cbv beta. cbn [rd_who rd_fps rd_frames rd_pos Nat.add].
  rewrite (bind_ok _ _ _ _ _
             (skip_frames_ok (stu_start piece)
                (mkReader Student (v_fps stu) (v_frames stu) 0) _ Hss')).
  cbv beta. cbn [rd_who rd_fps rd_frames rd_pos Nat.add].
  set (w0 := extend_log _ (extend_log _ _)).
  pose proof (wp_for_range
                (@render_step _ (spec_smoother smooth) out tk sk piece)
                (render_inv out tk sk piece tch stu (heap w) (log w0))
                (fun _ _ => False) (length_ piece) 0
                (mkLoop (mkReader Teacher (v_fps tch) (v_frames tch) (tch_start piece))
                        (mkReader Student (v_fps stu) (v_frames stu) (stu_start piece))
                        0 0 false) w0) as Hloop.
  unfold wp in Hloop. unfold bind.
  destruct (for_range _ 0 (length_ piece) _ w0) as [[st | e] w'];
    cbn [fst snd] in Hloop.
  - exists w'. split; [reflexivity |].
    destruct Hloop as [_ [_ [_ [_ Hlog]]]].
    + intros j st0 w1 Hj Hinv.
      apply (render_step_ok smooth out tk sk piece tch stu tarr sarr);
        try assumption. lia.
    + unfold render_inv. cbn [ls_tch ls_stu ls_score ls_last_vis_score seq flat_map].
      rewrite !Nat.add_0_r, app_nil_r. now repeat split.
    + rewrite Hlog. unfold w0, extend_log, add_log. cbn [log Nat.add].
      now rewrite <- !app_assoc.
  - exfalso. apply Hloop.
    + intros j st0 w1 Hj Hinv.
      apply (render_step_ok smooth out tk sk piece tch stu tarr sarr);
        try assumption. lia.
    + unfold render_inv. cbn [ls_tch ls_stu ls_score ls_last_vis_score seq flat_map].
      rewrite !Nat.add_0_r, app_nil_r. now repeat split.
Qed.

Lemma reads_app (who : role) (a b : list event) :
  reads who (a ++ b) = reads who a ++ reads who b.
Proof. unfold reads. apply flat_map_app. Qed.

Lemma reads_next (who other : role) (l : list nat) :
  reads who (map (EvNext other) l) = if role_eqb who other then l else [].
Proof.
  induction l as [| x l IH]; [now destruct (role_eqb who other) |].
  cbn [map]. change (EvNext other x :: map (EvNext other) l)
    with ([EvNext other x] ++ map (EvNext other) l).
  rewrite reads_app, IH. unfold reads. cbn [flat_map].
  now destruct (role_eqb who other).
Qed.

Lemma reads_iterations (out : string) (tk sk : nat) (piece : piece_info) (n : nat) :
  forall a : nat,
  reads Teacher (flat_map (iteration_events out tk sk piece) (seq a n))
    = seq (tch_start piece + a) n /\
  reads Student (flat_map (iteration_events out tk sk piece) (seq a n))
    = seq (stu_start piece + a) n.
Proof.
  induction n as [| n IH]; intros a; [now split |].
  cbn [seq flat_map]. rewrite !reads_app.
  destruct (IH (S a)) as [-> ->]. rewrite !Nat.add_succ_r. now split.
Qed.



(** ** [generate_output_video]: the score *)

Lemma drawn_scores_app (a b : list event) :
  drawn_scores (a ++ b) = drawn_scores a ++ drawn_scores b.
Proof. unfold drawn_scores. apply flat_map_app. Qed.

Ltac drawn_simpl :=
  cbn [log heap fs add_log set_heap set_fs fst snd];
  rewrite ?drawn_scores_app; cbn [drawn_scores flat_map]; rewrite ?app_nil_r.

(** One iteration, whatever the smoother: either it raises before anything
    is drawn, or it draws the score on display after one more frame. *)
Lemma render_step_scores `{Collaborators} `{Smoother}
    (out : string) (tk sk : nat) (piece : piece_info) (d0 : list Z)
    (j : nat) (st : loop_state) (w : World) :
  (j < length_ piece)%nat ->
  score_inv (similarity piece) d0 j st w ->
  wp (render_step out tk sk piece j st)
     (fun r w' =>
        match r with
        | Ok st' => score_inv (similarity piece) d0 (S j) st' w'
        | Raise _ =>
            exists m, (m <= length (similarity piece))%nat /\
                      (m < length_ piece)%nat /\
                      drawn_scores (log w') =
                        d0 ++ map (fun i => Qtrunc (snd (score_after (similarity piece) (S i))))
                                  (seq 0 m)
        end) w.
Proof.
  intros Hj [Hsc [Hle Hd]].
  assert (Hexit : forall l, drawn_scores l = drawn_scores (log w) ->
            exists m, (m <= length (similarity piece))%nat /\
                      (m < length_ piece)%nat /\
                      drawn_scores l =
                        d0 ++ map (fun i => Qtrunc (snd (score_after (similarity piece) (S i))))
                                  (seq 0 m)).
  { intros l E. exists j. rewrite E, Hd. now repeat split. }
  unfold render_step.
  repeat (first [wp_step | wp_case]; cbn [log heap fs add_log set_heap set_fs fst snd];
          try (apply Hexit; drawn_simpl; reflexivity)).
  match goal with
  | Hr : match similarity piece !! j with _ => _ end = Ok ?s |- _ =>
      assert (Hs : similarity piece !! j = Some s)
        by (destruct (similarity piece !! j); [now inversion Hr | discriminate]);
      pose proof (score_after_step (similarity piece) j s Hs) as Hup
  end.
  rewrite <- Hsc in Hup. cbn [fst snd] in Hup. unfold update_score in Hup.
  unfold score_inv. cbn [ls_score ls_last_vis_score log add_log set_heap set_fs].
  split; [now symmetry |]. split; [apply lookup_lt_Some in Hs; lia |].
  drawn_simpl. rewrite Hd, seq_S, map_app, <- app_assoc. cbn [map Nat.add].
  rewrite Hup. reflexivity.
Qed.

Lemma Qsum_app (a b : list Q) : Qsum (a ++ b) == Qsum a + Qsum b.
Proof.
  unfold Qsum. induction a as [| x a IH]; simpl.
  - lra.
  - rewrite IH. lra.
Qed.

(** The running score is a thousand times the sum of the similarities. *)
Lemma score_after_sum (sims : list Q) (j : nat) :
  (j <= length sims)%nat ->
  fst (score_after sims j) == 1000 * Qsum (firstn j sims).
Proof.
  induction j as [| j IH]; intros Hj.
  - rewrite take_0. cbn. lra.
  - destruct (lookup_lt_is_Some_2 sims j ltac:(lia)) as [s Hs].
    rewrite (score_after_step sims j s Hs). unfold update_score. cbn [fst].
    rewrite (take_S_r sims j s Hs), Qsum_app, IH by lia.
    cbn [Qsum fold_right]. lra.
Qed.

Lemma Qtrunc_mono (a b : Q) : a <= b -> (Qtrunc a <= Qtrunc b)%Z.
Proof.
  destruct a as [n1 d1], b as [n2 d2]. unfold Qle, Qtrunc. cbn [Qnum Qden].
  intros Hle.
  rewrite <- (Z.quot_mul_cancel_r n1 (Z.pos d1) (Z.pos d2)) by lia.
  rewrite <- (Z.quot_mul_cancel_r n2 (Z.pos d2) (Z.pos d1)) by lia.
  rewrite (Z.mul_comm (Z.pos d2) (Z.pos d1)).
  apply Z.quot_le_mono; lia.
Qed.

(** The score on display moves up to the running score, and only when the
    running score is more than 1500 ahead. *)
Lemma update_score_display (score last s : Q) :
  snd (update_score score last s) =
    (if Qltb 1500 (fst (update_score score last s) - last)
     then fst (update_score score last s) else last) /\
  last <= snd (update_score score last s).
Proof.
  unfold update_score. cbn [fst snd]. split; [reflexivity |].
  destruct (Qltb 1500 (score + s * 1000 - last)) eqn:E; [| lra].
  apply Qltb_lt in E. lra.
Qed.

(** The local variables [score] and [last_vis_score] after [k] iterations of
    the rendering loop. *)
Lemma render_loop_scores `{Collaborators} `{Smoother}
    (out : string) (tk sk : nat) (piece : piece_info) (k : nat)
    (tr sr : reader) (w w' : World) (st : loop_state) :
  (k <= length_ piece)%nat ->
  for_range (render_step out tk sk piece) 0 k (mkLoop tr sr 0 0 false) w = (Ok st, w') ->
  (ls_score st, ls_last_vis_score st) = score_after (similarity piece) k.
Proof.
  intros Hk E.
  pose proof (wp_for_range (render_step out tk sk piece)
                (score_inv (similarity piece) (drawn_scores (log w)))
                (fun _ _ => True) k 0 (mkLoop tr sr 0 0 false) w) as Hloop.
  unfold wp in Hloop. rewrite E in Hloop. cbn [fst snd Nat.add] in Hloop.
  apply Hloop.
  - intros j st0 w0 Hj Hinv.
    eapply wp_mono; [| apply render_step_scores; [lia | exact Hinv]].
    now intros [st' | e] w1 H1.
  - unfold score_inv. cbn [ls_score ls_last_vis_score seq map].
    rewrite app_nil_r. repeat split. lia.
Qed.


(** ** [run]: the similarity engine and the smoother *)

Lemma extends_refl (P : event -> Prop) (w : World) : extends_with P (log w) w.
Proof. exists []. now rewrite app_nil_r. Qed.

Lemma extends_add_log (P : event -> Prop) (l0 : list event) (e : event) (w : World) :
  P e -> extends_with P l0 w -> extends_with P l0 (add_log e w).
Proof.
  intros He [evs [Hl Hall]]. exists (evs ++ [e]). cbn [log add_log].
  rewrite Hl, <- app_assoc. split; [reflexivity |].
  apply Forall_app. split; [exact Hall | now constructor].
Qed.

Lemma extends_same_log (P : event -> Prop) (l0 : list event) (w w' : World) :
  log w' = log w -> extends_with P l0 w -> extends_with P l0 w'.
Proof. intros E [evs [Hl Hall]]. exists evs. now rewrite E. Qed.

Lemma extends_trans (P : event -> Prop) (l0 : list event) (w w' : World) :
  extends_with P l0 w -> extends_with P (log w) w' -> extends_with P l0 w'.
Proof.
  intros [e1 [H1 A1]] [e2 [H2 A2]]. exists (e1 ++ e2).
  rewrite H2, H1, <- app_assoc. split; [reflexivity | now apply Forall_app].
Qed.

Lemma extends_set_heap (P : event -> Prop) (l0 : list event)
    (h : gmap nat ndarray) (w : World) :
  extends_with P l0 w -> extends_with P l0 (set_heap h w).
Proof. now apply extends_same_log. Qed.

Lemma extends_set_fs (P : event -> Prop) (l0 : list event)
    (f : gmap string file) (w : World) :
  extends_with P l0 w -> extends_with P l0 (set_fs f w).
Proof. now apply extends_same_log. Qed.

(** Closes a goal [extends_with P l0 w'] where [w'] is [w] after a few
    events and a few updates of the heap and of the file system. *)
Ltac extends_tac :=
  lazymatch goal with
  | |- extends_with _ _ _ =>
      repeat first
        [ assumption
        | apply extends_refl
        | apply extends_set_heap
        | apply extends_set_fs
        | apply extends_add_log; [try reflexivity; try (split; reflexivity) |] ]
  end.

(** The rendering never calls the similarity engine, whatever the
    smoother. *)
Lemma render_step_events `{Collaborators} `{Smoother}
    (out : string) (tk sk : nat) (piece : piece_info) (l0 : list event)
    (i : nat) (st : loop_state) (w : World) :
  extends_with (fun e => is_engine_event e = false) l0 w ->
  wp (render_step out tk sk piece i st)
     (fun _ w' => extends_with (fun e => is_engine_event e = false) l0 w') w.
Proof.
  intros Hw. unfold render_step.
  repeat (first [wp_step | wp_case]; cbn [fst snd]; try extends_tac).
Qed.

Lemma generate_output_video_events `{Collaborators} `{Smoother}
    (tch_video stu_video out : string) (tk sk : nat) (piece : piece_info) (w : World) :
  wp (generate_output_video tch_video stu_video out tk sk piece)
     (fun _ w' => extends_with (fun e => is_engine_event e = false) (log w) w') w.
Proof.
  set (P := fun e => is_engine_event e = false).
  assert (Hskip : forall n r w0, extends_with P (log w) w0 ->
            wp (skip_frames n r)
               (fun x w' => match x with
                            | Ok _ => extends_with P (log w) w'
                            | Raise _ => extends_with P (log w) w'
                            end) w0).
  { intros n r w0 Hw0.
    apply (wp_skip_frames (fun _ w' => extends_with P (log w) w')
             (fun _ w' => extends_with P (log w) w')); [| exact Hw0].
    intros r0 w1 H1. wp_step. wp_case; extends_tac. }
  unfold generate_output_video.
  wp_step. wp_step. wp_case; [| extends_tac].
  wp_step. wp_step. wp_case; [| extends_tac].
  wp_step. eapply wp_mono; [| apply (Hskip (tch_start piece)); extends_tac].
  intros [r1 | e1] w1 H1; [| exact H1].
  wp_step. eapply wp_mono; [| apply (Hskip (stu_start piece)); exact H1].
  intros [r2 | e2] w2 H2; [| exact H2].
  wp_step.
  eapply wp_mono;
    [| apply (wp_for_range _ (fun _ _ w' => extends_with P (log w) w')
                (fun _ w' => extends_with P (log w) w')); [| exact H2]].
  - intros [st | e] w3 H3; [| exact H3]. now wp_step.
  - intros j st w3 _ H3. eapply wp_mono; [| apply render_step_events; exact H3].
    now intros [st' | e] w4 H4.
Qed.

(** The extraction calls neither the similarity engine nor the smoother. *)
Lemma extract_frames_events `{Collaborators} (P : event -> Prop) (frames : list image) :
  (forall i, P (EvPose i)) -> (forall p, P (EvBuildInferencer p)) ->
  forall (i : nat) (l0 : list event) (w : World),
  extends_with P l0 w ->
  wp (extract_frames i frames) (fun _ w' => extends_with P l0 w') w.
Proof.
  intros Hpose Hbuild. induction frames as [| f rest IH]; intros i l0 w Hw.
  - exact Hw.
  - cbn [extract_frames]. wp_step. wp_step. wp_step.
    unfold wp at 1. rewrite get_keypoints_from_frame_value. cbn [fst snd].
    wp_step. eapply wp_mono; [| apply IH].
    + intros [ks | e] w1 H1; [wp_step; exact H1 | exact H1].
    + unfold pose_estimator. destruct (self_pose_estimator (add_log (EvPose i) w)) eqn:E.
      * cbn [snd]. now apply extends_add_log.
      * cbn [snd]. destruct Hw as [evs [Hl Hall]].
        exists (evs ++ [EvPose i; EvBuildInferencer (inferencers_built w)]).
        cbn [log add_log fs heap inferencers_built].
        rewrite Hl, <- !app_assoc. split; [reflexivity |].
        apply Forall_app. split; [exact Hall |]. now repeat constructor.
Qed.

Lemma get_keypoints_from_video_events `{Collaborators} `{FpsConverter}
    (video : string) (w : World) :
  wp (get_keypoints_from_video video)
     (fun _ w' =>
        extends_with (fun e => is_smooth_event e = false /\ is_engine_event e = false)
                     (log w) w') w.
Proof.
  set (P := fun e => is_smooth_event e = false /\ is_engine_event e = false).
  assert (Htail : forall frames w0, extends_with P (log w) w0 ->
            wp (extract_then_save frames (kpts_path video))
               (fun _ w' => extends_with P (log w) w') w0).
  { intros frames w0 Hw0. wp_step.
    eapply wp_mono; [| apply (extract_frames_events P frames); try exact Hw0;
                       intros; split; reflexivity].
    intros [ks | e] w1 H1; [| exact H1].
    wp_step. wp_step. wp_case; [| exact H1].
    wp_step. unfold wp at 1, alloc. cbn [fst snd].
    wp_step. unfold wp at 1, torch_save. cbn [fst snd].
    wp_step. extends_tac. }
  unfold get_keypoints_from_video.
  wp_step. unfold wp at 1, path_exists. cbn [fst snd].
  destruct (bool_decide (is_Some (fs w !! kpts_path video))).
  - unfold wp, torch_load, alloc.
    destruct (fs w !! kpts_path video) as [[v | k] |]; cbn [snd]; extends_tac.
  - wp_step. wp_step. wp_case; [| extends_tac].
    wp_step. destruct (fps_is_30 (file_reader Source f)) eqn:E30.
    + wp_step. rewrite E30. cbn [negb]. apply Htail. extends_tac.
    + wp_step. unfold wp at 1.
      destruct (convert_video_fps video (fs (add_log (EvVideoReader Source video) w)))
        as [p f']. cbn [fst snd].
      wp_step. wp_case; [| extends_tac].
      destruct (negb (fps_is_30 (file_reader Source f0))).
      * unfold wp, raise. cbn [snd]. extends_tac.
      * apply Htail. extends_tac.
Qed.

Lemma filter_engine_nil (evs : list event) :
  Forall (fun e => is_engine_event e = false) evs ->
  List.filter is_engine_event evs = [].
Proof.
  induction 1 as [| e evs He _ IH]; [reflexivity |].
  cbn [List.filter]. now rewrite He.
Qed.

Lemma filter_engine_quiet (evs : list event) :
  Forall (fun e => is_smooth_event e = false /\ is_engine_event e = false) evs ->
  List.filter is_engine_event evs = [] /\
  Forall (fun e => is_smooth_event e = false) evs.
Proof.
  intros Hall. split.
  - apply filter_engine_nil. eapply Forall_impl; [exact Hall |]. now intros e [_ He].
  - eapply Forall_impl; [exact Hall |]. now intros e [He _].
Qed.

(** The trace of a run, whatever the smoother: what comes before the
    rendering holds the calls of the engine and no smoothing, what comes with
    the rendering holds no call of the engine. *)
Lemma run_trace `{Collaborators} `{Engine} `{FpsConverter} (S : Smoother)
    (tch_video stu_video : string) (w : World) :
  exists pre post,
    log (snd (@run _ _ S _ tch_video stu_video w)) = log w ++ pre ++ post /\
    Forall (fun e => is_smooth_event e = false) pre /\
    Forall (fun e => is_engine_event e = false) post /\
    List.filter is_engine_event pre = engine_calls tch_video stu_video w.
Proof.
  unfold engine_calls, run.
  pose proof (get_keypoints_from_video_events tch_video w) as Hev1. unfold wp in Hev1.
  revert Hev1. unfold bind at 1.
  destruct (get_keypoints_from_video tch_video w) as [[lt | e1] w1]; cbn [fst snd];
    intros [evs1 [Hl1 Hq1]]; destruct (filter_engine_quiet evs1 Hq1) as [Hf1 Hs1].
  2:{ exists evs1, []. rewrite app_nil_r. now repeat split. }
  pose proof (get_keypoints_from_video_events stu_video w1) as Hev2. unfold wp in Hev2.
  revert Hev2. unfold bind at 1.
  destruct (get_keypoints_from_video stu_video w1) as [[ls | e2] w2]; cbn [fst snd];
    intros [evs2 [Hl2 Hq2]]; destruct (filter_engine_quiet evs2 Hq2) as [Hf2 Hs2].
  2:{ exists (evs1 ++ evs2), []. rewrite app_nil_r, Hl2, Hl1, <- app_assoc.
      rewrite List.filter_app, Hf1, Hf2. repeat split; try constructor.
      now apply Forall_app. }
  assert (Hl : log w2 = log w ++ (evs1 ++ evs2)) by (now rewrite Hl2, Hl1, <- app_assoc).
  assert (Hs : Forall (fun e => is_smooth_event e = false) (evs1 ++ evs2))
    by (now apply Forall_app).
  assert (Hf : List.filter is_engine_event (evs1 ++ evs2) = [])
    by (now rewrite List.filter_app, Hf1, Hf2).
  clear Hl1 Hl2 Hq1 Hq2 Hf1 Hf2 Hs1 Hs2.
  unfold bind at 1, deref at 1.
  destruct (heap w2 !! lt) as [ta |].
  2:{ exists (evs1 ++ evs2), []. rewrite app_nil_r. cbn [snd]. now repeat split. }
  unfold bind at 1, deref at 1.
  destruct (heap w2 !! ls) as [sa |].
  2:{ exists (evs1 ++ evs2), []. rewrite app_nil_r. cbn [snd]. now repeat split. }
  unfold bind at 1, emit at 1. unfold bind at 1, lift at 1.
  destruct (calculate_similarity ta sa) as [m | e3] eqn:Ecalc.
  2:{ exists ((evs1 ++ evs2) ++ [EvSimilarity (Raise e3)]), [].
      cbn [snd log add_log]. rewrite app_nil_r.
      split; [now rewrite Hl, <- !app_assoc |]. split; [| split; [constructor |]].
      - apply Forall_app. split; [exact Hs | now repeat constructor].
      - rewrite List.filter_app, Hf. reflexivity. }
  unfold bind at 1, emit at 1. unfold bind at 1, lift at 1.
  assert (Hpre : Forall (fun e => is_smooth_event e = false)
                   ((evs1 ++ evs2) ++ [EvSimilarity (Ok m);
                                       EvSelectPiece (select_piece_from_similarity m)])).
  { apply Forall_app. split; [exact Hs | now repeat constructor]. }
  assert (Hfilter : List.filter is_engine_event
                      ((evs1 ++ evs2) ++ [EvSimilarity (Ok m);
                                          EvSelectPiece (select_piece_from_similarity m)])
                    = [EvSimilarity (Ok m); EvSelectPiece (select_piece_from_similarity m)]).
  { rewrite List.filter_app, Hf. reflexivity. }
  destruct (select_piece_from_similarity m) as [piece | e4] eqn:Esel.
  2:{ exists ((evs1 ++ evs2) ++ [EvSimilarity (Ok m); EvSelectPiece (Raise e4)]), [].
      cbn [snd log add_log]. rewrite app_nil_r.
      split; [now rewrite Hl, <- !app_assoc |].
      split; [exact Hpre |]. split; [constructor | exact Hfilter]. }
  unfold bind at 1. cbn [fst snd].
  match goal with
  | |- context [generate_output_video ?a ?b ?c ?d ?e ?f ?w0] =>
      pose proof (generate_output_video_events a b c d e f w0) as Hev3
  end.
  unfold wp in Hev3. destruct Hev3 as [evs3 [Hl3 Hq3]].
  exists ((evs1 ++ evs2) ++ [EvSimilarity (Ok m); EvSelectPiece (Ok piece)]), evs3.
  split; [rewrite Hl3; cbn [log add_log]; now rewrite Hl, <- !app_assoc |].
  split; [exact Hpre |]. split; [exact Hq3 | exact Hfilter].
Qed.

Lemma extract_then_save_heap `{Collaborators}
    (frames : list image) (cache : string) (w : World) :
  heap w ⊆ heap (snd (extract_then_save frames cache w)).
Proof.
  destruct frames as [| f rest].
  - now rewrite extract_nothing.
  - destruct (extract_and_save (f :: rest) cache w) as [w' [evs [E [Hh _]]]];
      [congruence |].
    rewrite E. cbn [snd]. rewrite Hh. apply insert_subseteq.
    apply (not_elem_of_dom (D := gset nat)). apply is_fresh.
Qed.

(** An extraction leaves the arrays that exist as they are. *)
Lemma get_keypoints_from_video_heap `{Collaborators} `{FpsConverter}
    (video : string) (w : World) :
  heap w ⊆ heap (snd (get_keypoints_from_video video w)).
Proof.
  destruct (fs w !! kpts_path video) as [[v | k] |] eqn:Hc.
  - unfold get_keypoints_from_video.
    rewrite (bind_ok _ _ _ _ _ (path_exists_value (kpts_path video) w)).
    cbv beta. rewrite bool_decide_eq_true_2 by (rewrite Hc; now eexists).
    unfold torch_load. now rewrite Hc.
  - rewrite (get_keypoints_from_video_hit video w k Hc). cbn [snd heap set_heap add_log].
    apply insert_subseteq. apply (not_elem_of_dom (D := gset nat)). apply is_fresh.
  - destruct (fs w !! video) as [f |] eqn:Ef.
    + destruct (fps_is_30 (file_reader Source f)) eqn:E30.
      * rewrite (get_keypoints_from_video_at_30 video w f Hc Ef E30).
        apply (extract_then_save_heap _ _ (add_log (EvVideoReader Source video) w)).
      * destruct (convert_video_fps video (fs w)) as [p f'] eqn:Ec.
        rewrite (get_keypoints_from_video_converted video w f p f' Hc Ef E30 Ec).
        destruct (f' !! p) as [g |]; [| reflexivity].
        destruct (fps_is_30 (file_reader Source g)); [| reflexivity].
        apply (extract_then_save_heap _ _
                 (add_log (EvVideoReader Source p) (converted_world video f' w))).
    + now rewrite (get_keypoints_from_video_no_video video w Hc Ef).
Qed.

(** C4.  In a run over a teacher and a student video, the similarity matrix
    and the piece are computed before the rendering starts and from the
    arrays that the two extractions returned, as they returned them: the
    trace of the run splits into a first part, which holds the calls of
    [calculate_similarity] and [select_piece_from_similarity] and no call of
    [get_smoothed_kpt], and the rendering, which holds no call of the
    engine.  So the matrix and the piece are the same whatever the smoother
    does, be it to its own output or to the heap. *)
Theorem run_similarity_before_smoothing `{Collaborators} `{Engine} `{FpsConverter}
    (S1 S2 : Smoother) (tch_video stu_video : string) (w : World) :
  (exists pre post,
     log (snd (@run _ _ S1 _ tch_video stu_video w)) = log w ++ pre ++ post /\
     Forall (fun e => is_smooth_event e = false) pre /\
     Forall (fun e => is_engine_event e = false) post /\
     List.filter is_engine_event pre = engine_calls tch_video stu_video w) /\
  (forall tch_kpts w1 stu_kpts w2,
     get_keypoints_from_video tch_video w = (Ok tch_kpts, w1) ->
     get_keypoints_from_video stu_video w1 = (Ok stu_kpts, w2) ->
     exists tk sk,
       heap w1 !! tch_kpts = Some (Arr3 tk) /\
       heap w2 !! stu_kpts = Some (Arr3 sk) /\
       engine_calls tch_video stu_video w =
         EvSimilarity (calculate_similarity (Arr3 tk) (Arr3 sk))
         :: match calculate_similarity (Arr3 tk) (Arr3 sk) with
            | Ok m => [EvSelectPiece (select_piece_from_similarity m)]
            | Raise _ => []
            end) /\
  List.filter is_engine_event (log (snd (@run _ _ S1 _ tch_video stu_video w))) =
  List.filter is_engine_event (log (snd (@run _ _ S2 _ tch_video stu_video w))).
Proof.
  split; [apply run_trace |]. split.
  - intros lt w1 ls w2 E1 E2.
    destruct (get_keypoints_from_video_ok tch_video w w1 lt E1) as [tk [Ht _]].
    destruct (get_keypoints_from_video_ok stu_video w1 w2 ls E2) as [sk [Hs _]].
    exists tk, sk. split; [exact Ht |]. split; [exact Hs |].
    pose proof (get_keypoints_from_video_heap stu_video w1) as Hsub.
    rewrite E2 in Hsub. cbn [snd] in Hsub.
    unfold engine_calls. rewrite E1, E2.
    now rewrite (lookup_weaken _ _ _ _ Ht Hsub), Hs.
  - destruct (run_trace S1 tch_video stu_video w) as [p1 [q1 [L1 [_ [Q1 F1]]]]].
    destruct (run_trace S2 tch_video stu_video w) as [p2 [q2 [L2 [_ [Q2 F2]]]]].
    rewrite L1, L2, !List.filter_app, F1, F2.
    now rewrite (filter_engine_nil q1 Q1), (filter_engine_nil q2 Q2).
Qed.

(** ** The alignment selector on identical sequences *)

Lemma candidates_spec (min_len n_stu n_tch : nat) (c : segment) :
  In c (candidates min_len n_stu n_tch) <->
  (sg_tch c + sg_len c <= n_tch)%nat /\ (sg_stu c + sg_len c <= n_stu)%nat /\
  (1 <= sg_len c)%nat /\ (min_len <= sg_len c)%nat.
Proof.
  unfold candidates. rewrite in_flat_map. split.
  - intros [ts [Hts Hin]]. apply in_flat_map in Hin. destruct Hin as [ss [Hss Hin]].
    apply in_map_iff in Hin. destruct Hin as [len [<- Hlen]].
    apply List.filter_In in Hlen. destruct Hlen as [Hlen Hmin].
    apply in_seq in Hts, Hss, Hlen. apply Nat.leb_le in Hmin. cbn [sg_tch sg_stu sg_len]. lia.
  - intros [Ht [Hs [H1 Hmin]]]. exists (sg_tch c). split; [apply in_seq; lia |].
    apply in_flat_map. exists (sg_stu c). split; [apply in_seq; lia |].
    apply in_map_iff. exists (sg_len c). split; [now destruct c |].
    apply List.filter_In. split; [apply in_seq; lia | now apply Nat.leb_le].
Qed.

Lemma Qsum_le (b : Q) (l : list Q) :
  Forall (fun v => v <= b) l -> Qsum l <= inject_Z (Z.of_nat (length l)) * b.
Proof.
  unfold Qsum. induction 1 as [| v l Hv _ IH].
  - cbn [fold_right length]. change (inject_Z (Z.of_nat 0)) with 0. lra.
  - cbn [fold_right length]. rewrite Nat2Z.inj_succ, <- Z.add_1_r, inject_Z_plus.
    change (inject_Z 1) with 1. lra.
Qed.

Lemma Qsum_eq (b : Q) (l : list Q) :
  Forall (fun v => v == b) l -> Qsum l == inject_Z (Z.of_nat (length l)) * b.
Proof.
  unfold Qsum. induction 1 as [| v l Hv _ IH].
  - cbn [fold_right length]. change (inject_Z (Z.of_nat 0)) with 0. lra.
  - cbn [fold_right length]. rewrite Nat2Z.inj_succ, <- Z.add_1_r, inject_Z_plus.
    change (inject_Z 1) with 1. lra.
Qed.

Lemma build_matrix_nth {pose : Type} (sim : pose -> pose -> Q)
    (teacher student : list pose) (d : pose) (i j : nat) :
  (i < length student)%nat -> (j < length teacher)%nat ->
  nth j (nth i (build_matrix sim teacher student) []) 0 =
  sim (nth i student d) (nth j teacher d).
Proof.
  intros Hi Hj. unfold build_matrix.
  rewrite (nth_indep _ [] (map (fun t => sim d t) teacher)) by (now rewrite length_map).
  rewrite (map_nth (fun s => map (fun t => sim s t) teacher) student d i).
  rewrite (nth_indep _ 0 (sim (nth i student d) d)) by (now rewrite length_map).
  apply (map_nth (fun t => sim (nth i student d) t)).
Qed.

(** A sequence that is not empty gives a pose to name. *)
Lemma nonempty_inhabited {A : Type} (l : list A) :
  (0 < length l)%nat -> inhabited A.
Proof. destruct l as [| a l]; [cbn; lia | now constructor]. Qed.

Section Identical.
Context {pose : Type}.
Variables (sim : pose -> pose -> Q) (smax : Q) (poses : list pose).
Hypothesis sim_le : forall p q, In p poses -> In q poses -> sim p q <= smax.
Hypothesis sim_self : forall p, In p poses -> sim p p == smax.

Let m := build_matrix sim poses poses.
Let n := length poses.
Let full := mkSeg 0 0 n.

Lemma seg_values_le (c : segment) :
  (sg_tch c + sg_len c <= n)%nat -> (sg_stu c + sg_len c <= n)%nat ->
  Forall (fun v => v <= smax) (seg_values m c).
Proof.
  intros Ht Hs. apply List.Forall_forall. intros v Hv. unfold seg_values in Hv.
  apply in_map_iff in Hv. destruct Hv as [k [<- Hk]]. apply in_seq in Hk.
  destruct (nonempty_inhabited poses) as [d]; [fold n; lia |].
  unfold m. rewrite (build_matrix_nth sim poses poses d) by (fold n; lia).
  apply sim_le; apply nth_In; fold n; lia.
Qed.

Lemma seg_values_full : seg_values m full = map (fun p => sim p p) poses.
Proof.
  unfold seg_values, full. cbn [sg_tch sg_stu sg_len Nat.add].
  apply (nth_ext _ _ 0 0).
  - now rewrite !length_map, length_seq.
  - intros k Hk. rewrite length_map, length_seq in Hk.
    destruct (nonempty_inhabited poses) as [d]; [fold n; lia |].
    rewrite (nth_indep _ 0 (nth 0 (nth 0 m []) 0)) by (now rewrite length_map, length_seq).
    rewrite (map_nth (fun k => nth k (nth k m []) 0) (seq 0 n) 0%nat k).
    rewrite seq_nth by exact Hk. cbn [Nat.add].
    unfold m. rewrite (build_matrix_nth sim poses poses d) by exact Hk.
    rewrite (nth_indep _ 0 (sim d d)) by (now rewrite length_map).
    symmetry. apply (map_nth (fun p => sim p p)).
Qed.

Lemma seg_score_le (c : segment) :
  (sg_tch c + sg_len c <= n)%nat -> (sg_stu c + sg_len c <= n)%nat ->
  (1 <= sg_len c)%nat ->
  seg_score m c <= smax.
Proof.
  intros Ht Hs H1. unfold seg_score.
  pose proof (Qsum_le smax _ (seg_values_le c Ht Hs)) as Hsum.
  unfold seg_values in Hsum at 2. rewrite length_map, length_seq in Hsum.
  apply Qle_shift_div_r.
  - change 0 with (inject_Z 0). rewrite <- Zlt_Qlt. lia.
  - lra.
Qed.

Lemma seg_score_full : (1 <= n)%nat -> seg_score m full == smax.
Proof.
  intros H1. unfold seg_score. rewrite seg_values_full.
  assert (Hall : Forall (fun v => v == smax) (map (fun p => sim p p) poses)).
  { apply List.Forall_forall. intros v Hv. apply in_map_iff in Hv.
    destruct Hv as [p [<- Hp]]. now apply sim_self. }
  rewrite (Qsum_eq smax _ Hall), length_map. fold n. cbn [sg_len full].
  assert (Hn : ~ inject_Z (Z.of_nat n) == 0).
  { change 0 with (inject_Z 0). rewrite inject_Z_injective. lia. }
  field. exact Hn.
Qed.

Lemma full_candidate (min_len : nat) :
  (1 <= n)%nat -> (min_len <= n)%nat -> In full (candidates min_len n n).
Proof. intros H1 Hm. apply candidates_spec. cbn [full sg_tch sg_stu sg_len]. lia. Qed.

Lemma shorter_than_full (min_len : nat) (c : segment) :
  In c (candidates min_len n n) -> c <> full -> (sg_len c < n)%nat.
Proof.
  intros Hc Hne. apply candidates_spec in Hc. destruct Hc as [Ht [Hs [H1 _]]].
  destruct (Nat.eq_dec (sg_len c) n) as [E | E]; [| lia].
  exfalso. apply Hne. destruct c as [ts ss len]. cbn [sg_tch sg_stu sg_len] in *.
  unfold full. f_equal; lia.
Qed.

Lemma better_full (min_len : nat) (c : segment) :
  In c (candidates min_len n n) -> c <> full -> better m full c = true.
Proof.
  intros Hc Hne. pose proof (shorter_than_full min_len c Hc Hne) as Hlen.
  apply candidates_spec in Hc. destruct Hc as [Ht [Hs [H1 _]]].
  pose proof (seg_score_le c Ht Hs H1) as Hle.
  pose proof (seg_score_full ltac:(lia)) as Hfull.
  unfold better.
  destruct (Qcompare_spec (seg_score m full) (seg_score m c)) as [E | E | E].
  - cbn [full sg_len]. now apply Nat.ltb_lt in Hlen as ->.
  - lra.
  - reflexivity.
Qed.

Lemma full_unbeaten (min_len : nat) (c : segment) :
  In c (candidates min_len n n) -> better m c full = false.
Proof.
  intros Hc. pose proof Hc as Hc'.
  apply candidates_spec in Hc. destruct Hc as [Ht [Hs [H1 _]]].
  pose proof (seg_score_le c Ht Hs H1) as Hle.
  pose proof (seg_score_full ltac:(lia)) as Hfull.
  unfold better.
  destruct (Qcompare_spec (seg_score m c) (seg_score m full)) as [E | E | E].
  - cbn [full sg_len sg_tch].
    destruct (Nat.ltb_spec n (sg_len c)); [lia |].
    destruct (Nat.ltb_spec (sg_len c) n); [reflexivity |].
    assert (Ec : c = full).
    { destruct c as [ts ss len]. cbn [sg_tch sg_stu sg_len] in *.
      unfold full. f_equal; lia. }
    rewrite Ec. unfold abs_offset, full. cbn [sg_tch sg_stu]. reflexivity.
  - reflexivity.
  - lra.
Qed.
End Identical.

Lemma segment_eq_dec (a b : segment) : {a = b} + {a <> b}.
Proof. decide equality; apply Nat.eq_dec. Qed.

Lemma best_segment_is (m : matrix) (full : segment) (cs : list segment) :
  forall c : segment,
  (forall c', In c' (c :: cs) -> better m c' full = false) ->
  (forall c', In c' (c :: cs) -> c' <> full -> better m full c' = true) ->
  In full (c :: cs) ->
  best_segment m c cs = full.
Proof.
  induction cs as [| x rest IH]; intros c Hun Hwin Hin.
  - destruct Hin as [-> | []]. reflexivity.
  - unfold best_segment. cbn [fold_left]. fold (best_segment m (if better m x c then x else c) rest).
    apply IH.
    + intros c' [<- | Hc']; [| apply Hun; now right; right].
      destruct (better m x c); apply Hun; [right; now left | now left].
    + intros c' [<- | Hc'] Hne; [| apply Hwin; [now right; right | exact Hne]].
      destruct (better m x c); apply Hwin; try exact Hne; [right; now left | now left].
    + destruct (segment_eq_dec c full) as [-> | Hc].
      * rewrite (Hun x) by (right; now left). now left.
      * destruct Hin as [-> | [-> | Hin]]; [congruence | | now right].
        rewrite (Hwin c) by (first [now left | exact Hc]). now left.
Qed.





(** ** The properties on the sample world *)


Example blend_images_sample :
  blend_images frame_dancer sample_overlay (1, 0.3)
    = mkImage (1, 1, 3)%nat (U8 [238; 163; 0]%Z).
Proof. vm_compute. reflexivity. Qed.

Example blend_images_negative_ratio :
  blend_images frame_dancer sample_overlay (-(5), 700)
    = mkImage (1, 1, 3)%nat (U8 [255; 255; 0]%Z).
Proof. vm_compute. reflexivity. Qed.

(** The three outcomes of [get_keypoints_from_frame]. *)
Example get_keypoints_from_frame_sample :
  fst (@get_keypoints_from_frame sample_collaborators frame_empty sample_world)
    = Ok zeros_1_17_3 /\
  fst (@get_keypoints_from_frame sample_collaborators frame_blur sample_world)
    = Ok zeros_1_17_3 /\
  fst (@get_keypoints_from_frame sample_collaborators frame_dancer sample_world)
    = Ok (mkKpts float32 [repeat (mkJoint 3 4 (inject_Z 200 / 255)) 17]).
Proof. vm_compute. repeat split. Qed.

(** The teacher's keypoints after a rendering of the sample piece. *)
Lemma generate_output_video_keeps_kpts_witness :
  heap (snd (@generate_output_video sample_collaborators (spec_smoother sample_smooth)
               "teacher.mp4" "student.mp4" "out.mp4" 0 1 sample_piece
               sample_render_world)) !! 0%nat
  = Some (Arr3 (mkKpts float32 [sample_row 1; sample_row 2; sample_row 3])).
Proof.
  apply generate_output_video_keeps_kpts. vm_compute. reflexivity.
Defined.


(** A score that moves in steps: five frames of similarity 0.4 each. *)
Example score_track_sample :
  map (fun st => Qtrunc (snd st)) (score_track [0.4; 0.4; 0.4; 0.4; 0.4] (0, 0))
    = [0; 0; 0; 1600; 1600]%Z.
Proof. vm_compute. reflexivity. Qed.

(** A run on the sample world, with two smoothers. *)
Lemma run_similarity_before_smoothing_witness :
  List.filter is_engine_event
    (log (snd (@run sample_collaborators sample_engine (spec_smoother sample_smooth)
                 sample_converter "teacher.mp4" "student.mp4" sample_world))) =
  List.filter is_engine_event
    (log (snd (@run sample_collaborators sample_engine
                 (spec_smoother (fun _ _ _ => []))
                 sample_converter "teacher.mp4" "student.mp4" sample_world))).
Proof.
  apply (@run_similarity_before_smoothing sample_collaborators sample_engine
           sample_converter).
Defined.

(* ===================================================================== *)
(** * Part III. Further properties                                        *)
(* ===================================================================== *)

(** ** Paths *)

Lemma chars_append (a b : string) : chars (a +:+ b) = chars a ++ chars b.
Proof.
  unfold chars. induction a as [| c a IH]; [reflexivity |].
  simpl. f_equal. exact IH.
Qed.

Lemma chars_inj (a b : string) : chars a = chars b -> a = b.
Proof.
  unfold chars. intros E.
  rewrite <- (String.string_of_list_ascii_of_string a),
          <- (String.string_of_list_ascii_of_string b).
  now rewrite E.
Qed.

Lemma of_chars (s : string) : String.string_of_list_ascii (chars s) = s.
Proof. apply String.string_of_list_ascii_of_string. Qed.

Lemma cut_at_found (c : Ascii.ascii) (x y : list Ascii.ascii) :
  ~ In c x -> cut_at c (x ++ c :: y) = Some (x, y).
Proof.
  induction x as [| a x IH]; intros Hx.
  - cbn [app cut_at]. now rewrite Ascii.eqb_refl.
  - cbn [app cut_at].
    destruct (Ascii.eqb_spec a c) as [-> | Hne]; [exfalso; apply Hx; now left |].
    rewrite IH; [reflexivity |]. intros Hin. apply Hx. now right.
Qed.

Lemma cut_at_missing (c : Ascii.ascii) (x : list Ascii.ascii) :
  ~ In c x -> cut_at c x = None.
Proof.
  induction x as [| a x IH]; intros Hx; [reflexivity |].
  cbn [cut_at].
  destruct (Ascii.eqb_spec a c) as [-> | Hne]; [exfalso; apply Hx; now left |].
  rewrite IH; [reflexivity |]. intros Hin. apply Hx. now right.
Qed.

(** [(stem + '.' + ext).rsplit('.', 1)[0]] is [stem] when [ext] has no dot. *)
Lemma rsplit_dot_head_ext (stem ext : string) :
  ~ In "."%char (chars ext) ->
  rsplit_dot_head (stem +:+ "." +:+ ext) = stem.
Proof.
  intros Hext. unfold rsplit_dot_head. fold (chars (stem +:+ "." +:+ ext)).
  rewrite !chars_append. change (chars ".") with ["."%char].
  rewrite rev_app_distr. cbn [app rev]. rewrite <- app_assoc. cbn [app].
  rewrite cut_at_found by (now rewrite <- in_rev).
  rewrite rev_involutive. apply of_chars.
Qed.

Lemma basename_dir (dir name : string) :
  ~ In "/"%char (chars name) ->
  basename (dir +:+ "/" +:+ name) = name.
Proof.
  intros Hn. unfold basename. fold (chars (dir +:+ "/" +:+ name)).
  rewrite !chars_append. change (chars "/") with ["/"%char].
  rewrite rev_app_distr. cbn [app rev]. rewrite <- app_assoc. cbn [app].
  rewrite cut_at_found by (now rewrite <- in_rev).
  rewrite rev_involutive. apply of_chars.
Qed.

Lemma basename_no_dir (s : string) :
  ~ In "/"%char (chars s) -> basename s = s.
Proof.
  intros Hs. unfold basename. fold (chars s).
  now rewrite cut_at_missing by (now rewrite <- in_rev).
Qed.

(** The last component of a path that is a bare name or lies in a
    directory. *)
Lemma basename_prefix (dir name : string) :
  dir = "" \/ (exists d, dir = d +:+ "/") ->
  ~ In "/"%char (chars name) ->
  basename (dir +:+ name) = name.
Proof.
  intros [-> | [d ->]] Hn.
  - now apply basename_no_dir.
  - replace ((d +:+ "/") +:+ name) with (d +:+ "/" +:+ name).
    + now apply basename_dir.
    + apply chars_inj. rewrite !chars_append. now rewrite <- app_assoc.
Qed.

(** The cache file is named after the video without its extension. *)
Lemma kpts_path_ext (stem ext : string) :
  ~ In "."%char (chars ext) ->
  kpts_path (stem +:+ "." +:+ ext) = stem +:+ "_kpts.pth".
Proof. intros Hext. unfold kpts_path. now rewrite rsplit_dot_head_ext. Qed.

(** ** [get_keypoints_from_video]: the inferencer *)

Lemma pose_estimator_fields (w : World) :
  self_pose_estimator (snd (pose_estimator w)) = Some (estimator_after w) /\
  inferencers_built (snd (pose_estimator w)) =
    (inferencers_built w + estimators_to_build w)%nat.
Proof.
  unfold pose_estimator, estimator_after, estimators_to_build.
  destruct (self_pose_estimator w) eqn:E; cbn [snd self_pose_estimator inferencers_built].
  - split; [exact E | lia].
  - split; [reflexivity | lia].
Qed.

(** The world after the extraction of a first frame and of the rest. *)
Lemma extract_frames_cons_world `{Collaborators}
    (f : image) (rest : list image) (i : nat) (w : World) :
  snd (extract_frames i (f :: rest) w) =
  snd (extract_frames (S i) rest (snd (pose_estimator (add_log (EvPose i) w)))).
Proof.
  cbn [extract_frames]. unfold bind, emit, ret.
  rewrite get_keypoints_from_frame_value.
  now destruct (extract_frames (S i) rest _) as [[ks | e] w1].
Qed.

(** Once the instance holds an inferencer the extraction loop leaves it
    alone. *)
Lemma extract_frames_keeps_estimator `{Collaborators} (frames : list image) :
  forall (i : nat) (w : World) (p : nat),
  self_pose_estimator w = Some p ->
  self_pose_estimator (snd (extract_frames i frames w)) = Some p /\
  inferencers_built (snd (extract_frames i frames w)) = inferencers_built w.
Proof.
  induction frames as [| f rest IH]; intros i w p Hp; [now split |].
  rewrite extract_frames_cons_world.
  assert (Hp' : self_pose_estimator (add_log (EvPose i) w) = Some p) by exact Hp.
  rewrite (pose_estimator_set _ p Hp'). cbn [snd].
  apply (IH (S i) (add_log (EvPose i) w) p Hp').
Qed.

(** The extraction loop reads the property once per frame: the first frame
    builds the inferencer if the instance has none. *)
Lemma extract_frames_estimator `{Collaborators} (frames : list image) (i : nat) (w : World) :
  frames <> [] ->
  self_pose_estimator (snd (extract_frames i frames w)) = Some (estimator_after w) /\
  inferencers_built (snd (extract_frames i frames w)) =
    (inferencers_built w + estimators_to_build w)%nat.
Proof.
  destruct frames as [| f rest]; [congruence | intros _].
  rewrite extract_frames_cons_world.
  destruct (pose_estimator_fields (add_log (EvPose i) w)) as [Hp Hb].
  change (estimator_after (add_log (EvPose i) w)) with (estimator_after w) in Hp.
  change (estimators_to_build (add_log (EvPose i) w)) with (estimators_to_build w) in Hb.
  cbn [inferencers_built add_log] in Hb.
  destruct (extract_frames_keeps_estimator rest (S i) _ _ Hp) as [H1 H2].
  split; congruence.
Qed.

(** The file system, the heap and the inferencer after the second half of
    the call, for a reader that has frames. *)
Lemma extract_then_save_world `{Collaborators}
    (frames : list image) (cache : string) (w : World) :
  frames <> [] ->
  exists w' evs,
    extract_then_save frames cache w = (Ok (fresh (dom (heap w))), w') /\
    heap w' = <[fresh (dom (heap w)) := Arr3 (video_keypoints frames)]> (heap w) /\
    fs w' = <[cache := TorchFile (video_keypoints frames)]> (fs w) /\
    log w' = log w ++ evs ++ [EvTorchSave cache] /\
    pose_indices evs = seq 0 (length frames) /\
    self_pose_estimator w' = Some (estimator_after w) /\
    inferencers_built w' = (inferencers_built w + estimators_to_build w)%nat.
Proof.
  intros Hne.
  destruct (extract_frames_value frames 0 w) as [w1 [evs [E [Hf [Hh [Hl [Hp Hio]]]]]]].
  destruct (extract_frames_estimator frames 0 w Hne) as [He Hb].
  rewrite E in He, Hb. cbn [snd] in He, Hb.
  eexists. exists evs. unfold bind at 1. rewrite E.
  unfold bind at 1. unfold lift at 1. rewrite (np_concatenate_frames frames Hne).
  unfold bind, alloc, torch_save, ret. cbn [fst snd].
  rewrite Hh. split; [reflexivity |].
  cbn [heap fs log set_heap set_fs add_log self_pose_estimator inferencers_built].
  rewrite Hf, Hl, <- app_assoc. now repeat split.
Qed.

(** The first half of a call that finds no cache: the reader it ends up
    with, and the world in which the extraction starts. *)
Lemma get_keypoints_from_video_staged `{Collaborators} `{FpsConverter}
    (video : string) (w : World) :
  fs w !! kpts_path video = None ->
  exists (w0 : World) (evs0 : list event),
    log w0 = log w ++ evs0 /\ pose_indices evs0 = [] /\
    Forall (fun e => forall p, e <> EvTorchSave p) evs0 /\
    heap w0 = heap w /\
    self_pose_estimator w0 = self_pose_estimator w /\
    inferencers_built w0 = inferencers_built w /\
    (fs w0 = fs w \/ fs w0 = snd (convert_video_fps video (fs w))) /\
    get_keypoints_from_video video w =
      match extraction_reader video (fs w) with
      | None => (Raise FileNotFoundError, w0)
      | Some rd =>
          if fps_is_30 rd
          then extract_then_save (rd_frames rd) (kpts_path video) w0
          else (Raise AssertionError, w0)
      end.
Proof.
  intros Hc. unfold extraction_reader.
  destruct (fs w !! video) as [f |] eqn:Ef.
  - destruct (fps_is_30 (file_reader Source f)) eqn:E30.
    + exists (add_log (EvVideoReader Source video) w), [EvVideoReader Source video].
      rewrite E30.
      rewrite (get_keypoints_from_video_at_30 video w f Hc Ef E30).
      split_and!; try reflexivity; try (now left).
      repeat constructor; discriminate.
    + destruct (convert_video_fps video (fs w)) as [p f'] eqn:Ec.
      rewrite (get_keypoints_from_video_converted video w f p f' Hc Ef E30 Ec).
      destruct (f' !! p) as [g |] eqn:Eg; cbn [fmap option_fmap option_map].
      * exists (add_log (EvVideoReader Source p) (converted_world video f' w)),
               [EvVideoReader Source video; EvConvertFps video; EvVideoReader Source p].
        split_and!; try reflexivity; try (now right);
          try (cbn; now rewrite <- !app_assoc);
          try (repeat constructor; discriminate).
      * exists (converted_world video f' w),
               [EvVideoReader Source video; EvConvertFps video].
        split_and!; try reflexivity; try (now right);
          try (cbn; now rewrite <- !app_assoc);
          repeat constructor; discriminate.
  - exists w, []. rewrite app_nil_r.
    rewrite (get_keypoints_from_video_no_video video w Hc Ef).
    split_and!; try reflexivity; try (now left); constructor.
Qed.

Lemma estimator_step_refl (w : World) : estimator_step w w.
Proof.
  exists []. rewrite app_nil_r. cbn [pose_indices flat_map].
  split; [reflexivity |]. split; [destruct (self_pose_estimator w); lia | reflexivity].
Qed.

(** A step that extracts nothing and leaves the instance alone. *)
Lemma estimator_step_quiet (w w' : World) (evs : list event) :
  log w' = log w ++ evs -> pose_indices evs = [] ->
  self_pose_estimator w' = self_pose_estimator w ->
  inferencers_built w' = inferencers_built w ->
  estimator_step w w'.
Proof.
  intros Hl Hp He Hb. exists evs. rewrite Hp.
  split; [exact Hl |]. split; [destruct (self_pose_estimator w); lia | exact He].
Qed.

Lemma estimator_step_trans (w w1 w2 : World) :
  estimator_step w w1 -> estimator_step w1 w2 -> estimator_step w w2.
Proof.
  intros [e1 [L1 [B1 P1]]] [e2 [L2 [B2 P2]]]. exists (e1 ++ e2).
  split; [rewrite L2, L1; now rewrite <- app_assoc |].
  rewrite pose_indices_app.
  unfold estimator_after in *.
  destruct (pose_indices e1) as [| i1 r1]; destruct (pose_indices e2) as [| i2 r2];
    destruct (self_pose_estimator w) as [p |]; cbn [app] in *;
    rewrite P1 in B2, P2; cbn iota in B2, P2; rewrite B2, P2, B1;
    rewrite ?Nat.add_0_r; (split; [lia | reflexivity]).
Qed.

Lemma estimator_step_add_log (w w' : World) (e : event) :
  pose_indices [e] = [] -> estimator_step w w' -> estimator_step w (add_log e w').
Proof.
  intros He Hs. eapply estimator_step_trans; [exact Hs |].
  now apply (estimator_step_quiet w' (add_log e w') [e]).
Qed.

(** What a call of [get_keypoints_from_video] does to the inferencer. *)
Lemma get_keypoints_from_video_estimator `{Collaborators} `{FpsConverter}
    (video : string) (w : World) :
  estimator_step w (snd (get_keypoints_from_video video w)).
Proof.
  destruct (fs w !! kpts_path video) as [c |] eqn:Hc.
  - destruct c as [v | k].
    + unfold get_keypoints_from_video.
      rewrite (bind_ok _ _ _ _ _ (path_exists_value (kpts_path video) w)).
      cbv beta. rewrite bool_decide_eq_true_2 by (rewrite Hc; now eexists).
      unfold torch_load. rewrite Hc. apply estimator_step_refl.
    + rewrite (get_keypoints_from_video_hit video w k Hc). cbn [snd].
      now apply (estimator_step_quiet w _ [EvTorchLoad (kpts_path video)]).
  - destruct (get_keypoints_from_video_staged video w Hc)
      as [w0 [evs0 [Hl0 [Hp0 [_ [_ [He0 [Hb0 [_ Hcall]]]]]]]]].
    rewrite Hcall.
    assert (Hquiet : estimator_step w w0)
      by (now apply (estimator_step_quiet w w0 evs0)).
    destruct (extraction_reader video (fs w)) as [rd |]; [| exact Hquiet].
    destruct (fps_is_30 rd); [| exact Hquiet].
    destruct (rd_frames rd) as [| f0 rest] eqn:Efr.
    + rewrite extract_nothing. exact Hquiet.
    + destruct (extract_then_save_world (f0 :: rest) (kpts_path video) w0)
        as [w' [evs [E [_ [_ [Hl [Hp [He Hb]]]]]]]]; [discriminate |].
      rewrite E. cbn [snd]. apply (estimator_step_trans w w0 w' Hquiet).
      exists (evs ++ [EvTorchSave (kpts_path video)]).
      rewrite pose_indices_app, Hp. cbn [length seq app].
      split; [exact Hl |]. rewrite He, Hb. unfold estimators_to_build.
      split; [| reflexivity]. now destruct (self_pose_estimator w0).
Qed.

(** X1.  A call of [get_keypoints_from_video] builds an inferencer exactly
    when the instance holds none and at least one frame goes through the
    pose extraction: never on a cache hit, never on a call that fails before
    the first frame, and at most one however many frames the video has.
    From the first frame on the instance holds that inferencer. *)
Theorem get_keypoints_from_video_one_inferencer `{Collaborators} `{FpsConverter}
    (video : string) (w : World) :
  exists evs : list event,
    log (snd (get_keypoints_from_video video w)) = log w ++ evs /\
    inferencers_built (snd (get_keypoints_from_video video w)) =
      (inferencers_built w +
       match self_pose_estimator w, pose_indices evs with
       | None, _ :: _ => 1
       | _, _ => 0
       end)%nat /\
    self_pose_estimator (snd (get_keypoints_from_video video w)) =
      match pose_indices evs with
      | [] => self_pose_estimator w
      | _ :: _ => Some (estimator_after w)
      end.
Proof. apply get_keypoints_from_video_estimator. Qed.

(** ** [get_keypoints_from_video]: the rows, the failures, the cache file *)

(** Row [i] of the concatenation of one-row arrays is the row of the
    [i]-th array. *)
Lemma video_keypoints_rows `{Collaborators} (frames : list image) :
  forall (i : nat) (f : image),
  frames !! i = Some f ->
  exists row, ka_rows (frame_keypoints f) = [row] /\
              ka_rows (video_keypoints frames) !! i = Some row.
Proof.
  unfold video_keypoints. cbn [ka_rows].
  induction frames as [| g rest IH]; intros i f Hi; [discriminate |].
  assert (Hone : forall x, exists row, ka_rows (frame_keypoints x) = [row]).
  { intros x. destruct (frame_keypoints_shape x) as [_ [Hlen _]].
    destruct (ka_rows (frame_keypoints x)) as [| r [| r' t]]; try discriminate.
    now exists r. }
  cbn [map concat]. destruct (Hone g) as [rg Hg]. rewrite Hg. cbn [app].
  destruct i as [| i].
  - inversion Hi; subst. exists rg. now split.
  - apply (IH i f Hi).
Qed.

Lemma video_keypoints_shape `{Collaborators} (frames : list image) :
  ka_dtype (video_keypoints frames) = float32 /\
  has_shape (video_keypoints frames) (length frames) 17.
Proof.
  split; [reflexivity |]. split; [| apply frame_rows_17].
  unfold video_keypoints. cbn [ka_rows].
  induction frames as [| g rest IH]; [reflexivity |].
  cbn [map concat]. rewrite length_app, IH.
  destruct (frame_keypoints_shape g) as [_ [-> _]]. reflexivity.
Qed.

(** X2.  When a call of [get_keypoints_from_video] that found no cache file
    returns, the reader it extracted from reports 30 fps and has frames, and
    the array it returns (and saves) is a float32 array of shape
    (N, 17, 3) for the N frames of that reader, whose row [i] is the row that
    [get_keypoints_from_frame] gives for frame [i]: no frame is dropped, a
    frame without a person keeps its place as a row of zeros. *)
Theorem get_keypoints_from_video_rows `{Collaborators} `{FpsConverter}
    (video : string) (w w' : World) (l : nat) :
  fs w !! kpts_path video = None ->
  get_keypoints_from_video video w = (Ok l, w') ->
  exists (rd : reader) (a : kpt_array),
    extraction_reader video (fs w) = Some rd /\ fps_is_30 rd = true /\
    rd_frames rd <> [] /\
    heap w' !! l = Some (Arr3 a) /\
    fs w' !! kpts_path video = Some (TorchFile a) /\
    ka_dtype a = float32 /\ has_shape a (length (rd_frames rd)) 17 /\
    forall (i : nat) (f : image), rd_frames rd !! i = Some f ->
      exists row, ka_rows (frame_keypoints f) = [row] /\ ka_rows a !! i = Some row.
Proof.
  intros Hc E.
  destruct (get_keypoints_from_video_staged video w Hc)
    as [w0 [evs0 [_ [_ [_ [_ [_ [_ [_ Hcall]]]]]]]]].
  rewrite E in Hcall.
  destruct (extraction_reader video (fs w)) as [rd |]; [| discriminate].
  destruct (fps_is_30 rd) eqn:E30; [| discriminate].
  destruct (rd_frames rd) as [| f0 rest] eqn:Efr; [discriminate |].
  symmetry in Hcall. destruct (extract_then_save_ok _ _ _ _ _ Hcall) as [Hl Hf].
  exists rd, (video_keypoints (f0 :: rest)). rewrite Efr.
  split; [reflexivity |]. split; [exact E30 |]. split; [discriminate |].
  split; [exact Hl |]. split; [exact Hf |].
  destruct (video_keypoints_shape (f0 :: rest)) as [Hd Hs].
  split; [exact Hd |]. split; [exact Hs |].
  apply video_keypoints_rows.
Qed.

(** The two frames of the student video give an array of two rows. *)
Lemma get_keypoints_from_video_rows_witness :
  exists (a : kpt_array),
    heap (snd (@get_keypoints_from_video sample_collaborators sample_converter
                 "student.mp4" sample_world)) !! 0%nat = Some (Arr3 a) /\
    has_shape a 2 17.
Proof.
  destruct (@get_keypoints_from_video_rows sample_collaborators sample_converter
              "student.mp4" sample_world
              (snd (@get_keypoints_from_video sample_collaborators sample_converter
                      "student.mp4" sample_world)) 0%nat)
    as [rd [a [Hrd [_ [_ [Hl [_ [_ [Hs _]]]]]]]]].
  - vm_compute. reflexivity.
  - vm_compute. reflexivity.
  - exists a. split; [exact Hl |]. vm_compute in Hrd. inversion Hrd; subst rd. exact Hs.
Defined.



(** X4.  The cache file is named after the path without its last extension,
    so two videos whose paths differ in the extension only share it: once a
    call for [stem.ext1] has returned, a call for [stem.ext2] returns the
    keypoints of [stem.ext1] and does nothing but load them, whatever
    [stem.ext2] holds and even if there is no such file. *)
Theorem get_keypoints_from_video_shared_cache `{Collaborators} `{FpsConverter}
    (stem ext1 ext2 : string) (w w1 : World) (l : nat) :
  ~ In "."%char (chars ext1) -> ~ In "."%char (chars ext2) ->
  get_keypoints_from_video (stem +:+ "." +:+ ext1) w = (Ok l, w1) ->
  exists k l2 w2,
    heap w1 !! l = Some (Arr3 k) /\
    fs w1 !! (stem +:+ "_kpts.pth") = Some (TorchFile k) /\
    get_keypoints_from_video (stem +:+ "." +:+ ext2) w1 = (Ok l2, w2) /\
    heap w2 !! l2 = Some (Arr3 k) /\ fs w2 = fs w1 /\
    log w2 = log w1 ++ [EvTorchLoad (stem +:+ "_kpts.pth")].
Proof.
  intros H1 H2 E.
  destruct (get_keypoints_from_video_ok _ w w1 l E) as [k [Hl Hk]].
  rewrite (kpts_path_ext stem ext1 H1) in Hk.
  assert (Hk2 : fs w1 !! kpts_path (stem +:+ "." +:+ ext2) = Some (TorchFile k))
    by (now rewrite (kpts_path_ext stem ext2 H2)).
  exists k. eexists. eexists.
  split; [exact Hl |]. split; [exact Hk |].
  split; [apply (get_keypoints_from_video_hit _ w1 k Hk2) |].
  cbn [heap fs log set_heap add_log]. rewrite (kpts_path_ext stem ext2 H2).
  split; [apply lookup_insert_eq | now split].
Qed.

(** After the extraction of [teacher.mp4], a call for [teacher.avi], a file
    that does not exist, returns the keypoints of [teacher.mp4]. *)
Lemma get_keypoints_from_video_shared_cache_witness :
  exists l2 w2,
    @get_keypoints_from_video sample_collaborators sample_converter "teacher.avi"
      (snd (@get_keypoints_from_video sample_collaborators sample_converter
              "teacher.mp4" sample_world)) = (Ok l2, w2) /\
    heap w2 !! l2 =
      Some (Arr3 (@video_keypoints sample_collaborators
                    [frame_dancer; frame_blur; frame_empty])).
Proof.
  destruct (@get_keypoints_from_video_shared_cache sample_collaborators sample_converter
              "teacher" "mp4" "avi" sample_world
              (snd (@get_keypoints_from_video sample_collaborators sample_converter
                      "teacher.mp4" sample_world)) 0%nat)
    as [k [l2 [w2 [Hl [_ [E2 [Hl2 _]]]]]]].
  - cbn. intuition discriminate.
  - cbn. intuition discriminate.
  - vm_compute. reflexivity.
  - exists l2, w2. split; [exact E2 |]. rewrite Hl2.
    vm_compute in Hl. inversion Hl. vm_compute. reflexivity.
Defined.

(** X21.  Every call of [get_keypoints_from_video] that returns returns a
    new array object, also when it only loads the cache: the reference it
    returns named no array before the call, the heap after the call is the
    heap before it with that one array added, and every array that was there
    is still there, unchanged, under a reference other than the one
    returned.  So two calls for the same video give two arrays with the same
    contents, and a change made in place to one does not reach the other. *)
Theorem get_keypoints_from_video_new_array `{Collaborators} `{FpsConverter}
    (video : string) (w w' : World) (l : nat) :
  get_keypoints_from_video video w = (Ok l, w') ->
  heap w !! l = None /\
  (exists k, heap w' = <[l := Arr3 k]> (heap w) /\
             fs w' !! kpts_path video = Some (TorchFile k)) /\
  (forall l0 a, heap w !! l0 = Some a -> l0 <> l /\ heap w' !! l0 = Some a).
Proof.
  intros E.
  assert (Hfresh : heap w !! fresh (dom (heap w)) = None)
    by (apply (not_elem_of_dom (D := gset nat)); apply is_fresh).
  assert (Hall : heap w !! l = None /\
                 exists k, heap w' = <[l := Arr3 k]> (heap w) /\
                           fs w' !! kpts_path video = Some (TorchFile k)).
  { destruct (fs w !! kpts_path video) as [c |] eqn:Hc.
    - destruct c as [v | k].
      + unfold get_keypoints_from_video in E.
        rewrite (bind_ok _ _ _ _ _ (path_exists_value (kpts_path video) w)) in E.
        cbv beta in E. rewrite bool_decide_eq_true_2 in E by (rewrite Hc; now eexists).
        unfold torch_load in E. rewrite Hc in E. discriminate.
      + rewrite (get_keypoints_from_video_hit video w k Hc) in E.
        inversion E; subst. split; [exact Hfresh |]. exists k. now split.
    - destruct (get_keypoints_from_video_staged video w Hc)
        as [w0 [evs0 [_ [_ [_ [Hh0 [_ [_ [_ Hcall]]]]]]]]].
      rewrite E in Hcall.
      destruct (extraction_reader video (fs w)) as [rd |]; [| discriminate].
      destruct (fps_is_30 rd); [| discriminate].
      destruct (rd_frames rd) as [| f0 rest] eqn:Efr; [discriminate |].
      destruct (extract_then_save_world (f0 :: rest) (kpts_path video) w0)
        as [w1 [evs [E1 [Hh [Hf _]]]]]; [discriminate |].
      rewrite E1 in Hcall. inversion Hcall; subst.
      rewrite Hh0 in *. split; [exact Hfresh |].
      exists (video_keypoints (f0 :: rest)). split; [exact Hh |].
      rewrite Hf. apply lookup_insert_eq. }
  destruct Hall as [Hl [k [Hh Hk]]]. split; [exact Hl |].
  split; [now exists k |].
  intros l0 a Ha. assert (Hne : l0 <> l) by (intros ->; congruence).
  split; [exact Hne |]. rewrite Hh. rewrite lookup_insert_ne by (intros Heq; now apply Hne).
  exact Ha.
Qed.

(** Two calls for the teacher video: two array objects, the first one as it
    was. *)
Lemma get_keypoints_from_video_new_array_witness :
  exists l1 l2 w1 w2,
    @get_keypoints_from_video sample_collaborators sample_converter
      "teacher.mp4" sample_world = (Ok l1, w1) /\
    @get_keypoints_from_video sample_collaborators sample_converter
      "teacher.mp4" w1 = (Ok l2, w2) /\
    l1 <> l2 /\ heap w2 !! l1 = heap w1 !! l1.
Proof.
  destruct (@get_keypoints_from_video sample_collaborators sample_converter
              "teacher.mp4" sample_world) as [[l1 | e] w1] eqn:E1;
    [| vm_compute in E1; discriminate].
  destruct (@get_keypoints_from_video sample_collaborators sample_converter
              "teacher.mp4" w1) as [[l2 | e] w2] eqn:E2.
  - destruct (@get_keypoints_from_video_new_array sample_collaborators sample_converter
                "teacher.mp4" sample_world w1 l1 E1) as [_ [[k [Hh _]] _]].
    destruct (@get_keypoints_from_video_new_array sample_collaborators sample_converter
                "teacher.mp4" w1 w2 l2 E2) as [_ [_ Hold]].
    assert (Hl1 : heap w1 !! l1 = Some (Arr3 k))
      by (rewrite Hh; apply lookup_insert_eq).
    destruct (Hold l1 _ Hl1) as [Hne Hsame].
    exists l1, l2, w1, w2. split; [reflexivity |]. split; [exact E2 |].
    split; [exact Hne |]. now rewrite Hsame, Hl1.
  - exfalso.
    destruct (get_keypoints_from_video_ok "teacher.mp4" sample_world w1 l1 E1)
      as [k [_ Hk]].
    rewrite (get_keypoints_from_video_hit "teacher.mp4" w1 k Hk) in E2. discriminate.
Defined.

(** ** [generate_output_video]: the output file *)

Lemma writes_app (a b : list event) : writes (a ++ b) = writes a ++ writes b.
Proof. unfold writes. apply flat_map_app. Qed.

Lemma wp_writer_write_exact (opened : bool) (path : string) (img : image)
    (Q : result unit -> World -> Prop) (w : World) :
  Q (Ok tt) (snd (writer_write opened path img w)) ->
  wp (writer_write opened path img) Q w.
Proof. auto. Qed.

Lemma repeat_snoc {A : Type} (x : A) (n : nat) : repeat x n ++ [x] = repeat x (S n).
Proof. induction n as [| n IH]; [reflexivity |]. cbn [repeat app]. now rewrite IH. Qed.

(** One more frame through the writer. *)
Lemma writer_write_output (out : string) (fs0 : gmap string file) (l0 : list event)
    (j : nat) (opened : bool) (img : image) (w : World) :
  opened = negb (Nat.eqb j 0) ->
  output_state out fs0 l0 j (fs w) (log w) ->
  output_state out fs0 l0 (S j)
    (fs (snd (writer_write opened out img w)))
    (log (snd (writer_write opened out img w))).
Proof.
  intros Ho [Hw [frames [Hlen Hfs]]]. unfold writer_write.
  cbn [snd fs log add_log set_fs]. split.
  - rewrite writes_app, Hw, <- app_assoc. cbn [writes flat_map app].
    now rewrite repeat_snoc.
  - exists (frames ++ [img]). split; [rewrite length_app; cbn [length]; lia |].
    rewrite Hfs. destruct frames as [| f0 rest].
    + cbn [length] in Hlen. subst j. cbn [Nat.eqb negb] in Ho. subst opened.
      reflexivity.
    + cbn [length] in Hlen. subst j. cbn [Nat.eqb negb] in Ho. subst opened.
      cbn [written_fs app]. rewrite lookup_insert_eq. cbn [v_frames].
      now rewrite insert_insert_eq.
Qed.

Ltac output_simpl :=
  cbn [fs log heap add_log set_heap set_fs fst snd];
  rewrite ?writes_app; cbn [writes flat_map]; rewrite ?app_nil_r.

(** One iteration, whatever the smoother: either it raises with the output
    as it was, or it has written one more frame. *)
Lemma render_step_output `{Collaborators} `{Smoother}
    (out : string) (tk sk : nat) (piece : piece_info)
    (fs0 : gmap string file) (l0 : list event)
    (j : nat) (st : loop_state) (w : World) :
  output_inv out fs0 l0 j st w ->
  wp (render_step out tk sk piece j st)
     (fun r w' =>
        match r with
        | Ok st' => output_inv out fs0 l0 (S j) st' w'
        | Raise _ => output_state out fs0 l0 j (fs w') (log w')
        end) w.
Proof.
  intros [Hopen Hst].
  assert (Hexit : forall f l, f = fs w -> writes l = writes (log w) ->
            output_state out fs0 l0 j f l).
  { intros f l -> Hl. destruct Hst as [Hw Hfr]. split; [now rewrite Hl | exact Hfr]. }
  unfold render_step.
  repeat (first [apply wp_writer_write_exact | wp_step | wp_case];
          cbn [fs log heap add_log set_heap set_fs fst snd];
          try (apply Hexit; [reflexivity | output_simpl; reflexivity])).
  split; [reflexivity |].
  cbn [ls_writer].
  match goal with
  | |- output_state _ _ _ _ (fs (snd (writer_write _ _ ?img ?w0))) _ =>
      apply (writer_write_output out fs0 l0 j (ls_writer st) img w0 Hopen)
  end.
  apply Hexit; [reflexivity | output_simpl; reflexivity].
Qed.

(** The output of a call, whatever the smoother and however the call
    ends. *)
Lemma generate_output_video_output_state `{Collaborators} `{Smoother}
    (tch_video stu_video out : string) (tk sk : nat) (piece : piece_info) (w : World) :
  wp (generate_output_video tch_video stu_video out tk sk piece)
     (fun r w' =>
        exists j, (j <= length_ piece)%nat /\
                  output_state out (fs w) (log w) j (fs w') (log w') /\
                  (forall f, r = Ok f -> f = out /\ j = length_ piece)) w.
Proof.
  assert (Hzero : forall (e : exn) (f : gmap string file) (l : list event),
            f = fs w -> writes l = writes (log w) ->
            exists j, (j <= length_ piece)%nat /\
                      output_state out (fs w) (log w) j f l /\
                      (forall x, @Raise string e = Ok x -> x = out /\ j = length_ piece)).
  { intros e f l -> Hl. exists 0%nat. split; [lia |]. split; [| discriminate].
    split; [cbn [repeat]; now rewrite app_nil_r |]. now exists []. }
  assert (Hskip : forall n r w0, fs w0 = fs w /\ writes (log w0) = writes (log w) ->
            wp (skip_frames n r)
               (fun x w' => match x with
                            | Ok _ => fs w' = fs w /\ writes (log w') = writes (log w)
                            | Raise _ => fs w' = fs w /\ writes (log w') = writes (log w)
                            end) w0).
  { intros n r w0 Hw0.
    apply (wp_skip_frames
             (fun _ w' => fs w' = fs w /\ writes (log w') = writes (log w))
             (fun _ w' => fs w' = fs w /\ writes (log w') = writes (log w)));
      [| exact Hw0].
    intros r0 w1 [Hf1 Hl1]. wp_step. wp_case; [| now split].
    output_simpl. now split. }
  unfold generate_output_video.
  wp_step. wp_step. wp_case; [| now apply Hzero].
  wp_step. wp_step. wp_case; [| apply Hzero; [reflexivity | now output_simpl]].
  wp_step. eapply wp_mono;
    [| apply (Hskip (tch_start piece)); split; [reflexivity | now output_simpl]].
  intros [r1 | e1] w1 [Hf1 Hl1]; [| now apply Hzero].
  wp_step. eapply wp_mono; [| apply (Hskip (stu_start piece)); now split].
  intros [r2 | e2] w2 [Hf2 Hl2]; [| now apply Hzero].
  wp_step.
  eapply wp_mono;
    [| apply (wp_for_range _ (output_inv out (fs w) (log w))
                (fun _ w' => exists j, (j < length_ piece)%nat /\
                   output_state out (fs w) (log w) j (fs w') (log w')))].
  - intros [st | e] w3 H3.
    + wp_step. destruct H3 as [_ Hst]. exists (length_ piece).
      split; [lia |]. split; [exact Hst |]. intros x Ex. now inversion Ex.
    + destruct H3 as [j [Hj Hst]]. exists j. split; [lia |]. split; [exact Hst |].
      discriminate.
  - intros j st w3 Hj H3. eapply wp_mono; [| apply render_step_output; exact H3].
    intros [st' | e] w4 H4; [exact H4 |]. exists j. split; [lia | exact H4].
  - split; [reflexivity |]. split; [cbn [repeat]; now rewrite app_nil_r |].
    exists []. now split.
Qed.

(** X5.  [generate_output_video] touches one file, [output_file]: whatever
    the smoother, and whether the call returns or raises, the file system
    after the call is the one before it with, once a frame was written, a
    30 fps video at [output_file] that holds the frames written so far, in
    place of whatever was there.  A call that returns returns [output_file]
    and has written exactly [length] frames; a call that raises leaves the
    frames it had written (at most [length]) behind. *)
Theorem generate_output_video_output `{Collaborators} `{Smoother}
    (tch_video stu_video output_file : string) (tch_kpts stu_kpts : nat)
    (piece : piece_info) (w : World) :
  exists frames : list image,
    (length frames <= length_ piece)%nat /\
    fs (snd (generate_output_video tch_video stu_video output_file
               tch_kpts stu_kpts piece w)) = written_fs output_file (fs w) frames /\
    writes (log (snd (generate_output_video tch_video stu_video output_file
                        tch_kpts stu_kpts piece w))) =
      writes (log w) ++ repeat output_file (length frames) /\
    (forall p, p <> output_file ->
       fs (snd (generate_output_video tch_video stu_video output_file
                  tch_kpts stu_kpts piece w)) !! p = fs w !! p) /\
    (forall f, fst (generate_output_video tch_video stu_video output_file
                      tch_kpts stu_kpts piece w) = Ok f ->
       f = output_file /\ length frames = length_ piece).
Proof.
  pose proof (generate_output_video_output_state tch_video stu_video output_file
                tch_kpts stu_kpts piece w) as Hwp.
  unfold wp in Hwp. destruct Hwp as [j [Hj [[Hw [frames [Hlen Hfs]]] Hok]]].
  exists frames. rewrite Hlen. split; [exact Hj |]. split; [exact Hfs |].
  split; [exact Hw |]. split; [| exact Hok].
  intros p Hp. rewrite Hfs. destruct frames; [reflexivity |].
  cbn [written_fs]. now apply lookup_insert_ne.
Qed.

(** The sample piece of two frames: the output file holds two frames. *)
Lemma generate_output_video_output_witness :
  exists frames : list image,
    fs (snd (@generate_output_video sample_collaborators (spec_smoother sample_smooth)
               "teacher.mp4" "student.mp4" "out.mp4" 0 1 sample_piece
               sample_render_world)) !! "out.mp4"
      = Some (VideoFile (mkVideo 30 frames)) /\
    length frames = 2%nat.
Proof.
  destruct (@generate_output_video_output sample_collaborators
              (spec_smoother sample_smooth)
              "teacher.mp4" "student.mp4" "out.mp4" 0 1 sample_piece
              sample_render_world) as [frames [_ [Hfs [_ [_ Hok]]]]].
  destruct (Hok "out.mp4") as [_ Hlen]; [vm_compute; reflexivity |].
  exists frames. split; [| exact Hlen].
  rewrite Hfs. destruct frames as [| f0 rest]; [discriminate |].
  cbn [written_fs]. apply lookup_insert_eq.
Defined.

(** X6.  A piece of length 0: when both videos are there and reach the two
    start frames, [generate_output_video] returns [output_file] although it
    has opened no writer.  The file system and the heap are as they were
    (so the path returned names a file only if one was there before), and
    the trace holds the opening of the two videos and the frames skipped,
    nothing else. *)
Theorem generate_output_video_no_frames `{Collaborators} `{Smoother}
    (tch_video stu_video output_file : string) (tch_kpts stu_kpts : nat)
    (piece : piece_info) (w : World) (tch stu : video) :
  length_ piece = 0%nat ->
  fs w !! tch_video = Some (VideoFile tch) ->
  fs w !! stu_video = Some (VideoFile stu) ->
  (tch_start piece <= length (v_frames tch))%nat ->
  (stu_start piece <= length (v_frames stu))%nat ->
  exists w',
    generate_output_video tch_video stu_video output_file tch_kpts stu_kpts piece w
      = (Ok output_file, w') /\
    fs w' = fs w /\ heap w' = heap w /\
    log w' = log w ++ [EvVideoReader Teacher tch_video; EvVideoReader Student stu_video]
                   ++ map (EvNext Teacher) (seq 0 (tch_start piece))
                   ++ map (EvNext Student) (seq 0 (stu_start piece)).
Proof.
  intros Hlen Ht Hs Hts Hss.
  assert (Hts' : (0 + tch_start piece <= length (v_frames tch))%nat) by lia.
  assert (Hss' : (0 + stu_start piece <= length (v_frames stu))%nat) by lia.
  unfold generate_output_video.
  bind_step (VideoReader_value Teacher tch_video w _ Ht).
  bind_step (VideoReader_value Student stu_video
               (add_log (EvVideoReader Teacher tch_video) w) _ Hs).
  cbn [file_reader].
  rewrite (bind_ok _ _ _ _ _
             (skip_frames_ok (tch_start piece)
                (mkReader Teacher (v_fps tch) (v_frames tch) 0) _ Hts')).
  cbv beta. cbn [rd_who rd_fps rd_frames rd_pos Nat.add].
  rewrite (bind_ok _ _ _ _ _
             (skip_frames_ok (stu_start piece)
                (mkReader Student (v_fps stu) (v_frames stu) 0) _ Hss')).
  cbv beta. cbn [rd_who rd_fps rd_frames rd_pos Nat.add].
  rewrite Hlen. cbn [for_range]. unfold bind, ret.
  eexists. split; [reflexivity |].
  unfold extend_log, add_log. cbn [fs heap log].
  split; [reflexivity |]. split; [reflexivity |]. now rewrite <- !app_assoc.
Qed.

(** An empty piece on the sample world: a path comes back, no file is
    there. *)
Lemma generate_output_video_no_frames_witness :
  exists w',
    @generate_output_video sample_collaborators (spec_smoother sample_smooth)
      "teacher.mp4" "student.mp4" "out.mp4" 0 1 (mkPiece 1 0 0 []) sample_render_world
      = (Ok "out.mp4", w') /\
    fs w' !! "out.mp4" = None.
Proof.
  destruct (@generate_output_video_no_frames sample_collaborators
              (spec_smoother sample_smooth)
              "teacher.mp4" "student.mp4" "out.mp4" 0 1 (mkPiece 1 0 0 [])
              sample_render_world sample_teacher sample_student)
    as [w' [E [Hf _]]].
  - reflexivity.
  - vm_compute. reflexivity.
  - vm_compute. reflexivity.
  - cbn. lia.
  - cbn. lia.
  - exists w'. split; [exact E |]. rewrite Hf. vm_compute. reflexivity.
Defined.

(** ** [generate_output_video]: a video that ends before the piece *)

(** A loop of [k + m] rounds is a loop of [k] rounds and then one of [m]. *)
Lemma for_range_split {St : Type} (body : nat -> St -> M St) (k m : nat) :
  forall (i : nat) (st : St) (w : World),
  for_range body i (k + m) st w =
    bind (for_range body i k st) (fun st' => for_range body (i + k) m st') w.
Proof.
  induction k as [| k IH]; intros i st w.
  - cbn [Nat.add for_range]. unfold bind, ret. now rewrite Nat.add_0_r.
  - cbn [Nat.add for_range]. unfold bind.
    destruct (body i st w) as [[st1 | e] w1]; [| reflexivity].
    rewrite IH. unfold bind. replace (S i + k)%nat with (i + S k)%nat by lia.
    reflexivity.
Qed.

(** The first [k] iterations of the rendering, when the videos, the
    keypoints and the similarity curve reach that far. *)
Lemma render_loop_ok `{Collaborators}
    (smooth : list (list joint) -> nat -> nat -> list joint)
    (out : string) (tk sk : nat) (piece : piece_info) (tch stu : video)
    (tarr sarr : kpt_array) (k : nat) (w0 : World) :
  piece_fits (mkPiece (tch_start piece) (stu_start piece) k (similarity piece))
             tch stu tarr sarr ->
  frames_have_height tch -> frames_have_height stu ->
  heap w0 !! tk = Some (Arr3 tarr) -> heap w0 !! sk = Some (Arr3 sarr) ->
  exists st w',
    for_range (@render_step _ (spec_smoother smooth) out tk sk piece) 0 k
      (mkLoop (mkReader Teacher (v_fps tch) (v_frames tch) (tch_start piece))
              (mkReader Student (v_fps stu) (v_frames stu) (stu_start piece))
              0 0 false) w0 = (Ok st, w') /\
    render_inv out tk sk piece tch stu (heap w0) (log w0) k st w'.
Proof.
  intros Hfit Hth Hsh Htk Hsk.
  set (piece' := mkPiece (tch_start piece) (stu_start piece) k (similarity piece)) in *.
  pose proof (wp_for_range
                (@render_step _ (spec_smoother smooth) out tk sk piece')
                (render_inv out tk sk piece' tch stu (heap w0) (log w0))
                (fun _ _ => False) k 0
                (mkLoop (mkReader Teacher (v_fps tch) (v_frames tch) (tch_start piece))
                        (mkReader Student (v_fps stu) (v_frames stu) (stu_start piece))
                        0 0 false) w0) as Hloop.
  unfold wp in Hloop.
  change (@render_step _ (spec_smoother smooth) out tk sk piece')
    with (@render_step _ (spec_smoother smooth) out tk sk piece) in Hloop.
  destruct (for_range _ 0 k _ w0) as [[st | e] w']; cbn [fst snd] in Hloop.
  - exists st, w'. split; [reflexivity |]. apply Hloop.
    + intros j st0 w1 Hj Hinv.
      apply (render_step_ok smooth out tk sk piece' tch stu tarr sarr);
        try assumption. cbn [length_ piece']. lia.
    + unfold render_inv. cbn [ls_tch ls_stu ls_score ls_last_vis_score seq flat_map].
      cbn [tch_start stu_start piece']. rewrite !Nat.add_0_r, app_nil_r. now repeat split.
  - exfalso. apply Hloop.
    + intros j st0 w1 Hj Hinv.
      apply (render_step_ok smooth out tk sk piece' tch stu tarr sarr);
        try assumption. cbn [length_ piece']. lia.
    + unfold render_inv. cbn [ls_tch ls_stu ls_score ls_last_vis_score seq flat_map].
      cbn [tch_start stu_start piece']. rewrite !Nat.add_0_r, app_nil_r. now repeat split.
Qed.

Lemma writes_iterations (out : string) (tk sk : nat) (piece : piece_info) (n : nat) :
  forall a, writes (flat_map (iteration_events out tk sk piece) (seq a n)) = repeat out n.
Proof.
  induction n as [| n IH]; intros a; [reflexivity |].
  cbn [seq flat_map]. rewrite writes_app, IH. reflexivity.
Qed.



(** ** [generate_output_video]: what the rendering does not do *)

Lemma rendering_only_refl (t s : string) (w : World) : rendering_only t s (log w) w w.
Proof. split; [apply extends_refl | now split]. Qed.

Lemma rendering_only_add_log (t s : string) (l0 : list event) (e : event) (w0 w : World) :
  is_render_event t s e = true ->
  rendering_only t s l0 w0 w -> rendering_only t s l0 w0 (add_log e w).
Proof.
  intros He [Hl [Hp Hb]]. split; [now apply extends_add_log | now split].
Qed.

Lemma rendering_only_set_heap (t s : string) (l0 : list event)
    (h : gmap nat ndarray) (w0 w : World) :
  rendering_only t s l0 w0 w -> rendering_only t s l0 w0 (set_heap h w).
Proof. intros [Hl [Hp Hb]]. split; [now apply extends_set_heap | now split]. Qed.

Lemma rendering_only_set_fs (t s : string) (l0 : list event)
    (f : gmap string file) (w0 w : World) :
  rendering_only t s l0 w0 w -> rendering_only t s l0 w0 (set_fs f w).
Proof. intros [Hl [Hp Hb]]. split; [now apply extends_set_fs | now split]. Qed.

Ltac rendering_tac :=
  lazymatch goal with
  | |- rendering_only _ _ _ _ _ =>
      repeat first
        [ assumption
        | apply rendering_only_refl
        | apply rendering_only_set_heap
        | apply rendering_only_set_fs
        | apply rendering_only_add_log;
            [first [reflexivity | apply String.eqb_refl] |] ]
  end.

Lemma render_step_rendering_only `{Collaborators} `{Smoother}
    (t s out : string) (tk sk : nat) (piece : piece_info) (l0 : list event) (w0 : World)
    (i : nat) (st : loop_state) (w : World) :
  rendering_only t s l0 w0 w ->
  wp (render_step out tk sk piece i st) (fun _ w' => rendering_only t s l0 w0 w') w.
Proof.
  intros Hw. unfold render_step.
  repeat (first [wp_step | wp_case]; cbn [fst snd]; try rendering_tac).
Qed.

(** The rendering opens and reads the two videos, smooths, draws and
    writes, and nothing else; it leaves the inferencer alone. *)
Lemma generate_output_video_rendering_only `{Collaborators} `{Smoother}
    (tch_video stu_video out : string) (tk sk : nat) (piece : piece_info) (w : World) :
  wp (generate_output_video tch_video stu_video out tk sk piece)
     (fun _ w' => rendering_only tch_video stu_video (log w) w w') w.
Proof.
  assert (Hskip : forall n r w0, rendering_only tch_video stu_video (log w) w w0 ->
            wp (skip_frames n r)
               (fun x w' => match x with
                            | Ok _ => rendering_only tch_video stu_video (log w) w w'
                            | Raise _ => rendering_only tch_video stu_video (log w) w w'
                            end) w0).
  { intros n r w0 Hw0.
    apply (wp_skip_frames (fun _ w' => rendering_only tch_video stu_video (log w) w w')
             (fun _ w' => rendering_only tch_video stu_video (log w) w w')); [| exact Hw0].
    intros r0 w1 H1. wp_step. wp_case; rendering_tac. }
  unfold generate_output_video.
  wp_step. wp_step. wp_case; [| rendering_tac].
  wp_step. wp_step. wp_case; [| rendering_tac].
  wp_step. eapply wp_mono; [| apply (Hskip (tch_start piece)); rendering_tac].
  intros [r1 | e1] w1 H1; [| exact H1].
  wp_step. eapply wp_mono; [| apply (Hskip (stu_start piece)); exact H1].
  intros [r2 | e2] w2 H2; [| exact H2].
  wp_step.
  eapply wp_mono;
    [| apply (wp_for_range _
                (fun _ _ w' => rendering_only tch_video stu_video (log w) w w')
                (fun _ w' => rendering_only tch_video stu_video (log w) w w'));
       [| exact H2]].
  - intros [st | e] w3 H3; [| exact H3]. now wp_step.
  - intros j st w3 _ H3. eapply wp_mono; [| apply render_step_rendering_only; exact H3].
    now intros [st' | e] w4 H4.
Qed.

Lemma render_events_no_pose (t s : string) (evs : list event) :
  Forall (fun e => is_render_event t s e = true) evs -> pose_indices evs = [].
Proof.
  induction 1 as [| e evs He _ IH]; [reflexivity |].
  change (e :: evs) with ([e] ++ evs). rewrite pose_indices_app, IH, app_nil_r.
  now destruct e.
Qed.

Lemma rendering_only_estimator_step (t s : string) (w w' : World) :
  rendering_only t s (log w) w w' -> estimator_step w w'.
Proof.
  intros [[evs [Hl Hall]] [Hp Hb]].
  apply (estimator_step_quiet w w' evs); try assumption.
  now apply (render_events_no_pose t s).
Qed.


(** ** [run]: extraction, engine, rendering *)

(** The extraction makes extraction calls only. *)
Lemma get_keypoints_from_video_extraction_only `{Collaborators} `{FpsConverter}
    (video : string) (w : World) :
  wp (get_keypoints_from_video video)
     (fun _ w' => extends_with (fun e => is_extraction_event e = true) (log w) w') w.
Proof.
  set (P := fun e => is_extraction_event e = true).
  assert (Htail : forall frames w0, extends_with P (log w) w0 ->
            wp (extract_then_save frames (kpts_path video))
               (fun _ w' => extends_with P (log w) w') w0).
  { intros frames w0 Hw0. wp_step.
    eapply wp_mono; [| apply (extract_frames_events P frames); try exact Hw0;
                       intros; reflexivity].
    intros [ks | e] w1 H1; [| exact H1].
    wp_step. wp_step. wp_case; [| exact H1].
    wp_step. unfold wp at 1, alloc. cbn [fst snd].
    wp_step. unfold wp at 1, torch_save. cbn [fst snd].
    wp_step. extends_tac. }
  unfold get_keypoints_from_video.
  wp_step. unfold wp at 1, path_exists. cbn [fst snd].
  destruct (bool_decide (is_Some (fs w !! kpts_path video))).
  - unfold wp, torch_load, alloc.
    destruct (fs w !! kpts_path video) as [[v | k] |]; cbn [snd]; extends_tac.
  - wp_step. wp_step. wp_case; [| extends_tac].
    wp_step. destruct (fps_is_30 (file_reader Source f)) eqn:E30.
    + wp_step. rewrite E30. cbn [negb]. apply Htail. extends_tac.
    + wp_step. unfold wp at 1.
      destruct (convert_video_fps video (fs (add_log (EvVideoReader Source video) w)))
        as [p f']. cbn [fst snd].
      wp_step. wp_case; [| extends_tac].
      destruct (negb (fps_is_30 (file_reader Source f0))).
      * unfold wp, raise. cbn [snd]. extends_tac.
      * apply Htail. extends_tac.
Qed.

(** The trace of a run: extraction, then the engine, then the rendering of
    the two videos that were given. *)
Lemma run_phases_trace `{Collaborators} `{Engine} `{Smoother} `{FpsConverter}
    (tch_video stu_video : string) (w : World) :
  exists ext eng ren : list event,
    log (snd (run tch_video stu_video w)) = log w ++ ext ++ eng ++ ren /\
    Forall (fun e => is_extraction_event e = true) ext /\
    Forall (fun e => is_engine_event e = true) eng /\
    Forall (fun e => is_render_event tch_video stu_video e = true) ren.
Proof.
  destruct (run tch_video stu_video w) as [r w'] eqn:E. cbn [snd]. unfold run in E.
  pose proof (get_keypoints_from_video_extraction_only tch_video w) as Hev1.
  unfold wp in Hev1. unfold bind at 1 in E.
  destruct (get_keypoints_from_video tch_video w) as [[lt | e1] w1]; cbn [fst snd] in Hev1;
    destruct Hev1 as [evs1 [Hl1 Hq1]].
  2:{ inversion E; subst. exists evs1, [], []. rewrite !app_nil_r. now repeat split. }
  pose proof (get_keypoints_from_video_extraction_only stu_video w1) as Hev2.
  unfold wp in Hev2. unfold bind at 1 in E.
  destruct (get_keypoints_from_video stu_video w1) as [[ls | e2] w2]; cbn [fst snd] in Hev2;
    destruct Hev2 as [evs2 [Hl2 Hq2]].
  2:{ inversion E; subst. exists (evs1 ++ evs2), [], [].
      rewrite !app_nil_r, Hl2, Hl1, <- app_assoc.
      split; [reflexivity |]. split; [now apply Forall_app | now split]. }
  assert (Hl : log w2 = log w ++ (evs1 ++ evs2)) by (now rewrite Hl2, Hl1, <- app_assoc).
  assert (Hq : Forall (fun e => is_extraction_event e = true) (evs1 ++ evs2))
    by (now apply Forall_app).
  clear Hl1 Hl2 Hq1 Hq2.
  unfold bind at 1, deref at 1 in E.
  destruct (heap w2 !! lt) as [ta |].
  2:{ inversion E; subst. exists (evs1 ++ evs2), [], []. rewrite !app_nil_r.
      now repeat split. }
  unfold bind at 1, deref at 1 in E.
  destruct (heap w2 !! ls) as [sa |].
  2:{ inversion E; subst. exists (evs1 ++ evs2), [], []. rewrite !app_nil_r.
      now repeat split. }
  unfold bind at 1, emit at 1 in E. unfold bind at 1, lift at 1 in E.
  destruct (calculate_similarity ta sa) as [m | e3].
  2:{ inversion E; subst. exists (evs1 ++ evs2), [EvSimilarity (Raise e3)], [].
      cbn [log add_log]. rewrite app_nil_r, Hl, <- !app_assoc.
      split; [reflexivity |]. split; [exact Hq |]. split; now repeat constructor. }
  unfold bind at 1, emit at 1 in E. unfold bind at 1, lift at 1 in E.
  destruct (select_piece_from_similarity m) as [piece | e4].
  2:{ inversion E; subst.
      exists (evs1 ++ evs2), [EvSimilarity (Ok m); EvSelectPiece (Raise e4)], [].
      cbn [log add_log]. rewrite app_nil_r, Hl, <- !app_assoc.
      split; [reflexivity |]. split; [exact Hq |]. split; now repeat constructor. }
  unfold bind at 1 in E. cbn [fst snd] in E.
  match type of E with
  | generate_output_video ?a ?b ?c ?d ?e ?f ?w0 = _ =>
      pose proof (generate_output_video_rendering_only a b c d e f w0) as Hr
  end.
  unfold wp in Hr. rewrite E in Hr. cbn [snd] in Hr.
  destruct Hr as [[evs3 [Hl3 Hq3]] _].
  exists (evs1 ++ evs2), [EvSimilarity (Ok m); EvSelectPiece (Ok piece)], evs3.
  rewrite Hl3. cbn [log add_log]. rewrite Hl, <- !app_assoc.
  split; [reflexivity |]. split; [exact Hq |]. split; [now repeat constructor | exact Hq3].
Qed.

(** X9.  A run goes through three phases, in this order and however it
    ends: the extraction of the keypoints of the two videos (opening and
    converting source videos, pose extraction, cache files), the calls of
    the similarity engine, the rendering.  The rendering opens the two paths
    that [run] was given: it reads the frames of the videos as they are,
    also when the keypoints were extracted from the files that
    [convert_video_fps] made of them. *)
Theorem run_phases `{Collaborators} `{Engine} `{Smoother} `{FpsConverter}
    (tch_video stu_video : string) (w : World) :
  exists ext eng ren : list event,
    log (snd (run tch_video stu_video w)) = log w ++ ext ++ eng ++ ren /\
    Forall (fun e => is_extraction_event e = true) ext /\
    Forall (fun e => is_engine_event e = true) eng /\
    Forall (fun e => is_render_event tch_video stu_video e = true) ren /\
    (forall who p, In (EvVideoReader who p) (ext ++ eng ++ ren) ->
       match who with
       | Source => In (EvVideoReader who p) ext
       | Teacher => p = tch_video
       | Student => p = stu_video
       end).
Proof.
  destruct (run_phases_trace tch_video stu_video w)
    as [ext [eng [ren [Hl [Hext [Heng Hren]]]]]].
  exists ext, eng, ren. split; [exact Hl |]. split; [exact Hext |].
  split; [exact Heng |]. split; [exact Hren |].
  intros who p Hin. rewrite List.Forall_forall in Hext, Heng, Hren.
  apply in_app_or in Hin. destruct Hin as [Hin | Hin].
  - pose proof (Hext _ Hin) as He. destruct who; try discriminate. exact Hin.
  - apply in_app_or in Hin. destruct Hin as [Hin | Hin].
    + pose proof (Heng _ Hin) as He. discriminate.
    + pose proof (Hren _ Hin) as He. cbn [is_render_event] in He.
      destruct who; [discriminate | |]; now apply String.eqb_eq in He.
Qed.

(** X10.  A run over two videos whose cache files are there decodes no
    source video and runs no pose extraction: it loads the two files, hands
    the saved arrays, as saved, to [calculate_similarity], and goes on to
    select and render.  It builds no inferencer. *)
Theorem run_cached `{Collaborators} `{Engine} `{Smoother} `{FpsConverter}
    (tch_video stu_video : string) (w : World) (tk sk : kpt_array) :
  fs w !! kpts_path tch_video = Some (TorchFile tk) ->
  fs w !! kpts_path stu_video = Some (TorchFile sk) ->
  exists rest : list event,
    log (snd (run tch_video stu_video w)) =
      log w ++ [EvTorchLoad (kpts_path tch_video); EvTorchLoad (kpts_path stu_video);
                EvSimilarity (calculate_similarity (Arr3 tk) (Arr3 sk))] ++ rest /\
    Forall (fun e => is_render_event tch_video stu_video e = true
                     \/ exists p, e = EvSelectPiece p) rest /\
    pose_indices rest = [] /\
    inferencers_built (snd (run tch_video stu_video w)) = inferencers_built w /\
    self_pose_estimator (snd (run tch_video stu_video w)) = self_pose_estimator w.
Proof.
  intros Ht Hs.
  destruct (run tch_video stu_video w) as [r w'] eqn:E. cbn [snd].
  unfold run in E.
  rewrite (bind_ok _ _ _ _ _ (get_keypoints_from_video_hit tch_video w tk Ht)) in E.
  cbv beta in E.
  set (l1 := fresh (dom (heap w))) in E.
  assert (N1 : heap w !! l1 = None)
    by (apply (not_elem_of_dom (D := gset nat)); apply is_fresh).
  set (w1 := set_heap _ _) in E.
  assert (Hs1 : fs w1 !! kpts_path stu_video = Some (TorchFile sk)) by exact Hs.
  rewrite (bind_ok _ _ _ _ _ (get_keypoints_from_video_hit stu_video w1 sk Hs1)) in E.
  cbv beta in E.
  set (l2 := fresh (dom (heap w1))) in E.
  assert (N2 : heap w1 !! l2 = None)
    by (apply (not_elem_of_dom (D := gset nat)); apply is_fresh).
  assert (Hne : l1 <> l2).
  { intros El. rewrite <- El in N2. unfold w1 in N2. cbn [heap set_heap] in N2.
    now rewrite lookup_insert_eq in N2. }
  set (w2 := set_heap _ _) in E.
  assert (Hk1 : heap w2 !! l1 = Some (Arr3 tk)).
  { unfold w2, w1. cbn [heap set_heap add_log].
    rewrite lookup_insert_ne by (intros El; now apply Hne).
    apply lookup_insert_eq. }
  assert (Hk2 : heap w2 !! l2 = Some (Arr3 sk)).
  { unfold w2. cbn [heap set_heap add_log]. apply lookup_insert_eq. }
  assert (Hl2 : log w2 = log w ++ [EvTorchLoad (kpts_path tch_video);
                                   EvTorchLoad (kpts_path stu_video)]).
  { unfold w2, w1. cbn [log set_heap add_log]. now rewrite <- app_assoc. }
  assert (He2 : self_pose_estimator w2 = self_pose_estimator w) by reflexivity.
  assert (Hb2 : inferencers_built w2 = inferencers_built w) by reflexivity.
  clearbody w2 l1 l2. clear w1 N1 N2 Hs1 Hne.
  unfold bind at 1, deref at 1 in E. rewrite Hk1 in E.
  unfold bind at 1, deref at 1 in E. rewrite Hk2 in E.
  unfold bind at 1, emit at 1 in E. unfold bind at 1, lift at 1 in E.
  destruct (calculate_similarity (Arr3 tk) (Arr3 sk)) as [m | e3].
  2:{ inversion E; subst. exists [].
      cbn [log add_log inferencers_built self_pose_estimator].
      rewrite Hl2, <- app_assoc. now repeat split. }
  unfold bind at 1, emit at 1 in E. unfold bind at 1, lift at 1 in E.
  destruct (select_piece_from_similarity m) as [piece | e4].
  2:{ inversion E; subst. exists [EvSelectPiece (Raise e4)].
      cbn [log add_log inferencers_built self_pose_estimator].
      rewrite Hl2, <- !app_assoc. split; [reflexivity |].
      split; [constructor; [right; now eexists | constructor] |]. now repeat split. }
  unfold bind at 1 in E. cbn [fst snd] in E.
  match type of E with
  | generate_output_video ?a ?b ?c ?d ?e ?f ?w0 = _ =>
      pose proof (generate_output_video_rendering_only a b c d e f w0) as Hr
  end.
  unfold wp in Hr. rewrite E in Hr. cbn [snd] in Hr.
  destruct Hr as [[evs [Hl Hall]] [Hp Hb]].
  exists (EvSelectPiece (Ok piece) :: evs).
  rewrite Hl, Hp, Hb. cbn [log add_log inferencers_built self_pose_estimator].
  rewrite Hl2, <- !app_assoc. split; [reflexivity |].
  split; [| split; [| now split]].
  - constructor; [right; now eexists |].
    eapply Forall_impl; [exact Hall |]. intros e He. now left.
  - change (EvSelectPiece (Ok piece) :: evs) with ([EvSelectPiece (Ok piece)] ++ evs).
    rewrite pose_indices_app. now rewrite (render_events_no_pose _ _ evs Hall).
Qed.

(** A second run over the sample videos extracts nothing and builds no
    inferencer. *)
Lemma run_cached_witness :
  pose_indices
    (log (snd (@run sample_collaborators sample_engine (spec_smoother sample_smooth)
                 sample_converter "teacher.mp4" "student.mp4" sample_cached_world)))
  = pose_indices (log sample_cached_world) /\
  inferencers_built
    (snd (@run sample_collaborators sample_engine (spec_smoother sample_smooth)
            sample_converter "teacher.mp4" "student.mp4" sample_cached_world))
  = inferencers_built sample_cached_world.
Proof.
  destruct (@run_cached sample_collaborators sample_engine (spec_smoother sample_smooth)
              sample_converter "teacher.mp4" "student.mp4" sample_cached_world
              (@video_keypoints sample_collaborators [frame_dancer; frame_blur; frame_empty])
              (@video_keypoints sample_collaborators [frame_blur; frame_dancer]))
    as [rest [Hl [_ [Hp [Hb _]]]]].
  - vm_compute. reflexivity.
  - vm_compute. reflexivity.
  - split; [| exact Hb].
    rewrite Hl, !pose_indices_app, Hp. cbn [pose_indices flat_map app].
    now rewrite app_nil_r.
Defined.

(** The rest of a run, once the keypoints of the teacher are there. *)
Lemma run_after_teacher `{Collaborators} `{Engine} `{Smoother} `{FpsConverter}
    (tch_video stu_video : string) (w wa : World) (l : nat) :
  get_keypoints_from_video tch_video w = (Ok l, wa) ->
  estimator_step wa (snd (run tch_video stu_video w)).
Proof.
  intros E. unfold run. bind_step E.
  pose proof (get_keypoints_from_video_estimator stu_video wa) as Hs.
  unfold bind at 1.
  destruct (get_keypoints_from_video stu_video wa) as [[ls | e2] w2]; cbn [snd] in Hs;
    [| exact Hs].
  unfold bind at 1, deref at 1.
  destruct (heap w2 !! l) as [ta |]; [| exact Hs].
  unfold bind at 1, deref at 1.
  destruct (heap w2 !! ls) as [sa |]; [| exact Hs].
  unfold bind at 1, emit at 1. unfold bind at 1, lift at 1.
  destruct (calculate_similarity ta sa) as [m | e3].
  2:{ cbn [snd]. now apply estimator_step_add_log. }
  unfold bind at 1, emit at 1. unfold bind at 1, lift at 1.
  destruct (select_piece_from_similarity m) as [piece | e4].
  2:{ cbn [snd]. now repeat apply estimator_step_add_log. }
  unfold bind at 1. cbn [fst snd].
  match goal with
  | |- context [generate_output_video ?a ?b ?c ?d ?e ?f ?w0] =>
      pose proof (generate_output_video_rendering_only a b c d e f w0) as Hr
  end.
  unfold wp in Hr. apply rendering_only_estimator_step in Hr.
  eapply estimator_step_trans; [| exact Hr].
  now repeat apply estimator_step_add_log.
Qed.

Lemma run_teacher_fails `{Collaborators} `{Engine} `{Smoother} `{FpsConverter}
    (tch_video stu_video : string) (w wa : World) (e : exn) :
  get_keypoints_from_video tch_video w = (Raise e, wa) ->
  run tch_video stu_video w = (Raise e, wa).
Proof. intros E. unfold run. now rewrite (bind_raise _ _ _ _ _ E). Qed.

Lemma run_estimator `{Collaborators} `{Engine} `{Smoother} `{FpsConverter}
    (tch_video stu_video : string) (w : World) :
  estimator_step w (snd (run tch_video stu_video w)).
Proof.
  pose proof (get_keypoints_from_video_estimator tch_video w) as Ht.
  destruct (get_keypoints_from_video tch_video w) as [[l | e] wa] eqn:E; cbn [snd] in Ht.
  - eapply estimator_step_trans; [exact Ht |].
    apply (run_after_teacher tch_video stu_video w wa l E).
  - now rewrite (run_teacher_fails tch_video stu_video w wa e E).
Qed.

(** X11.  A whole run, two extractions and a rendering, builds at most one
    inferencer: one if the instance holds none and some frame of either
    video goes through the pose extraction, none otherwise. *)
Theorem run_one_inferencer `{Collaborators} `{Engine} `{Smoother} `{FpsConverter}
    (tch_video stu_video : string) (w : World) :
  (exists evs : list event,
     log (snd (run tch_video stu_video w)) = log w ++ evs /\
     inferencers_built (snd (run tch_video stu_video w)) =
       (inferencers_built w +
        match self_pose_estimator w, pose_indices evs with
        | None, _ :: _ => 1
        | _, _ => 0
        end)%nat) /\
  (inferencers_built w <= inferencers_built (snd (run tch_video stu_video w))
   <= inferencers_built w + estimators_to_build w)%nat.
Proof.
  destruct (run_estimator tch_video stu_video w) as [evs [Hl [Hb _]]].
  split; [exists evs; now split |].
  rewrite Hb. unfold estimators_to_build.
  destruct (self_pose_estimator w); destruct (pose_indices evs); lia.
Qed.

(** The rendering returns the path it was given. *)
Lemma generate_output_video_returns `{Collaborators} `{Smoother}
    (tch_video stu_video out : string) (tk sk : nat) (piece : piece_info)
    (w w' : World) (f : string) :
  generate_output_video tch_video stu_video out tk sk piece w = (Ok f, w') -> f = out.
Proof.
  intros E.
  pose proof (generate_output_video_output_state tch_video stu_video out tk sk piece w)
    as Hwp.
  unfold wp in Hwp. rewrite E in Hwp. cbn [fst snd] in Hwp.
  destruct Hwp as [j [_ [_ Hok]]]. now destruct (Hok f eq_refl).
Qed.

(** The file that a run returns. *)
Lemma run_returns `{Collaborators} `{Engine} `{Smoother} `{FpsConverter}
    (tch_video stu_video : string) (w w' : World) (f : string) :
  run tch_video stu_video w = (Ok f, w') ->
  exists w2 : World,
    f = mkdtemp (fs w2) +:+ "/" +:+ rsplit_dot_head (basename tch_video) +:+ "-"
        +:+ rsplit_dot_head (basename stu_video) +:+ ".mp4".
Proof.
  intros E. unfold run in E.
  unfold bind at 1 in E.
  destruct (get_keypoints_from_video tch_video w) as [[lt | e1] w1]; [| discriminate].
  unfold bind at 1 in E.
  destruct (get_keypoints_from_video stu_video w1) as [[ls | e2] w2]; [| discriminate].
  unfold bind at 1, deref at 1 in E.
  destruct (heap w2 !! lt) as [ta |]; [| discriminate].
  unfold bind at 1, deref at 1 in E.
  destruct (heap w2 !! ls) as [sa |]; [| discriminate].
  unfold bind at 1, emit at 1 in E. unfold bind at 1, lift at 1 in E.
  destruct (calculate_similarity ta sa) as [m | e3]; [| discriminate].
  unfold bind at 1, emit at 1 in E. unfold bind at 1, lift at 1 in E.
  destruct (select_piece_from_similarity m) as [piece | e4]; [| discriminate].
  unfold bind at 1 in E. cbn [fst snd] in E.
  apply generate_output_video_returns in E. eexists. exact E.
Qed.

(** X12.  The file that [run] returns lies in a directory that
    [tempfile.mkdtemp] made and is named [<teacher>-<student>.mp4], after
    the two videos without their directories and without their last
    extensions. *)
Theorem run_output_name `{Collaborators} `{Engine} `{Smoother} `{FpsConverter}
    (tch_dir tch_name tch_ext stu_dir stu_name stu_ext : string)
    (w w' : World) (f : string) :
  tch_dir = "" \/ (exists d, tch_dir = d +:+ "/") ->
  stu_dir = "" \/ (exists d, stu_dir = d +:+ "/") ->
  ~ In "/"%char (chars tch_name) -> ~ In "/"%char (chars tch_ext) ->
  ~ In "."%char (chars tch_ext) ->
  ~ In "/"%char (chars stu_name) -> ~ In "/"%char (chars stu_ext) ->
  ~ In "."%char (chars stu_ext) ->
  run (tch_dir +:+ tch_name +:+ "." +:+ tch_ext)
      (stu_dir +:+ stu_name +:+ "." +:+ stu_ext) w = (Ok f, w') ->
  exists w2 : World,
    f = mkdtemp (fs w2) +:+ "/" +:+ tch_name +:+ "-" +:+ stu_name +:+ ".mp4".
Proof.
  intros Htd Hsd Ht1 Ht2 Ht3 Hs1 Hs2 Hs3 E.
  destruct (run_returns _ _ _ _ _ E) as [w2 Hf]. exists w2. rewrite Hf.
  assert (Hbase : forall dir name ext,
            dir = "" \/ (exists d, dir = d +:+ "/") ->
            ~ In "/"%char (chars name) -> ~ In "/"%char (chars ext) ->
            ~ In "."%char (chars ext) ->
            rsplit_dot_head (basename (dir +:+ name +:+ "." +:+ ext)) = name).
  { intros dir name ext Hdir Hn He Hd.
    rewrite basename_prefix; [now apply rsplit_dot_head_ext | exact Hdir |].
    rewrite !chars_append. change (chars ".") with ["."%char].
    intros Hin. apply in_app_or in Hin. destruct Hin as [Hin | Hin]; [now apply Hn |].
    cbn [app] in Hin. destruct Hin as [Hin | Hin]; [discriminate | now apply He]. }
  now rewrite !Hbase.
Qed.

(** The run over the sample videos returns [teacher-student.mp4]. *)
Lemma run_output_name_witness :
  fst (@run sample_collaborators sample_engine (spec_smoother sample_smooth)
         sample_converter "teacher.mp4" "student.mp4" sample_world)
  = Ok "/tmp/tmp0/teacher-student.mp4".
Proof.
  destruct (@run sample_collaborators sample_engine (spec_smoother sample_smooth)
              sample_converter "teacher.mp4" "student.mp4" sample_world)
    as [[f | e] w'] eqn:E.
  - assert (N1 : ~ In "/"%char (chars "teacher")) by (cbn; intuition discriminate).
    assert (N2 : ~ In "/"%char (chars "student")) by (cbn; intuition discriminate).
    assert (N3 : ~ In "/"%char (chars "mp4")) by (cbn; intuition discriminate).
    assert (N4 : ~ In "."%char (chars "mp4")) by (cbn; intuition discriminate).
    destruct (@run_output_name sample_collaborators sample_engine
                (spec_smoother sample_smooth) sample_converter
                "" "teacher" "mp4" "" "student" "mp4" sample_world w' f
                (or_introl eq_refl) (or_introl eq_refl) N1 N3 N4 N2 N3 N4 E)
      as [w2 Hf].
    cbn [fst]. rewrite Hf. reflexivity.
  - vm_compute in E. discriminate.
Defined.

(** Paths that end differently are different. *)
Lemma append_suffix_neq (a b : string) (x y : Ascii.ascii) (s t : string) :
  x <> y ->
  chars s = chars a ++ [x] -> chars t = chars b ++ [y] -> s <> t.
Proof.
  intros Hxy Hs Ht E. subst t. rewrite Hs in Ht.
  apply (f_equal (@rev Ascii.ascii)) in Ht. rewrite !rev_app_distr in Ht.
  cbn [rev app] in Ht. inversion Ht. contradiction.
Qed.

(** The output file of a run is no cache file. *)
Lemma output_file_not_cache (tmp n1 n2 video : string) :
  tmp +:+ "/" +:+ n1 +:+ "-" +:+ n2 +:+ ".mp4" <> kpts_path video.
Proof.
  apply (append_suffix_neq (tmp +:+ "/" +:+ n1 +:+ "-" +:+ n2 +:+ ".mp")
           (rsplit_dot_head video +:+ "_kpts.pt") "4"%char "h"%char).
  - discriminate.
  - rewrite !chars_append. cbn [chars String.list_ascii_of_string].
    now rewrite <- !app_assoc.
  - unfold kpts_path. rewrite !chars_append. cbn [chars String.list_ascii_of_string].
    now rewrite <- !app_assoc.
Qed.

(** X22.  Once the two extractions of a run have returned, the rest of the
    run, the engine and the rendering, leaves every keypoint cache file as
    the extractions left it, however the run ends: the output file is named
    [....mp4] and so is never a cache file [..._kpts.pth].  In particular
    the keypoints of the student are in their cache file after the run, also
    when the engine or the rendering has raised. *)
Theorem run_keeps_caches `{Collaborators} `{Engine} `{Smoother} `{FpsConverter}
    (tch_video stu_video : string) (w w1 w2 : World) (tch_kpts stu_kpts : nat) :
  get_keypoints_from_video tch_video w = (Ok tch_kpts, w1) ->
  get_keypoints_from_video stu_video w1 = (Ok stu_kpts, w2) ->
  (forall video, fs (snd (run tch_video stu_video w)) !! kpts_path video
                 = fs w2 !! kpts_path video) /\
  exists k, fs (snd (run tch_video stu_video w)) !! kpts_path stu_video
            = Some (TorchFile k) /\
            heap w2 !! stu_kpts = Some (Arr3 k).
Proof.
  intros E1 E2.
  assert (Hfs : forall video, fs (snd (run tch_video stu_video w)) !! kpts_path video
                              = fs w2 !! kpts_path video).
  { intros video. unfold run. bind_step E1. bind_step E2.
    unfold bind at 1, deref at 1.
    destruct (heap w2 !! tch_kpts) as [ta |]; [| reflexivity].
    unfold bind at 1, deref at 1.
    destruct (heap w2 !! stu_kpts) as [sa |]; [| reflexivity].
    unfold bind at 1, emit at 1. unfold bind at 1, lift at 1.
    destruct (calculate_similarity ta sa) as [m | e3]; [| reflexivity].
    unfold bind at 1, emit at 1. unfold bind at 1, lift at 1.
    destruct (select_piece_from_similarity m) as [piece | e4]; [| reflexivity].
    unfold bind at 1. cbn [fst snd].
    match goal with
    | |- context [generate_output_video ?a ?b ?c ?d ?e ?f ?w0] =>
        pose proof (generate_output_video_output_state a b c d e f w0) as Hwp
    end.
    unfold wp in Hwp. destruct Hwp as [j [_ [[_ [frames [_ Hf]]] _]]].
    rewrite Hf. cbn [fs add_log]. destruct frames as [| f0 rest]; [reflexivity |].
    cbn [written_fs]. apply lookup_insert_ne. apply output_file_not_cache. }
  split; [exact Hfs |].
  destruct (get_keypoints_from_video_ok stu_video w1 w2 stu_kpts E2) as [k [Hl Hk]].
  exists k. split; [now rewrite Hfs | exact Hl].
Qed.

(** After the run over the sample videos the cache of the student is
    there. *)
Lemma run_keeps_caches_witness :
  exists k,
    fs (snd (@run sample_collaborators sample_engine (spec_smoother sample_smooth)
               sample_converter "teacher.mp4" "student.mp4" sample_world))
      !! "student_kpts.pth" = Some (TorchFile k).
Proof.
  destruct (@get_keypoints_from_video sample_collaborators sample_converter
              "teacher.mp4" sample_world) as [[l1 | e] w1] eqn:E1;
    [| vm_compute in E1; discriminate].
  destruct (@get_keypoints_from_video sample_collaborators sample_converter
              "student.mp4" w1) as [[l2 | e] w2] eqn:E2.
  - destruct (@run_keeps_caches sample_collaborators sample_engine
                (spec_smoother sample_smooth) sample_converter
                "teacher.mp4" "student.mp4" sample_world w1 w2 l1 l2 E1 E2)
      as [_ [k [Hk _]]].
    exists k. exact Hk.
  - exfalso. vm_compute in E1. inversion E1; subst. vm_compute in E2. discriminate.
Defined.

(** ** app.py: [process_video] *)

Lemma VideoProcessor_value (w : World) :
  VideoProcessor w =
    (Ok tt, mkWorld (fs w) (heap w) None (inferencers_built w) (log w)).
Proof. reflexivity. Qed.

(** X13.  The call with the teacher video alone is a pre-processing step:
    when it returns, it returns the path it was given and the keypoints of
    the teacher are in their cache file; the grading call that follows, for
    whatever student video, starts by loading that file instead of decoding
    the teacher video again. *)
Theorem process_video_preprocesses_teacher
    `{Collaborators} `{Engine} `{Smoother} `{FpsConverter}
    (teacher_video : string) (w w1 : World) (r : option string) :
  process_video (Some teacher_video) None w = (Ok r, w1) ->
  r = Some teacher_video /\
  (exists k, fs w1 !! kpts_path teacher_video = Some (TorchFile k)) /\
  forall student_video : string,
  exists rest : list event,
    log (snd (process_video (Some teacher_video) (Some student_video) w1)) =
      log w1 ++ EvTorchLoad (kpts_path teacher_video) :: rest.
Proof.
  intros E. unfold process_video in E.
  rewrite (bind_ok _ _ _ _ _ (VideoProcessor_value w)) in E. cbv beta in E.
  set (w0 := mkWorld _ _ _ _ _) in E.
  unfold bind, ret in E.
  destruct (get_keypoints_from_video teacher_video w0) as [[l | e] wa] eqn:Ek;
    [| discriminate].
  inversion E; subst r wa. clear E.
  destruct (get_keypoints_from_video_ok teacher_video w0 w1 l Ek) as [k [_ Hk]].
  split; [reflexivity |]. split; [now exists k |].
  intros student_video. unfold process_video.
  rewrite (bind_ok _ _ _ _ _ (VideoProcessor_value w1)). cbv beta.
  set (w2 := mkWorld _ _ _ _ _).
  assert (Hk2 : fs w2 !! kpts_path teacher_video = Some (TorchFile k)) by exact Hk.
  pose proof (run_after_teacher teacher_video student_video w2 _ _
                (get_keypoints_from_video_hit teacher_video w2 k Hk2)) as [evs [Hl _]].
  cbn [log set_heap add_log] in Hl.
  exists evs. unfold bind, ret.
  destruct (run teacher_video student_video w2) as [[f | e] w3]; cbn [snd] in *;
    rewrite Hl; now rewrite <- app_assoc.
Qed.

(** The teacher video of the sample world is pre-processed; the grading
    call loads [teacher_kpts.pth] first. *)
Lemma process_video_preprocesses_teacher_witness :
  exists rest : list event,
    log (snd (@process_video sample_collaborators sample_engine
                (spec_smoother sample_smooth) sample_converter
                (Some "teacher.mp4") (Some "student.mp4")
                (snd (@process_video sample_collaborators sample_engine
                        (spec_smoother sample_smooth) sample_converter
                        (Some "teacher.mp4") None sample_world)))) =
    log (snd (@process_video sample_collaborators sample_engine
                (spec_smoother sample_smooth) sample_converter
                (Some "teacher.mp4") None sample_world))
    ++ EvTorchLoad "teacher_kpts.pth" :: rest.
Proof.
  destruct (@process_video_preprocesses_teacher sample_collaborators sample_engine
              (spec_smoother sample_smooth) sample_converter "teacher.mp4" sample_world
              (snd (@process_video sample_collaborators sample_engine
                      (spec_smoother sample_smooth) sample_converter
                      (Some "teacher.mp4") None sample_world))
              (Some "teacher.mp4")) as [_ [_ Hnext]].
  - vm_compute. reflexivity.
  - destruct (Hnext "student.mp4") as [rest Hrest]. exists rest. exact Hrest.
Defined.

(** X14.  Every call of [process_video] works on a [VideoProcessor] of its
    own, so the inferencer of an earlier call is never used again: whatever
    the state before the call, a call builds one inferencer as soon as one
    frame goes through the pose extraction, and none otherwise. *)
Theorem process_video_new_inferencer
    `{Collaborators} `{Engine} `{Smoother} `{FpsConverter}
    (teacher_video student_video : option string) (w : World) :
  exists evs : list event,
    log (snd (process_video teacher_video student_video w)) = log w ++ evs /\
    inferencers_built (snd (process_video teacher_video student_video w)) =
      (inferencers_built w +
       match pose_indices evs with
       | [] => 0
       | _ :: _ => 1
       end)%nat.
Proof.
  unfold process_video.
  rewrite (bind_ok _ _ _ _ _ (VideoProcessor_value w)). cbv beta.
  set (w0 := mkWorld _ _ _ _ _).
  assert (Hstep : forall w', estimator_step w0 w' ->
            exists evs : list event,
              log w' = log w ++ evs /\
              inferencers_built w' =
                (inferencers_built w +
                 match pose_indices evs with [] => 0 | _ :: _ => 1 end)%nat).
  { intros w' [evs [Hl [Hb _]]]. exists evs. split; [exact Hl |].
    rewrite Hb. unfold w0. cbn [self_pose_estimator inferencers_built].
    now destruct (pose_indices evs). }
  destruct student_video as [s |], teacher_video as [t |].
  - pose proof (run_estimator t s w0) as Hr. unfold bind, ret.
    destruct (run t s w0) as [[f | e] w']; cbn [snd] in *; now apply Hstep.
  - pose proof (get_keypoints_from_video_estimator s w0) as Hr. unfold bind, ret.
    destruct (get_keypoints_from_video s w0) as [[f | e] w']; cbn [snd] in *;
      now apply Hstep.
  - pose proof (get_keypoints_from_video_estimator t w0) as Hr. unfold bind, ret.
    destruct (get_keypoints_from_video t w0) as [[f | e] w']; cbn [snd] in *;
      now apply Hstep.
  - apply Hstep. apply estimator_step_refl.
Qed.

(** ** The property [visualizer] *)

Lemma visualizer_own `{PoseMeta} (pr : Processor) (v : nat) :
  self_visualizer pr = Some v -> visualizer pr = (Ok (OwnVisualizer v), pr).
Proof. intros E. unfold visualizer. now rewrite E. Qed.

Lemma visualizer_of_inferencer `{PoseMeta} (pr : Processor) (p : nat) :
  self_visualizer pr = None -> self_pose_estimator (pr_world pr) = Some p ->
  visualizer pr = (Ok (InferencerVisualizer p), pr).
Proof. intros E1 E2. unfold visualizer. now rewrite E1, E2. Qed.

(** A read that returns leaves the processor in a state in which every
    further read returns the same visualizer and changes nothing. *)
Lemma visualizer_stable `{PoseMeta} (pr pr1 : Processor) (v : visualizer_ref) :
  visualizer pr = (Ok v, pr1) -> visualizer pr1 = (Ok v, pr1).
Proof.
  unfold visualizer at 1.
  destruct (self_visualizer pr) as [x |] eqn:Ev.
  - intros E. inversion E; subst. now apply visualizer_own.
  - destruct (self_pose_estimator (pr_world pr)) as [p |] eqn:Ep.
    + intros E. inversion E; subst. now apply visualizer_of_inferencer.
    + cbn [pr_world self_visualizer visualizers_built dataset_meta].
      destruct (parse_pose_metainfo (metainfo_file module_file)); [| discriminate].
      intros E. inversion E; subst. now apply visualizer_own.
Qed.

Lemma access_visualizer_stable `{PoseMeta} (n : nat) (pr : Processor) (v : visualizer_ref) :
  visualizer pr = (Ok v, pr) -> access_visualizer n pr = (Ok (repeat v n), pr).
Proof.
  intros E. induction n as [| n IH]; [reflexivity |].
  cbn [access_visualizer repeat]. now rewrite E, IH.
Qed.

(** X15.  Which visualizer a processor works with is settled by the
    property that is read first.  On a processor fresh from its constructor:
    if [pose_estimator] is read first, [visualizer] answers with the
    visualizer of the inferencer and builds none of its own; if
    [visualizer] is read first (and the metainfo file can be read), it
    builds a visualizer of its own, gives it the dataset description, builds
    no inferencer, and goes on answering with that visualizer after
    [pose_estimator] has built the inferencer. *)
Theorem visualizer_follows_first_access `{PoseMeta} (pr : Processor) :
  fresh_processor pr ->
  (exists p,
     in_world pose_estimator pr = (Ok p, snd (in_world pose_estimator pr)) /\
     visualizer (snd (in_world pose_estimator pr)) =
       (Ok (InferencerVisualizer p), snd (in_world pose_estimator pr)) /\
     visualizers_built (snd (in_world pose_estimator pr)) = visualizers_built pr) /\
  (forall v pr1, visualizer pr = (Ok v, pr1) ->
     v = OwnVisualizer (visualizers_built pr) /\
     is_Some (dataset_meta pr1 !! visualizers_built pr) /\
     inferencers_built (pr_world pr1) = inferencers_built (pr_world pr) /\
     exists p,
       in_world pose_estimator pr1 = (Ok p, snd (in_world pose_estimator pr1)) /\
       visualizer (snd (in_world pose_estimator pr1)) =
         (Ok (OwnVisualizer (visualizers_built pr)), snd (in_world pose_estimator pr1))).
Proof.
  intros [Hv Hp]. split.
  - destruct (pose_estimator_value (pr_world pr)) as [p [E Hset]].
    exists p. unfold in_world. rewrite E. cbn [fst snd].
    split; [reflexivity |]. split; [| reflexivity].
    now apply visualizer_of_inferencer.
  - intros v pr1 E. unfold visualizer in E. rewrite Hv, Hp in E.
    cbn [pr_world self_visualizer visualizers_built dataset_meta] in E.
    destruct (parse_pose_metainfo (metainfo_file module_file)) as [m | e]; [| discriminate].
    inversion E; subst. cbn [dataset_meta pr_world].
    split; [reflexivity |].
    split; [rewrite lookup_insert_eq; now eexists |]. split; [reflexivity |].
    destruct (pose_estimator_value (pr_world pr)) as [p [Ep _]].
    exists p. unfold in_world. cbn [pr_world self_visualizer visualizers_built dataset_meta].
    rewrite Ep. cbn [fst snd]. split; [reflexivity |].
    now apply visualizer_own.
Qed.

(** On the sample processor, after a read of [pose_estimator]. *)
Lemma visualizer_follows_first_access_witness :
  exists p,
    @visualizer sample_meta
      (snd (@in_world sample_meta _ pose_estimator (sample_processor sample_meta))) =
    (Ok (InferencerVisualizer p),
     snd (@in_world sample_meta _ pose_estimator (sample_processor sample_meta))).
Proof.
  destruct (@visualizer_follows_first_access sample_meta (sample_processor sample_meta))
    as [[p [_ [Hv _]]] _].
  - split; reflexivity.
  - now exists p.
Defined.

(** X16.  The property [visualizer] builds at most one visualizer: when a
    read returns, any number of successive reads return the same visualizer
    and leave the processor as the first read left it; a visualizer is
    constructed only when the instance has neither a visualizer nor an
    inferencer, and the world (file system, arrays, inferencer) is never
    touched. *)
Theorem visualizer_built_once `{PoseMeta}
    (pr pr1 : Processor) (v : visualizer_ref) (n : nat) :
  visualizer pr = (Ok v, pr1) ->
  access_visualizer (S n) pr = (Ok (repeat v (S n)), pr1) /\
  pr_world pr1 = pr_world pr /\
  visualizers_built pr1 =
    (visualizers_built pr +
     match self_visualizer pr, self_pose_estimator (pr_world pr) with
     | None, None => 1
     | _, _ => 0
     end)%nat.
Proof.
  intros E. split; [| split].
  - cbn [access_visualizer]. rewrite E.
    now rewrite (access_visualizer_stable n pr1 v (visualizer_stable pr pr1 v E)).
  - unfold visualizer in E.
    destruct (self_visualizer pr); [now inversion E |].
    destruct (self_pose_estimator (pr_world pr)); [now inversion E |].
    cbn [pr_world self_visualizer visualizers_built dataset_meta] in E.
    destruct (parse_pose_metainfo (metainfo_file module_file)); [| discriminate].
    now inversion E.
  - unfold visualizer in E.
    destruct (self_visualizer pr); [inversion E; subst; lia |].
    destruct (self_pose_estimator (pr_world pr)); [inversion E; subst; lia |].
    cbn [pr_world self_visualizer visualizers_built dataset_meta] in E.
    destruct (parse_pose_metainfo (metainfo_file module_file)); [| discriminate].
    inversion E; subst. cbn [visualizers_built]. lia.
Qed.

(** Three reads on the sample processor. *)
Lemma visualizer_built_once_witness :
  @access_visualizer sample_meta 3 (sample_processor sample_meta) =
    (Ok (repeat (OwnVisualizer 0) 3),
     snd (@visualizer sample_meta (sample_processor sample_meta))).
Proof.
  apply (@visualizer_built_once sample_meta (sample_processor sample_meta)
           (snd (@visualizer sample_meta (sample_processor sample_meta)))
           (OwnVisualizer 0) 2).
  reflexivity.
Defined.

(** X17.  A read of [visualizer] raises only on a processor that has neither
    attribute, and only because [parse_pose_metainfo] raised.  The
    visualizer was assigned to [self._visualizer] before that, so the failed
    read leaves a visualizer without a dataset description behind, and every
    later read returns it without raising. *)
Theorem visualizer_failed_init `{PoseMeta} (pr pr1 : Processor) (e : exn) :
  visualizer pr = (Raise e, pr1) ->
  fresh_processor pr /\
  parse_pose_metainfo (metainfo_file module_file) = Raise e /\
  self_visualizer pr1 = Some (visualizers_built pr) /\
  dataset_meta pr1 = dataset_meta pr /\
  pr_world pr1 = pr_world pr /\
  forall n, access_visualizer n pr1 =
              (Ok (repeat (OwnVisualizer (visualizers_built pr)) n), pr1).
Proof.
  intros E. unfold visualizer in E.
  destruct (self_visualizer pr) eqn:Ev; [discriminate |].
  destruct (self_pose_estimator (pr_world pr)) eqn:Ep; [discriminate |].
  cbn [pr_world self_visualizer visualizers_built dataset_meta] in E.
  destruct (parse_pose_metainfo (metainfo_file module_file)) as [m | e'] eqn:Em;
    [discriminate |].
  inversion E; subst. cbn [pr_world self_visualizer visualizers_built dataset_meta].
  split; [now split |]. split; [reflexivity |]. split; [reflexivity |].
  split; [reflexivity |]. split; [reflexivity |].
  intros n. apply access_visualizer_stable. now apply visualizer_own.
Qed.

(** The metainfo file cannot be read: the first read raises, the next two
    return the visualizer that was left behind. *)
Lemma visualizer_failed_init_witness :
  @access_visualizer broken_meta 2
    (snd (@visualizer broken_meta (sample_processor broken_meta))) =
  (Ok (repeat (OwnVisualizer 0) 2),
   snd (@visualizer broken_meta (sample_processor broken_meta))).
Proof.
  destruct (@visualizer_failed_init broken_meta (sample_processor broken_meta)
              (snd (@visualizer broken_meta (sample_processor broken_meta)))
              FileNotFoundError) as [_ [_ [_ [_ [_ Hn]]]]].
  - reflexivity.
  - exact (Hn 2%nat).
Defined.

(** ** utils.py: [resize_image_to_fixed_height] and [blend_images] *)

(** [int(w * (k * h / h))] is [k * w]. *)
Lemma Qtrunc_scaled (wd k h : nat) :
  h <> 0%nat ->
  Qtrunc (inject_Z (Z.of_nat wd)
          * (inject_Z (Z.of_nat (k * h)) / inject_Z (Z.of_nat h)))
  = Z.of_nat (k * wd).
Proof.
  intros Hh. destruct h as [| h']; [congruence |].
  unfold Qtrunc, Qdiv, Qmult, Qinv, inject_Z. cbn [Qnum Qden].
  rewrite Nat2Z.inj_mul.
  destruct (Z.of_nat (S h')) as [| p | p] eqn:Ep; try lia.
  cbn [Qnum Qden]. rewrite !Pos.mul_1_l, Z.mul_1_r.
  rewrite Z.mul_assoc, Z.quot_mul by lia. lia.
Qed.


Lemma Qplus_comm_eq (x y : Q) : (x + y)%Q = (y + x)%Q.
Proof.
  unfold Qplus. f_equal; [apply Z.add_comm | apply Pos.mul_comm].
Qed.

Lemma combine_swap_map {A B C : Type} (f : A * B -> C) (g : B * A -> C)
    (l1 : list A) (l2 : list B) :
  (forall a b, f (a, b) = g (b, a)) ->
  map f (combine l1 l2) = map g (combine l2 l1).
Proof.
  intros Hfg. revert l2. induction l1 as [| a l1 IH]; intros [| b l2]; try reflexivity.
  cbn [combine map]. now rewrite Hfg, IH.
Qed.

(** X19.  [blend_images] is symmetric: for two images of the same shape,
    swapping the images together with their blend ratios gives the same
    image, entry for entry, whatever the element types of the two images. *)
Theorem blend_images_symmetric (img1 img2 : image) (r1 r2 : Q) :
  im_shape img1 = im_shape img2 ->
  blend_images img1 img2 (r1, r2) = blend_images img2 img1 (r2, r1).
Proof.
  intros Hs.
  destruct (blend_images img1 img2 (r1, r2)) as [s1 d1] eqn:E1.
  destruct (blend_images img2 img1 (r2, r1)) as [s2 d2] eqn:E2.
  pose proof (blend_images_data img1 img2 (r1, r2)) as D1.
  pose proof (blend_images_data img2 img1 (r2, r1)) as D2.
  rewrite E1 in D1. rewrite E2 in D2. cbn [im_data] in D1, D2.
  assert (S1 : s1 = im_shape img1) by (unfold blend_images in E1; now inversion E1).
  assert (S2 : s2 = im_shape img2) by (unfold blend_images in E2; now inversion E2).
  rewrite D1, D2, S1, S2, Hs. do 2 f_equal.
  apply combine_swap_map. intros a b. unfold blend_value. cbn [fst snd].
  now rewrite Qplus_comm_eq.
Qed.

(** A uint8 frame and a float overlay, either way round. *)
Lemma blend_images_symmetric_witness :
  blend_images frame_dancer sample_overlay (1, 0.3) =
  blend_images sample_overlay frame_dancer (0.3, 1).
Proof. apply blend_images_symmetric. reflexivity. Defined.

(** ** process_video.py: the configuration files *)

Lemma forallb_is_sep_false (c : Ascii.ascii) (l r : list Ascii.ascii) :
  is_sep c = false -> forallb is_sep (l ++ c :: r) = false.
Proof.
  intros Hc. induction l as [| a l IH]; cbn [app forallb].
  - now rewrite Hc.
  - rewrite IH. apply andb_false_r.
Qed.

Lemma is_sep_false (c : Ascii.ascii) : c <> "/"%char -> is_sep c = false.
Proof. intros Hc. unfold is_sep. now apply Ascii.eqb_neq. Qed.

(** The directory of [root/pkg/file]. *)
Lemma dirname_nested (root pkg file : string) :
  pkg <> "" -> ~ In "/"%char (chars pkg) -> ~ In "/"%char (chars file) ->
  dirname (root +:+ "/" +:+ pkg +:+ "/" +:+ file) = root +:+ "/" +:+ pkg.
Proof.
  intros Hne Hpkg Hfile. unfold dirname.
  rewrite !chars_append. change (chars "/") with ["/"%char].
  rewrite (app_assoc (chars root)), (app_assoc (chars root ++ ["/"%char])).
  rewrite (app_assoc (_ ++ chars pkg)).
  rewrite rev_app_distr. rewrite (rev_app_distr _ ["/"%char]). cbn [rev app].
  rewrite cut_at_found by (now rewrite <- in_rev).
  destruct (rev (chars pkg)) as [| c t] eqn:Er.
  { exfalso. apply Hne. apply chars_inj.
    rewrite <- (rev_involutive (chars pkg)), Er. reflexivity. }
  assert (Hc : is_sep c = false).
  { apply is_sep_false. intros ->. apply Hpkg. rewrite in_rev, Er. now left. }
  rewrite rev_app_distr, Er. cbn [app forallb]. cbn [is_sep].
  replace (is_sep "/"%char) with true by reflexivity. cbn [andb].
  rewrite Hc. cbn [andb drop_seps]. replace (is_sep "/"%char) with true by reflexivity.
  cbn [drop_seps]. rewrite Hc.
  apply chars_inj. unfold chars at 1.
  rewrite String.list_ascii_of_string_of_list_ascii.
  change (c :: t ++ rev (chars root ++ ["/"%char]))
    with ((c :: t) ++ rev (chars root ++ ["/"%char])).
  rewrite <- Er, <- rev_app_distr, rev_involutive, !chars_append.
  now rewrite <- app_assoc.
Qed.

Lemma rsplit_sep_head_last (dir name : string) :
  ~ In "/"%char (chars name) ->
  rsplit_sep_head (dir +:+ "/" +:+ name) = dir.
Proof.
  intros Hn. unfold rsplit_sep_head.
  rewrite !chars_append. change (chars "/") with ["/"%char].
  rewrite rev_app_distr. cbn [app rev]. rewrite <- app_assoc. cbn [app].
  rewrite cut_at_found by (now rewrite <- in_rev).
  rewrite rev_involutive. apply of_chars.
Qed.

Lemma project_dir_nested (root pkg file : string) :
  pkg <> "" -> ~ In "/"%char (chars pkg) -> ~ In "/"%char (chars file) ->
  project_dir (root +:+ "/" +:+ pkg +:+ "/" +:+ file) = root.
Proof.
  intros Hne Hpkg Hfile. unfold project_dir.
  rewrite (dirname_nested root pkg file Hne Hpkg Hfile).
  now apply rsplit_sep_head_last.
Qed.

(** X20.  For a module at [root/pkg/file], the configuration files of the
    pose model and of the detector and the metainfo file are looked up in
    [root/configs], the directory beside the package directory [pkg] and not
    inside it; when [root] is empty, that is when the package directory lies
    in the root of the file system, the three paths come out relative
    ([configs/...]). *)
Theorem config_paths_beside_package (root pkg file : string) :
  pkg <> "" -> ~ In "/"%char (chars pkg) -> ~ In "/"%char (chars file) ->
  project_dir (root +:+ "/" +:+ pkg +:+ "/" +:+ file) = root /\
  pose_config (root +:+ "/" +:+ pkg +:+ "/" +:+ file)
    = (if String.eqb root "" || endswith_sep root then root else root +:+ "/")
      +:+ "configs/rtmpose-t_8xb256-420e_coco-256x192.py" /\
  det_config (root +:+ "/" +:+ pkg +:+ "/" +:+ file)
    = (if String.eqb root "" || endswith_sep root then root else root +:+ "/")
      +:+ "configs/rtmdet_nano_320-8xb32_coco-person.py" /\
  metainfo_file (root +:+ "/" +:+ pkg +:+ "/" +:+ file)
    = (if String.eqb root "" || endswith_sep root then root else root +:+ "/")
      +:+ "configs/_base_/datasets/coco.py".
Proof.
  intros Hne Hpkg Hfile.
  pose proof (project_dir_nested root pkg file Hne Hpkg Hfile) as Hdir.
  split; [exact Hdir |]. unfold pose_config, det_config, metainfo_file.
  rewrite Hdir. unfold os_path_join. cbn [startswith_sep is_sep Ascii.eqb].
  cbn [Bool.eqb].
  destruct (String.eqb root "" || endswith_sep root); [now repeat split |].
  repeat split; apply chars_inj; rewrite !chars_append; now rewrite <- app_assoc.
Qed.

(** The module in [/opt/mmpose/projects/just_dance/just_dance]. *)
Lemma config_paths_beside_package_witness :
  pose_config "/opt/mmpose/projects/just_dance/just_dance/process_video.py"
  = "/opt/mmpose/projects/just_dance/configs/rtmpose-t_8xb256-420e_coco-256x192.py".
Proof.
  destruct (config_paths_beside_package "/opt/mmpose/projects/just_dance"
              "just_dance" "process_video.py") as [_ [Hp _]].
  - discriminate.
  - cbn. intuition discriminate.
  - cbn. intuition discriminate.
  - exact Hp.
Defined.
